(** * WaveFlow: a shallow embedding of [waveflow/modules.py]

    The development follows the source file top-down: the two permutations
    of the height dimension, the residual block and the residual stack
    (parallel and incremental evaluation), and the [WaveFlow] model with
    its forward pass and its two inverse passes.

    Tensors.  Every operation of the module that is not a library layer
    acts along dimension 2 (the height [H] of a [BxCxHxW] tensor): flips,
    splits, concatenations, slices [z[:,:,a:b,:]] and assignments
    [z[:,:,t,:] = ...].  A tensor is therefore represented by the list of
    its slices along dimension 2, so that [x.shape[2]] is the length of the
    list.  A slice gives a real number for every (batch, channel, width)
    index; scalars are real numbers.

    Scope.  The batch, channel and width extents are not represented: the
    inputs are taken to agree on them, and a layer to keep the width of its
    input, which a block does when [2 * padding_w = padding_h]
    ([keeps_width]).  Layer sizes are naturals, equal to the 64-bit
    integers of the source as long as these do not wrap ([int64_safe]).
    The properties that conclude that a call returns, or that give the
    value of a size, carry these conditions as hypotheses. *)

From Stdlib Require Import List Arith ZArith Lia Bool Permutation.
From Stdlib Require Import Reals Lra FunctionalExtensionality.
Import ListNotations.

Set Implicit Arguments.

(** ** Failure: a Python exception is [None] *)

Definition bind {A B : Type} (m : option A) (f : A -> option B) : option B :=
match m with
| Some a => f a
| None => None
end.

Notation "x <- m ;; k" := (bind m (fun x => k))
  (at level 61, m at next level, right associativity).
Notation "' p <- m ;; k" := (bind m (fun p => k))
  (at level 61, p pattern, m at next level, right associativity).

(** ** Library operations along dimension 2 *)

Module Torch.

Section Axis.
Context {A : Type}.

(** [torch.flip(x, (2,))] *)
Definition flip (x : list A) : list A := rev x.

(** The chunks of [torch.split(x, n, 2)] for [n > 0]: consecutive blocks of
    [n] slices, the last one possibly shorter.  [fuel] bounds the number of
    chunks. *)
Fixpoint chunks (fuel n : nat) (x : list A) : list (list A) :=
match fuel with
| O => []
| S fuel' =>
    match x with
    | [] => []
    | _ :: _ => firstn n x :: chunks fuel' n (skipn n x)
    end
end.

(** [torch.split(x, n, 2)] with an integer [n]: a split size of zero is
    accepted only for a dimension of size zero, and an empty dimension
    yields a single (empty) chunk. *)
Definition split (n : nat) (x : list A) : option (list (list A)) :=
match n, x with
| O, [] => Some [[]]
| O, _ :: _ => None
| S _, [] => Some [[]]
| S _, _ :: _ => Some (chunks (length x) n x)
end.

(** [torch.cat(xs, 2)] *)
Definition cat (xs : list (list A)) : list A := concat xs.

(** [x[:,:,:-n,:]]: Python reads [-0] as [0], so [n = 0] keeps nothing. *)
Definition drop_last (n : nat) (x : list A) : list A :=
match n with
| O => []
| S _ => firstn (length x - n) x
end.

(** [x[:,:,a:b,:]] for [0 <= a <= b]. *)
Definition slice_rows (a b : nat) (x : list A) : list A :=
firstn (b - a) (skipn a x).

(** [x[:,:,-1,:]]: an [IndexError] on an empty dimension. *)
Definition last_row (x : list A) : option A :=
match rev x with
| [] => None
| a :: _ => Some a
end.

(** [x[:,:,-1:,:]] *)
Definition last_rows (x : list A) : list A :=
match rev x with
| [] => []
| a :: _ => [a]
end.

(** [x[:,:,i,:] = v]: an [IndexError] when [i] is out of range. *)
Fixpoint set_row (i : nat) (v : A) (x : list A) : option (list A) :=
match x, i with
| [], _ => None
| _ :: x', O => Some (v :: x')
| a :: x', S i' => option_map (cons a) (set_row i' v x')
end.

(** The windows of [n] consecutive slices of [x], in order. *)
Definition windows (n : nat) (x : list A) : list (list A) :=
map (fun i => firstn n (skipn i x)) (seq 0 (length x + 1 - n)).

End Axis.

End Torch.

(** ** The two permutations of the height dimension *)

Section Flips.
Context {A : Type}.

(** [full_flip]: flip on the height dimension. *)
Definition full_flip (x : list A) : list A := Torch.flip x.

(** [half_flip]: split in chunks of [x.shape[2] // 2] slices, unpack the
    result into exactly two tensors, flip each and concatenate.  The
    unpacking [x1, x2 = ...] raises unless there are exactly two chunks. *)
Definition half_flip (x : list A) : option (list A) :=
match Torch.split (length x / 2) x with
| Some [x1; x2] => Some (Torch.cat [Torch.flip x1; Torch.flip x2])
| _ => None
end.

End Flips.

(** ** Configuration *)

(** Modelled from the spec: the configuration module [hparams.py] is not
    part of the sources; it supplies the fixed model dimensions (section 6 of
    the specification), which are taken here as a record of naturals.  Only
    the fields that the embedded code reads are kept. *)
Record HParams := {
  kernel_size : nat;
  cycle_size : nat;
  n_layer : nat;
  n_flow : nat;
  h : nat;
  hidden_size : nat;
  out_size : nat
}.

(** ** Reshaping a 1-D signal into the grid *)

Section Reshape.
Context {A : Type}.

Definition column (j : nat) (rows : list (list A)) : list A :=
flat_map (fun row => match nth_error row j with Some a => [a] | None => [] end) rows.

(** [.transpose(2,3)] of a grid with [m] columns. *)
Definition transpose (m : nat) (rows : list (list A)) : list (list A) :=
map (fun j => column j rows) (seq 0 m).

(** [x.reshape(.., .., r, -1)] on the last axis of one signal: [r] rows,
    the row length being inferred.  The library rejects [r = 0] and a
    length that [r] does not divide. *)
Definition reshape_rows (r : nat) (x : list A) : option (list (list A)) :=
if r =? 0 then None
else if length x mod r =? 0 then Some (Torch.chunks r (length x / r) x)
else None.

(** [x.reshape(B, C, L // hp.h, -1).transpose(2,3)]: the result is listed
    along dimension 2, each element listing dimension 3.  [L // 0] raises
    [ZeroDivisionError]. *)
Definition squeeze (hp : HParams) (x : list A) : option (list (list A)) :=
if h hp =? 0 then None
else
  rows <- reshape_rows (length x / h hp) x ;;
  Some (transpose (length x / (length x / h hp)) rows).

(** [z.transpose(2,3).reshape(B, -1)] of a grid of width [w]. *)
Definition unsqueeze (w : nat) (z : list (list A)) : list A :=
concat (transpose w z).

End Reshape.

(** ** Numeric tensors *)

(** One sample of a raw signal: its value per (batch, channel). *)
Definition sample := nat -> nat -> R.

(** One slice along dimension 2: its value per (batch, channel, width).
    The entries are real numbers: rounding, absorption and overflow of the
    floating-point arithmetic of the source are not modelled, so the
    properties below are equalities between the same computations, bounds
    that rounding keeps, shapes, and whether a call returns; none of them
    is an algebraic identity that holds only in exact arithmetic. *)
Definition slice := nat -> nat -> nat -> R.

Definition tensor := list slice.

Definition slice_of_row (row : list sample) : slice :=
fun b ch w => match nth_error row w with Some s => s b ch | None => 0%R end.

Definition row_of_slice (width : nat) (s : slice) : list sample :=
map (fun w => fun b ch => s b ch w) (seq 0 width).

Definition tensor_of_grid (g : list (list sample)) : tensor := map slice_of_row g.

Definition grid_of_tensor (width : nat) (x : tensor) : list (list sample) :=
map (row_of_slice width) x.

(** [x.shape[3]] of a grid; unknown for an empty dimension 2, where every
    caller below fails anyway. *)
Definition grid_width {A : Type} (g : list (list A)) : nat :=
match g with
| [] => 0
| row :: _ => length row
end.

Definition szero : slice := fun _ _ _ => 0%R.

Definition smap (f : R -> R) (s : slice) : slice := fun b ch w => f (s b ch w).

Definition smap2 (f : R -> R -> R) (s t : slice) : slice :=
fun b ch w => f (s b ch w) (t b ch w).

(** A block of channels starting at channel [lo] (one chunk of a
    [torch.split] along dimension 1). *)
Definition channels (lo : nat) (s : slice) : slice := fun b ch w => s b (lo + ch)%nat w.

Definition sadd : slice -> slice -> slice := smap2 Rplus.
Definition ssub : slice -> slice -> slice := smap2 Rminus.
Definition smul : slice -> slice -> slice := smap2 Rmult.
Definition sexp : slice -> slice := smap exp.
Definition sneg : slice -> slice := smap Ropp.

Definition sigmoid (v : R) : R := (/ (1 + exp (- v)))%R.
Definition relu (v : R) : R := Rmax 0 v.

(** [torch.clamp(v, max=10)] *)
Definition clamp_max (v : R) : R := Rmin v 10.

Definition tmap (f : slice -> slice) (x : tensor) : tensor := map f x.

(** An elementwise binary operation on two tensors: along dimension 2 the
    sizes must agree unless one of them is 1, which is then broadcast. *)
Definition broadcast (f : slice -> slice -> slice) (x y : tensor) : option tensor :=
if length x =? length y then Some (map (fun p => f (fst p) (snd p)) (combine x y))
else
  match x, y with
  | _, [t] => Some (map (fun s => f s t) x)
  | [s], _ => Some (map (fun t => f s t) y)
  | _, _ => None
  end.

Definition tadd := broadcast sadd.
Definition tmul := broadcast smul.

(** ** Convolution layers *)

(** A [nn.Conv2d] object without bias, seen along dimension 2: [weight]
    gives one output slice from the [extent] consecutive input slices that
    the dilated kernel covers ([extent = (kernel_h - 1) * dilation + 1]);
    the taps, the width padding and the channel mixing are the library's.
    [padding] is the zero padding on each side of dimension 2, an attribute
    that the incremental code overwrites.  The width axis is not modelled:
    a layer is taken to return a tensor of the width of its input, which
    holds for the 1x1 convolutions, for the first convolution of a stack
    (kernel (2,1), no width padding) and for the convolution of a block
    whose width padding is half of its span minus one ([keeps_width]
    below). *)
Record Conv2d := {
  weight : list slice -> slice;
  extent : nat;
  padding : nat
}.

Definition set_padding (p : nat) (cv : Conv2d) : Conv2d :=
{| weight := weight cv; extent := extent cv; padding := p |}.

(** Calling the layer: the library raises when the padded input is
    shorter than the kernel. *)
Definition conv (cv : Conv2d) (x : tensor) : option tensor :=
let xp := repeat szero (padding cv) ++ x ++ repeat szero (padding cv) in
if length xp <? extent cv then None
else Some (map (weight cv) (Torch.windows (extent cv) xp)).

(** ** Loops that may fail *)

Fixpoint foldM {S X : Type} (f : S -> X -> option S) (xs : list X) (s : S) : option S :=
match xs with
| [] => Some s
| x :: xs' => s' <- f s x ;; foldM f xs' s'
end.

(** [sum(ts)] of a Python list of tensors: the integer [0] plus each
    element in turn.  The sum of the empty list is the integer [0], which
    the layers that follow reject. *)
Definition py_sum (ts : list tensor) : option tensor :=
match ts with
| [] => None
| t :: ts' => foldM tadd ts' (tmap (smap (Rplus 0)) t)
end.

(** [a, b = torch.split(x, n, 1)] on a tensor that has [2 * n] channels by
    construction of the layer that produced it; the unpacking fails when
    [n = 0]. *)
Definition split_channels (n : nat) (x : tensor) : option (tensor * tensor) :=
if n =? 0 then None
else Some (tmap (channels 0) x, tmap (channels n) x).

(** ** ResidualBlock *)

(** The learned kernels of one block. *)
Record BlockWeights := {
  initial_w : list slice -> slice;
  cdt_w : list slice -> slice;
  res_w : list slice -> slice;
  skip_w : list slice -> slice
}.

Record ResidualBlock := {
  dilation : nat;
  padding_h : nat;
  padding_w : nat;
  initial_conv : Conv2d;
  cdtconv : Conv2d;
  resconv : Conv2d;
  skipconv : Conv2d
}.

Definition conv1x1 (w : list slice -> slice) : Conv2d :=
{| weight := w; extent := 1; padding := 0 |}.

(** [ResidualBlock.__init__] (the library needs [kernel_size >= 1]).  The
    sizes are naturals; in [ResidualStack.__init__] the dilation is a 64-bit
    numpy integer and so are the sizes computed from it, which wrap around:
    the naturals are the values of the source as long as they stay below
    [2^63] ([int64_safe] below). *)
Definition ResidualBlock_init (hp : HParams) (d : nat) (w : BlockWeights) : ResidualBlock :=
let total_size := (kernel_size hp - 1) * d + 1 in
{| dilation := d;
   padding_h := total_size - 1;
   padding_w := total_size / 2;
   initial_conv := {| weight := initial_w w;
                      extent := (kernel_size hp - 1) * d + 1;
                      padding := total_size - 1 |};
   cdtconv := conv1x1 (cdt_w w);
   resconv := conv1x1 (res_w w);
   skipconv := conv1x1 (skip_w w) |}.

Definition with_initial_conv (cv : Conv2d) (blk : ResidualBlock) : ResidualBlock :=
{| dilation := dilation blk;
   padding_h := padding_h blk;
   padding_w := padding_w blk;
   initial_conv := cv;
   cdtconv := cdtconv blk;
   resconv := resconv blk;
   skipconv := skipconv blk |}.

(** [ResidualBlock.forward]: returns the block (its convolution padding is
    overwritten in incremental mode), the residual and the skip
    connexions. *)
Definition ResidualBlock_forward (hp : HParams) (blk : ResidualBlock)
  (x c : tensor) (incremental : bool) : option (ResidualBlock * tensor * tensor) :=
let res := x in
let blk :=
  if incremental
  then if negb (padding (initial_conv blk) =? 0)
       then with_initial_conv (set_padding 0 (initial_conv blk)) blk
       else blk
  else blk in
x <- (if incremental
      then conv (initial_conv blk) x
      else option_map (Torch.drop_last (padding_h blk)) (conv (initial_conv blk) x)) ;;
c <- conv (cdtconv blk) c ;;
'(xa, xb) <- split_channels (hidden_size hp) x ;;
'(ca, cb) <- split_channels (hidden_size hp) c ;;
a <- tadd xa ca ;;
b <- tadd xb cb ;;
x <- tmul (tmap (smap tanh) a) (tmap (smap sigmoid) b) ;;
r <- conv (resconv blk) x ;;
res <- tadd r (if incremental then Torch.last_rows res else res) ;;
skp <- conv (skipconv blk) x ;;
Some (blk, res, skp).

(** ** The circular buffer of [fast_utils] *)

(** Modelled from the spec: the class [CircularTensor] of
    [waveflow/fast_utils.py] is not part of the sources.  Section 4.2 of the
    specification describes it as a fixed-size ring buffer with a write
    cursor: [push] writes at the cursor and advances it modulo the buffer
    length, [window] returns the contents in temporal order, oldest first.
    [set_current] is the push, calling the object is the window, and
    [buffer] is the attribute [tensor] that [arTransform] zeroes. *)
Record CircularTensor := {
  buffer : list slice;
  cursor : nat
}.

Definition CircularTensor_init (t : list slice) : CircularTensor :=
{| buffer := t; cursor := 0 |}.

Fixpoint write_at (i : nat) (v : slice) (x : list slice) : list slice :=
match x, i with
| [], _ => []
| _ :: x', O => v :: x'
| a :: x', S i' => a :: write_at i' v x'
end.

Definition set_current (v : slice) (ct : CircularTensor) : CircularTensor :=
{| buffer := write_at (cursor ct) v (buffer ct);
   cursor := (cursor ct + 1) mod length (buffer ct) |}.

Definition window (ct : CircularTensor) : list slice :=
skipn (cursor ct) (buffer ct) ++ firstn (cursor ct) (buffer ct).

(** [ct.tensor.zero_()]: the buffer is zeroed in place; nothing else of
    the object is touched. *)
Definition zero_ (ct : CircularTensor) : CircularTensor :=
{| buffer := map (fun _ => szero) (buffer ct); cursor := cursor ct |}.

(** ** ResidualStack *)

(** The learned kernels of one stack: the first convolution, the blocks
    (by layer index) and the two convolutions of [last_convs]. *)
Record StackWeights := {
  first_w : list slice -> slice;
  block_w : nat -> BlockWeights;
  last1_w : list slice -> slice;
  last3_w : list slice -> slice
}.

Record ResidualStack := {
  first_conv : Conv2d;
  stack : list ResidualBlock;
  last_conv1 : Conv2d;
  last_conv3 : Conv2d;
  cache : option (list CircularTensor)
}.

(** [np.arange(n) % c]: the remainder of an integer array by zero is zero
    (with a warning). *)
Definition np_mod (i c : nat) : nat := if c =? 0 then 0 else i mod c.

(** The dilations of the blocks: [2**i for i in np.arange(n_layer) % cycle_size].
    The source computes the powers with 64-bit numpy integers, which wrap
    around from exponent 63; the naturals used here are their values for
    [cycle_size <= 63]. *)
Definition dilations (hp : HParams) : list nat :=
map (fun i => 2 ^ np_mod i (cycle_size hp)) (seq 0 (n_layer hp)).

(** [ResidualStack.__init__]; the dilations are naturals, equal to the
    64-bit integers of the source for [cycle_size <= 63] (see
    [int64_safe]). *)
Definition ResidualStack_init (hp : HParams) (w : StackWeights) : ResidualStack :=
{| first_conv := {| weight := first_w w; extent := 2; padding := 2 |};
   stack := map (fun i => ResidualBlock_init hp (2 ^ np_mod i (cycle_size hp)) (block_w w i))
                (seq 0 (n_layer hp));
   last_conv1 := conv1x1 (last1_w w);
   last_conv3 := conv1x1 (last3_w w);
   cache := None |}.

(** [self.last_convs(x)]: ReLU, 1x1 convolution, ReLU, 1x1 convolution. *)
Definition last_convs (st : ResidualStack) (x : tensor) : option tensor :=
y <- conv (last_conv1 st) (tmap (smap relu) x) ;;
conv (last_conv3 st) (tmap (smap relu) y).

(** The loop over the blocks in parallel mode: the list of skip
    connexions. *)
Fixpoint parallel_blocks (hp : HParams) (blocks : list ResidualBlock) (res c : tensor)
  : option (list tensor) :=
match blocks with
| [] => Some []
| blk :: blocks' =>
    '(_, res', skp) <- ResidualBlock_forward hp blk res c false ;;
    skps <- parallel_blocks hp blocks' res' c ;;
    Some (skp :: skps)
end.

(** [ResidualStack.forward] *)
Definition ResidualStack_forward (hp : HParams) (st : ResidualStack) (x c : tensor)
  : option tensor :=
y <- conv (first_conv st) x ;;
let res := tmap (smap tanh) (Torch.drop_last 3 y) in
skp_list <- parallel_blocks hp (stack st) res c ;;
x <- py_sum skp_list ;;
last_convs st x.

(** [mean, logvar = torch.split(t, 1, 1)]: one channel each; the unpacking
    needs exactly [out_size = 2] channels. *)
Definition split_mean_logvar (hp : HParams) (t : tensor) : option (tensor * tensor) :=
if out_size hp =? 2 then Some (tmap (channels 0) t, tmap (channels 1) t) else None.

(** The loop over the blocks in incremental mode: block [i] pushes the
    last row of the running residual in its cache, reads the window back
    and runs on it. *)
Fixpoint incremental_blocks (hp : HParams) (blocks : list ResidualBlock)
  (caches : list CircularTensor) (res c_in : tensor)
  : option (list ResidualBlock * list CircularTensor * list tensor) :=
match blocks with
| [] => Some ([], caches, [])
| blk :: blocks' =>
    match caches with
    | [] => None
    | ct :: caches' =>
        v <- Torch.last_row res ;;
        let ct' := set_current v ct in
        '(blk', res', skp) <- ResidualBlock_forward hp blk (window ct') c_in true ;;
        '(bs, cs, skps) <- incremental_blocks hp blocks' caches' res' c_in ;;
        Some (blk' :: bs, ct' :: cs, skp :: skps)
    end
end.

Definition with_state (fc : Conv2d) (blocks : list ResidualBlock)
  (ch : option (list CircularTensor)) (st : ResidualStack) : ResidualStack :=
{| first_conv := fc;
   stack := blocks;
   last_conv1 := last_conv1 st;
   last_conv3 := last_conv3 st;
   cache := ch |}.

(** The first lines of [arTransform]: allocate the caches on the first
    synthesis, zero them on a resumed one. *)
Definition prepare_cache (hp : HParams) (st : ResidualStack) : ResidualStack :=
match cache st with
| None =>
    with_state (set_padding 0 (first_conv st)) (stack st)
      (Some (map (fun blk =>
                    CircularTensor_init
                      (repeat szero ((kernel_size hp - 1) * dilation blk + 1)))
                 (stack st))) st
| Some cs => with_state (first_conv st) (stack st) (Some (map zero_ cs)) st
end.

(** One iteration of the loop over [step] in [arTransform]; [z] is the
    padded signal. *)
Definition arTransform_step (hp : HParams) (c : tensor)
  (s : ResidualStack * tensor) (step : nat) : option (ResidualStack * tensor) :=
let '(st, z) := s in
let z_in := Torch.slice_rows step (step + 2) z in
let c_in := Torch.slice_rows step (step + 1) c in
y <- conv (first_conv st) z_in ;;
let res := tmap (smap tanh) y in
caches <- cache st ;;
'(bs, cs, skp_list) <- incremental_blocks hp (stack st) caches res c_in ;;
let st' := with_state (first_conv st) bs (Some cs) st in
x <- py_sum skp_list ;;
out <- last_convs st' x ;;
'(mean, logvar) <- split_mean_logvar hp out ;;
zr <- nth_error z (step + 2) ;;
m <- Torch.last_row mean ;;
lv <- Torch.last_row logvar ;;
z' <- Torch.set_row (step + 2) (smul (ssub zr m) (sexp (sneg lv))) z ;;
Some (st', z').

(** [ResidualStack.arTransform]: the stack after the call and the
    transformed signal. *)
Definition arTransform (hp : HParams) (st : ResidualStack) (z c : tensor)
  : option (ResidualStack * tensor) :=
let st := prepare_cache hp st in
let z := repeat szero 2 ++ z in
'(st', z') <- foldM (arTransform_step hp c) (seq 0 (h hp)) (st, z) ;;
Some (st', skipn 2 z').

(** ** WaveFlow *)

Record WaveFlow := {
  flows : list ResidualStack;
  receptive_field : Z
}.

(** [sum([2**(i % hp.cycle_size) for i in range(hp.n_layer)])]; the
    remainder of a Python integer by zero raises [ZeroDivisionError]. *)
Definition dilation_sum (hp : HParams) : option Z :=
if (cycle_size hp =? 0) && negb (n_layer hp =? 0) then None
else Some (fold_left Z.add
             (map (fun i => (2 ^ Z.of_nat (i mod cycle_size hp))%Z) (seq 0 (n_layer hp)))
             0%Z).

(** [WaveFlow.__init__]: one stack per flow, with the kernels that the
    initialisation drew for it, and the receptive field. *)
Definition WaveFlow_init (hp : HParams) (w : nat -> StackWeights) : option WaveFlow :=
s <- dilation_sum hp ;;
Some {| flows := map (fun i => ResidualStack_init hp (w i)) (seq 0 (n_flow hp));
        receptive_field := ((Z.of_nat (kernel_size hp) - 1) * s + 1)%Z |}.

(** The permutation after flow [i] in [forward]:
    [full_flip(x) if i < 4 else half_flip(x)]. *)
Definition forward_flip {A : Type} (i : nat) (x : list A) : option (list A) :=
if i <? 4 then Some (full_flip x) else half_flip x.

(** The permutation before the [i]-th inverted flow in [synthesize] and
    [synthesize_fast], [i] counting the reversed list of flows:
    [full_flip(z) if i > 4 else half_flip(z)]. *)
Definition synthesize_flip {A : Type} (i : nat) (x : list A) : option (list A) :=
if 4 <? i then Some (full_flip x) else half_flip x.

(** [torch.exp(logvar) * x + mean] *)
Definition affine (logvar x mean : tensor) : option tensor :=
t <- tmul (tmap sexp logvar) x ;;
tadd t mean.

(** The state of the loop of [forward]. *)
Record ForwardState := {
  fs_x : tensor;
  fs_c : tensor;
  global_mean : option tensor;
  global_logvar : option tensor
}.

(** The affine part of one iteration of [forward], up to the update of
    [x], before the permutation. *)
Definition forward_affine (hp : HParams) (s : ForwardState) (flow : ResidualStack)
  : option ForwardState :=
out <- ResidualStack_forward hp flow (fs_x s) (fs_c s) ;;
'(mean, logvar) <- split_mean_logvar hp out ;;
let logvar := tmap (smap clamp_max) logvar in
'(gm, glv) <- match global_mean s, global_logvar s with
              | Some gm, Some glv =>
                  gm' <- (t <- tmul gm (tmap sexp logvar) ;; tadd t mean) ;;
                  glv' <- tadd glv logvar ;;
                  Some (gm', glv')
              | _, _ => Some (mean, logvar)
              end ;;
x <- affine logvar (fs_x s) mean ;;
Some {| fs_x := x; fs_c := fs_c s; global_mean := Some gm; global_logvar := Some glv |}.

(** One iteration of the loop of [forward]. *)
Definition forward_step (hp : HParams) (s : ForwardState) (iflow : nat * ResidualStack)
  : option ForwardState :=
let '(i, flow) := iflow in
s' <- forward_affine hp s flow ;;
x <- forward_flip i (fs_x s') ;;
c <- forward_flip i (fs_c s') ;;
Some {| fs_x := x; fs_c := c;
        global_mean := global_mean s'; global_logvar := global_logvar s' |}.

(** [enumerate(l)] *)
Definition enumerate {A : Type} (l : list A) : list (nat * A) :=
combine (seq 0 (length l)) l.

(** [WaveFlow.forward(x, c, squeezed=True)]: the inputs are in grid
    form. *)
Definition forward_squeezed (hp : HParams) (m : WaveFlow) (x c : tensor)
  : option (tensor * option tensor * option tensor) :=
s <- foldM (forward_step hp) (enumerate (flows m))
       {| fs_x := x; fs_c := c; global_mean := None; global_logvar := None |} ;;
Some (fs_x s, global_mean s, global_logvar s).

(** [WaveFlow.forward(x, c)] with [squeezed=False]: the inputs are raw
    signals, listed along their last axis. *)
Definition forward (hp : HParams) (m : WaveFlow) (x c : list sample)
  : option (tensor * option tensor * option tensor) :=
xg <- squeeze hp x ;;
cg <- squeeze hp c ;;
forward_squeezed hp m (tensor_of_grid xg) (tensor_of_grid cg).

(** One iteration of the loop over [step] in [synthesize]. *)
Definition synthesize_step (hp : HParams) (flow : ResidualStack) (c : tensor)
  (z : tensor) (step : nat) : option tensor :=
let z_in := firstn (step + 1) z in
let c_in := firstn (step + 1) c in
out <- ResidualStack_forward hp flow z_in c_in ;;
'(mean, logvar) <- split_mean_logvar hp out ;;
zr <- nth_error z step ;;
m <- Torch.last_row mean ;;
lv <- Torch.last_row logvar ;;
Torch.set_row step (smul (ssub zr m) (sexp (sneg lv))) z.

(** One iteration of the loop over the reversed flows in [synthesize]. *)
Definition synthesize_flow (hp : HParams) (s : tensor * tensor)
  (iflow : nat * ResidualStack) : option (tensor * tensor) :=
let '(z, c) := s in
let '(i, flow) := iflow in
z <- synthesize_flip i z ;;
c <- synthesize_flip i c ;;
z <- foldM (synthesize_step hp flow c) (seq 0 (h hp)) z ;;
Some (z, c).

(** The base noise [torch.randn(B, 1, H, W) * temp]: the draw is the
    argument [noise], one slice per row. *)
Definition base_noise (noise : nat -> slice) (temp : R) (height : nat) : tensor :=
tmap (smap (fun v => (v * temp)%R)) (map noise (seq 0 height)).

(** [WaveFlow.synthesize] *)
Definition synthesize (hp : HParams) (m : WaveFlow) (noise : nat -> slice)
  (c : list sample) (temp : R) : option (list sample) :=
cg <- squeeze hp c ;;
let c := tensor_of_grid cg in
let z := base_noise noise temp (length c) in
'(z, _) <- foldM (synthesize_flow hp) (enumerate (rev (flows m))) (z, c) ;;
Some (unsqueeze (grid_width cg) (grid_of_tensor (grid_width cg) z)).

(** The loop over the reversed flows in [synthesize_fast]; the flows come
    back in the order of the loop, each as [arTransform] left it. *)
Fixpoint fast_flows (hp : HParams) (ifl : list (nat * ResidualStack)) (z c : tensor)
  : option (list ResidualStack * tensor) :=
match ifl with
| [] => Some ([], z)
| (i, flow) :: ifl' =>
    z <- synthesize_flip i z ;;
    c <- synthesize_flip i c ;;
    '(flow', z) <- arTransform hp flow z c ;;
    '(fl, z) <- fast_flows hp ifl' z c ;;
    Some (flow' :: fl, z)
end.

(** [WaveFlow.synthesize_fast]: the model after the call and the signal. *)
Definition synthesize_fast (hp : HParams) (m : WaveFlow) (noise : nat -> slice)
  (c : list sample) (temp : R) : option (WaveFlow * list sample) :=
cg <- squeeze hp c ;;
let c := tensor_of_grid cg in
let z := base_noise noise temp (length c) in
'(fl, z) <- fast_flows hp (enumerate (rev (flows m))) z c ;;
Some ({| flows := rev fl; receptive_field := receptive_field m |},
      unsqueeze (grid_width cg) (grid_of_tensor (grid_width cg) z)).

(** ** Reference formulas *)

(** The sum [sum(2^(i mod c) for i in range(n))] of the receptive-field
    formula, by recursion on [n]. *)
Fixpoint pow2_sum (c n : nat) : Z :=
match n with
| O => 0%Z
| S n' => (pow2_sum c n' + 2 ^ Z.of_nat (n' mod c))%Z
end.

(** ** Row-wise reading of the causal layers *)

(** The last [n] slices of a list. *)
Definition lastn {A : Type} (n : nat) (l : list A) : list A := skipn (length l - n) l.

(** The causal window of [n] rows that ends with the last row of [xs],
    zero-filled on the left. *)
Definition hist (n : nat) (xs : tensor) : tensor := lastn n (repeat szero n ++ xs).

(** Row [s] of the output of the first convolution and its [tanh] in
    parallel mode: it reads the two rows strictly before row [s]. *)
Definition first_rows (st : ResidualStack) (x : tensor) : tensor :=
map (fun s => smap tanh (weight (first_conv st) (hist 2 (firstn s x))))
    (seq 0 (length x)).

(** One row of a block from the causal window [win] of its input (the
    last row of [win] is the current one) and the current conditioning
    row: the residual and the skip rows. *)
Definition block_row (hp : HParams) (blk : ResidualBlock) (win : tensor) (d : slice)
  : slice * slice :=
let x := weight (initial_conv blk) win in
let c := weight (cdtconv blk) [d] in
let g := smul (smap tanh (sadd (channels 0 x) (channels 0 c)))
              (smap sigmoid (sadd (channels (hidden_size hp) x)
                                  (channels (hidden_size hp) c))) in
(sadd (weight (resconv blk) [g]) (last win szero), weight (skipconv blk) [g]).

(** The rows of a block over a whole input. *)
Definition block_rows (hp : HParams) (blk : ResidualBlock) (res c : tensor)
  : list (slice * slice) :=
map (fun s => block_row hp blk (hist (extent (initial_conv blk)) (firstn (s + 1) res))
                               (nth s c szero))
    (seq 0 (length res)).

(** The inputs of the successive blocks and their skip connexions. *)
Fixpoint block_inputs (hp : HParams) (blocks : list ResidualBlock) (res c : tensor)
  : list tensor :=
match blocks with
| [] => []
| blk :: blocks' => res :: block_inputs hp blocks' (map fst (block_rows hp blk res c)) c
end.

Fixpoint block_skips (hp : HParams) (blocks : list ResidualBlock) (res c : tensor)
  : list tensor :=
match blocks with
| [] => []
| blk :: blocks' =>
    map snd (block_rows hp blk res c)
    :: block_skips hp blocks' (map fst (block_rows hp blk res c)) c
end.

(** One more row through the blocks: [hists] are the inputs of the blocks
    so far, [r] the new input row of the first block, [d] the new
    conditioning row.  For each block, its new input row and its new skip
    row. *)
Fixpoint row_chain (hp : HParams) (blocks : list ResidualBlock) (hists : list tensor)
  (r d : slice) : list (slice * slice) :=
match blocks, hists with
| blk :: blocks', hs :: hists' =>
    let rs := block_row hp blk (hist (extent (initial_conv blk)) (hs ++ [r])) d in
    (r, snd rs) :: row_chain hp blocks' hists' (fst rs) d
| _, _ => []
end.

(** The sum of the skip rows, as [sum] adds them. *)
Definition sum_row (rows : list slice) : slice :=
match rows with
| [] => szero
| r :: rows' => fold_left sadd rows' (smap (Rplus 0) r)
end.

(** One row through [last_convs]. *)
Definition last_row_fn (st : ResidualStack) (s : slice) : slice :=
weight (last_conv3 st) [smap relu (weight (last_conv1 st) [smap relu s])].

(** Appending one row to each of several tensors. *)
Fixpoint snoc_each {A : Type} (ts : list (list A)) (rows : list A) : list (list A) :=
match ts, rows with
| t :: ts', r :: rows' => (t ++ [r]) :: snoc_each ts' rows'
| _, _ => []
end.

(** Row [s] of each of several tensors. *)
Definition rows_at (s : nat) (ts : list tensor) : list slice :=
map (fun t => nth s t szero) ts.

(** The rows of the output of a stack in parallel mode. *)
Definition stack_rows (hp : HParams) (st : ResidualStack) (x c : tensor) : tensor :=
map (fun s => last_row_fn st
                (sum_row (rows_at s (block_skips hp (stack st) (first_rows st x) c))))
    (seq 0 (length x)).

(** The output row that follows the rows [xs] of the signal and [cs] of
    the conditioning, for the new conditioning row [d]: it does not read
    the new row of the signal. *)
Definition next_row (hp : HParams) (st : ResidualStack) (xs cs : tensor) (d : slice)
  : slice :=
last_row_fn st
  (sum_row (map snd (row_chain hp (stack st)
                       (block_inputs hp (stack st) (first_rows st xs) cs)
                       (smap tanh (weight (first_conv st) (hist 2 xs))) d))).

(** The update of one row of the signal by the two inverse passes. *)
Definition inverse_row (zr out : slice) : slice :=
smul (ssub zr (channels 0 out)) (sexp (sneg (channels 1 out))).

(** A block after its first incremental call: the padding of its
    convolution is zero. *)
Definition to_incremental (blk : ResidualBlock) : ResidualBlock :=
with_initial_conv (set_padding 0 (initial_conv blk)) blk.

(** A block of a stack that may have been used incrementally. *)
Definition block_of (blk0 blk : ResidualBlock) : Prop :=
blk = blk0 \/ blk = to_incremental blk0.

(** The caches hold the causal windows of the inputs [hists] of the
    blocks: each buffer has the size of its block's window, and read in
    temporal order it is the window that ends with the last input. *)
Fixpoint caches_hold (blocks : list ResidualBlock) (caches : list CircularTensor)
  (hists : list tensor) : Prop :=
match blocks, caches, hists with
| [], [], [] => True
| blk :: blocks', ct :: caches', hs :: hists' =>
    (length (buffer ct) = extent (initial_conv blk)
     /\ cursor ct < length (buffer ct)
     /\ skipn (cursor ct) (buffer ct) ++ firstn (cursor ct) (buffer ct)
        = hist (extent (initial_conv blk)) hs)
    /\ caches_hold blocks' caches' hists'
| _, _, _ => False
end.

(** A stack [st] in the middle of [arTransform], [st0] being the stack as
    it was built: same kernels, first convolution without padding, and
    caches that hold the windows of the block inputs [hists]. *)
Definition ready (st0 st : ResidualStack) (hists : list tensor) : Prop :=
first_conv st = set_padding 0 (first_conv st0)
/\ last_conv1 st = last_conv1 st0
/\ last_conv3 st = last_conv3 st0
/\ Forall2 block_of (stack st0) (stack st)
/\ exists caches, cache st = Some caches /\ caches_hold (stack st0) caches hists.

(** A stack as an earlier call of [arTransform] left it, and a stack on
    entry of [arTransform]: either as it was built, or used. *)
Definition used_state (st0 st : ResidualStack) : Prop :=
exists hists, ready st0 st hists.

Definition stack_state (st0 st : ResidualStack) : Prop :=
(st = st0 /\ cache st0 = None) \/ used_state st0 st.

(** An enumerated flow on entry of [arTransform], next to the flow as it
    was built. *)
Definition flow_state (p0 p : nat * ResidualStack) : Prop :=
fst p = fst p0 /\ stack_state (snd p0) (snd p).

(** The running pair has the height of the signal. *)
Definition pair_fits (s : ForwardState) : Prop :=
match global_mean s, global_logvar s with
| Some gm, Some glv => length gm = length (fs_x s) /\ length glv = length (fs_x s)
| _, _ => True
end.

(** A block whose convolutions are as [ResidualBlock.__init__] sets
    them, for a kernel size of at least 2. *)
Definition training_block (hp : HParams) (blk : ResidualBlock) : Prop :=
padding (initial_conv blk) = padding_h blk
/\ extent (initial_conv blk) = padding_h blk + 1
/\ (kernel_size hp - 1) * dilation blk + 1 = padding_h blk + 1
/\ 0 < padding_h blk
/\ (extent (cdtconv blk) = 1 /\ padding (cdtconv blk) = 0)
/\ (extent (resconv blk) = 1 /\ padding (resconv blk) = 0)
/\ (extent (skipconv blk) = 1 /\ padding (skipconv blk) = 0).

(** A stack as [ResidualStack.__init__] leaves it. *)
Definition training_stack (hp : HParams) (st : ResidualStack) : Prop :=
extent (first_conv st) = 2 /\ padding (first_conv st) = 2
/\ Forall (training_block hp) (stack st)
/\ stack st <> []
/\ (extent (last_conv1 st) = 1 /\ padding (last_conv1 st) = 0)
/\ (extent (last_conv3 st) = 1 /\ padding (last_conv3 st) = 0).

(** The part of the configuration that the layers need. *)
Definition valid_hp (hp : HParams) : Prop :=
2 <= kernel_size hp /\ hidden_size hp <> 0 /\ out_size hp = 2 /\ n_layer hp <> 0.

(** The convolution of a block keeps the width of its input: the kernel
    spans [padding_h + 1] columns and is padded by [padding_w] columns on
    each side, so the output is [2 * padding_w - padding_h] columns wider
    than the input.  With [padding_w = total_size // 2] this is zero
    exactly when [(kernel_size - 1) * dilation] is even; otherwise the
    output is one column wider than the conditioning and the block
    raises. *)
Definition keeps_width (blk : ResidualBlock) : Prop :=
2 * padding_w blk = padding_h blk.

(** The sizes of the layers fit in the 64-bit integers in which
    [ResidualStack.__init__] computes them ([2**i] for [i] in a numpy
    array): the largest exponent is [cycle_size - 1] and the largest size is
    the span [(kernel_size - 1) * 2^(cycle_size - 1) + 1]. *)
Definition int64_safe (hp : HParams) : Prop :=
cycle_size hp <= 63
/\ ((Z.of_nat (kernel_size hp) - 1) * 2 ^ Z.of_nat (cycle_size hp - 1) + 1 < 2 ^ 63)%Z.

(** ** A small instance *)

(** Eight flows of one layer each, squeeze factor 2. *)
Definition small_hp : HParams :=
{| kernel_size := 3; cycle_size := 10; n_layer := 1; n_flow := 8;
   h := 2; hidden_size := 1; out_size := 2 |}.

(** Kernels whose weights are all zero: every layer outputs zeros. *)
Definition zero_weights : StackWeights :=
{| first_w := fun _ => szero;
   block_w := fun _ => {| initial_w := fun _ => szero;
                          cdt_w := fun _ => szero;
                          res_w := fun _ => szero;
                          skip_w := fun _ => szero |};
   last1_w := fun _ => szero;
   last3_w := fun _ => szero |}.

(** The slice whose entries all equal [v]. *)
Definition sconst (v : R) : slice := fun _ _ _ => v.

(** The sample whose entries all equal [v]. *)
Definition const_sample (v : R) : sample := fun _ _ => v.

(** Kernels that add up the rows of their window. *)
Definition sum_weights : StackWeights :=
{| first_w := fun win => fold_right sadd szero win;
   block_w := fun _ => {| initial_w := fun win => fold_right sadd szero win;
                          cdt_w := fun win => fold_right sadd szero win;
                          res_w := fun win => fold_right sadd szero win;
                          skip_w := fun win => fold_right sadd szero win |};
   last1_w := fun win => fold_right sadd szero win;
   last3_w := fun win => fold_right sadd szero win |}.

(** The model that [WaveFlow.__init__] builds for [small_hp] when every
    flow draws the kernels [w]. *)
Definition small_model (w : StackWeights) : WaveFlow :=
{| flows := map (fun _ => ResidualStack_init small_hp w) (seq 0 (n_flow small_hp));
   receptive_field := 3 |}.

(** A base noise whose row [i] is constantly [i + 1]. *)
Definition ramp_noise (i : nat) : slice := sconst (INR (S i)).

(** A single flow of one layer, squeeze factor 2, and the model built for
    it when the flow draws the kernels [w]. *)
Definition tiny_hp : HParams :=
{| kernel_size := 3; cycle_size := 10; n_layer := 1; n_flow := 1;
   h := 2; hidden_size := 1; out_size := 2 |}.

Definition tiny_model (w : StackWeights) : WaveFlow :=
{| flows := [ResidualStack_init tiny_hp w]; receptive_field := 3 |}.

(** The permutations alone, as the loops of [forward] and of the inverse
    passes apply them to the signal and to the conditioning. *)
Definition forward_flips (s : tensor * tensor) (i : nat) : option (tensor * tensor) :=
x' <- forward_flip i (fst s) ;;
c' <- forward_flip i (snd s) ;;
Some (x', c').

Definition synthesize_flips (s : tensor * tensor) (i : nat) : option (tensor * tensor) :=
z' <- synthesize_flip i (fst s) ;;
c' <- synthesize_flip i (snd s) ;;
Some (z', c').

(** The sample at width index [w] of a slice. *)
Definition sample_at (s : slice) (w : nat) : sample := fun b ch => s b ch w.

(** ** Proof automation *)

(** Inversion of a computation that returned: each step of a chain of
    binds returned as well. *)
Ltac bind_inv H :=
  repeat match type of H with
         | bind ?m _ = Some _ =>
             let E := fresh "E" in
             destruct m eqn:E; [cbn [bind] in H | discriminate H]
         | (let '(_, _) := ?p in _) = _ => destruct p
         end.

(** * Properties *)

Unset Implicit Arguments.

(** ** Failure *)

Lemma bind_Some {X Y : Type} (m : option X) (f : X -> option Y) (y : Y) :
  bind m f = Some y -> exists a, m = Some a /\ f a = Some y.
Proof.
  destruct m as [a|]; simpl; intros H; [exists a; auto | discriminate].
Qed.

(** ** The permutations *)

Section FlipFacts.
Context {A : Type}.
Implicit Types x y : list A.

(** On an even, non-empty dimension the split yields the two halves. *)
Lemma split_even x k :
  length x = 2 * k -> 0 < k ->
  Torch.split (length x / 2) x = Some [firstn k x; skipn k x].
Proof.
  intros Hlen Hk.
  assert (Hdiv : length x / 2 = k).
  { rewrite Hlen, Nat.mul_comm. apply Nat.div_mul. discriminate. }
  rewrite Hdiv.
  destruct k as [|k]; [lia|].
  destruct x as [|a x]; [simpl in Hlen; lia|].
  unfold Torch.split.
  remember (a :: x) as l eqn:El.
  assert (Hl : l <> []) by (subst; discriminate).
  rewrite Hlen.
  replace (2 * S k) with (S (S (2 * k))) by lia.
  cbn [Torch.chunks].
  destruct l as [|b l]; [congruence|].
  remember (b :: l) as l0.
  assert (Hs : length (skipn (S k) l0) = S k) by (rewrite length_skipn; lia).
  destruct (skipn (S k) l0) as [|c r] eqn:Er; [simpl in Hs; lia|].
  f_equal. f_equal.
  assert (Hf : firstn (S k) (c :: r) = c :: r) by (apply firstn_all2; lia).
  rewrite Hf. f_equal.
  assert (Hn : skipn (S k) (c :: r) = []) by (apply skipn_all2; lia).
  rewrite Hn. destruct (2 * k); reflexivity.
Qed.

Lemma half_flip_even x k :
  length x = 2 * k -> 0 < k ->
  half_flip x = Some (rev (firstn k x) ++ rev (skipn k x)).
Proof.
  intros Hlen Hk. unfold half_flip.
  rewrite (split_even x k Hlen Hk).
  unfold Torch.cat, Torch.flip. simpl. now rewrite app_nil_r.
Qed.

(** An odd dimension never splits in exactly two chunks. *)
Lemma half_flip_odd x k : length x = 2 * k + 1 -> half_flip x = None.
Proof.
  intros Hlen. unfold half_flip.
  assert (Hdiv : length x / 2 = k).
  { rewrite Hlen. symmetry. apply (Nat.div_unique (2 * k + 1) 2 k 1); lia. }
  rewrite Hdiv.
  destruct x as [|a x]; [simpl in Hlen; lia|].
  destruct k as [|k]; [reflexivity|].
  unfold Torch.split.
  remember (a :: x) as l eqn:El.
  destruct l as [|b l]; [discriminate|].
  remember (b :: l) as l0.
  rewrite Hlen.
  replace (2 * S k + 1) with (S (S (S (2 * k)))) by lia.
  cbn [Torch.chunks].
  rewrite Heql0 at 1.
  assert (Hs : length (skipn (S k) l0) = S k + 1) by (rewrite length_skipn; lia).
  destruct (skipn (S k) l0) as [|c r] eqn:Er; [simpl in Hs; lia|].
  assert (Hs2 : length (skipn (S k) (c :: r)) = 1) by (rewrite length_skipn; lia).
  destruct (skipn (S k) (c :: r)) as [|d r'] eqn:Er'; [simpl in Hs2; lia|].
  reflexivity.
Qed.

Lemma half_flip_nil : half_flip (@nil A) = None.
Proof. reflexivity. Qed.

Lemma half_flip_length x y : half_flip x = Some y -> length y = length x.
Proof.
  intros H.
  destruct (Nat.Even_or_Odd (length x)) as [[k Hk]|[k Hk]].
  - destruct k as [|k].
    + destruct x; [rewrite half_flip_nil in H; discriminate | simpl in Hk; lia].
    + rewrite (half_flip_even x (S k)) in H by lia.
      assert (Ey : y = rev (firstn (S k) x) ++ rev (skipn (S k) x)) by congruence.
      subst y.
      rewrite length_app, !length_rev, length_firstn, length_skipn. lia.
  - rewrite (@half_flip_odd x k Hk) in H. discriminate.
Qed.

Lemma half_flip_involutive x y : half_flip x = Some y -> half_flip y = Some x.
Proof.
  intros H.
  destruct (Nat.Even_or_Odd (length x)) as [[k Hk]|[k Hk]].
  - destruct k as [|k].
    + destruct x; [rewrite half_flip_nil in H; discriminate | simpl in Hk; lia].
    + pose proof (half_flip_length x y H) as Hy.
      rewrite (half_flip_even x (S k)) in H by lia.
      assert (Ey : y = rev (firstn (S k) x) ++ rev (skipn (S k) x)) by congruence.
      clear H. subst y.
      rewrite (half_flip_even _ (S k)) by lia.
      assert (Ex : x = firstn (S k) x ++ skipn (S k) x) by (symmetry; apply firstn_skipn).
      assert (Ha : length (firstn (S k) x) = S k) by (rewrite length_firstn; lia).
      assert (Hb : length (skipn (S k) x) = S k) by (rewrite length_skipn; lia).
      set (a := firstn (S k) x) in *. set (b := skipn (S k) x) in *.
      rewrite firstn_app, skipn_app, length_rev, Ha, Nat.sub_diag.
      rewrite (@firstn_all2 _ (S k) (rev a)) by (rewrite length_rev; lia).
      rewrite (@skipn_all2 _ (S k) (rev a)) by (rewrite length_rev; lia).
      change (firstn 0 (rev b)) with (@nil A). change (skipn 0 (rev b)) with (rev b).
      rewrite app_nil_r. cbn [app].
      rewrite !rev_involutive. congruence.
  - rewrite (@half_flip_odd x k Hk) in H. discriminate.
Qed.

End FlipFacts.

(** C7 (as stated, refuted).  [half_flip(half_flip(x)) == x] does not hold
    for every signal: on a signal of height 3 the split yields three
    chunks, the unpacking raises, and there is no result to compare. *)
Lemma C7_half_flip_not_total :
  ~ (forall x : list nat, bind (half_flip x) half_flip = Some x).
Proof.
  intros H. specialize (H [1; 2; 3]). discriminate H.
Qed.

(** C7 (amended).  [full_flip] is an involution on every signal, and
    [half_flip] is an involution on every signal on which it is defined,
    which includes every signal of even, non-zero height; both are exact
    (permutations of the slices). *)
Theorem C7_flips_involutive (A : Type) (x : list A) :
  full_flip (full_flip x) = x
  /\ (forall y, half_flip x = Some y -> half_flip y = Some x)
  /\ (Nat.Even (length x) -> 0 < length x -> bind (half_flip x) half_flip = Some x).
Proof.
  split; [apply rev_involutive|].
  split; [apply half_flip_involutive|].
  intros [k Hk] Hpos.
  assert (Hk0 : 0 < k) by lia.
  pose proof (half_flip_even x k Hk Hk0) as E.
  rewrite E. simpl. apply half_flip_involutive. exact E.
Qed.

Lemma C7_flips_involutive_witness :
  bind (half_flip [1; 2; 3; 4]) half_flip = Some [1; 2; 3; 4].
Proof.
  apply (C7_flips_involutive nat [1; 2; 3; 4]); [exists 2; reflexivity | simpl; lia].
Defined.

(** C10 (as stated, refuted).  Not every tensor of even height is
    accepted: for height 0 the split size is 0, the split yields a single
    empty chunk and the unpacking into two tensors raises. *)
Lemma C10_even_height_zero_fails :
  ~ (forall x : list nat, Nat.Even (length x) ->
       exists y, half_flip x = Some y /\ length y = length x).
Proof.
  intros H. destruct (H []) as [y [Hy _]]; [exists 0; reflexivity | discriminate Hy].
Qed.

(** C10 (amended).  For every tensor of even, non-zero height [half_flip]
    returns a tensor of the same height made of the two independently
    reversed halves; for every tensor of odd height it fails. *)
Theorem C10_half_flip_domain (A : Type) (x : list A) :
  (Nat.Even (length x) -> 0 < length x ->
     half_flip x = Some (rev (firstn (length x / 2) x) ++ rev (skipn (length x / 2) x))
     /\ length (rev (firstn (length x / 2) x) ++ rev (skipn (length x / 2) x)) = length x)
  /\ (Nat.Odd (length x) -> half_flip x = None).
Proof.
  split.
  - intros [k Hk] Hpos.
    assert (Hk0 : 0 < k) by lia.
    assert (Hdiv : length x / 2 = k).
    { rewrite Hk, Nat.mul_comm. apply Nat.div_mul. discriminate. }
    rewrite Hdiv. pose proof (half_flip_even x k Hk Hk0) as E.
    split; [exact E|]. apply (half_flip_length x _ E).
  - intros [k Hk]. apply (@half_flip_odd _ x k Hk).
Qed.

Lemma C10_half_flip_domain_witness :
  half_flip [1; 2; 3; 4; 5; 6] = Some [3; 2; 1; 6; 5; 4]
  /\ half_flip [1; 2; 3] = None.
Proof.
  split.
  - apply (C10_half_flip_domain nat [1; 2; 3; 4; 5; 6]); [exists 3; reflexivity | simpl; lia].
  - apply (C10_half_flip_domain nat [1; 2; 3]). exists 1. reflexivity.
Defined.

(** ** The permutation chosen for each flow *)

Lemma combine_seq_nth_error {A : Type} (l : list A) (s j : nat) (a : A) :
  nth_error l j = Some a -> nth_error (combine (seq s (length l)) l) j = Some (s + j, a).
Proof.
  revert s j; induction l as [|b l IH]; intros s [|j] H; simpl in *; try discriminate.
  - injection H as ->. now rewrite Nat.add_0_r.
  - rewrite (IH (S s) j H). f_equal. f_equal. lia.
Qed.

Lemma enumerate_nth_error {A : Type} (l : list A) (j : nat) (a : A) :
  nth_error l j = Some a -> nth_error (enumerate l) j = Some (j, a).
Proof.
  intros H. unfold enumerate. now rewrite (combine_seq_nth_error l 0 j a H).
Qed.

(** In [enumerate(self.flows[::-1])] the flow of index [j] has index
    [n - 1 - j]. *)
Lemma enumerate_rev_nth_error {A : Type} (l : list A) (j : nat) (a : A) :
  nth_error l j = Some a ->
  nth_error (enumerate (rev l)) (length l - 1 - j) = Some (length l - 1 - j, a).
Proof.
  intros H. apply enumerate_nth_error.
  assert (Hj : j < length l) by (apply nth_error_Some; congruence).
  rewrite nth_error_rev, <- H.
  assert (E : (length l - 1 - j <? length l) = true) by (apply Nat.ltb_lt; lia).
  rewrite E. f_equal. lia.
Qed.

(** The two selections ([i < 4] in forward order, [i > 4] in reverse
    order) pick the same kind of flip for every flow only when there are
    exactly nine flows. *)
Lemma flip_selection_agrees_iff (n : nat) :
  (forall j, j < n -> (j <? 4) = (4 <? n - 1 - j)) <-> n = 0 \/ n = 9.
Proof.
  split.
  - intros H. destruct (Nat.eq_dec n 0) as [|Hn]; [now left|right].
    assert (H0 := H 0 ltac:(lia)). assert (Hl := H (n - 1) ltac:(lia)).
    simpl in H0. symmetry in H0. apply Nat.ltb_lt in H0.
    replace (n - 1 - (n - 1)) with 0 in Hl by lia. simpl in Hl.
    apply Nat.ltb_ge in Hl.
    assert (H3 := H 3 ltac:(lia)). simpl in H3. symmetry in H3. apply Nat.ltb_lt in H3.
    assert (H4 := H 4 ltac:(lia)). simpl in H4. symmetry in H4. apply Nat.ltb_ge in H4.
    lia.
  - intros [->| ->] j Hj; [lia|].
    destruct (j <? 4) eqn:E.
    + apply Nat.ltb_lt in E. symmetry. apply Nat.ltb_lt. lia.
    + apply Nat.ltb_ge in E. symmetry. apply Nat.ltb_ge. lia.
Qed.

(** C3 (the code at the failing input).  With eight flows, the flow of
    index 3 is followed by a full flip in [forward], and it is enumerated
    with index 4 in the reversed list, where [synthesize] and
    [synthesize_fast] select a half flip: the permutation applied before
    inverting flow 3 does not undo the one applied after it. *)
Theorem C3_flip_mismatch_at_flow_3 :
  nth_error (enumerate [0; 1; 2; 3; 4; 5; 6; 7]) 3 = Some (3, 3)
  /\ nth_error (enumerate (rev [0; 1; 2; 3; 4; 5; 6; 7])) 4 = Some (4, 3)
  /\ forward_flip 3 [1; 2; 3; 4] = Some [4; 3; 2; 1]
  /\ synthesize_flip 4 [4; 3; 2; 1] = Some [3; 4; 1; 2]
  /\ bind (forward_flip 3 [1; 2; 3; 4]) (synthesize_flip 4) <> Some [1; 2; 3; 4].
Proof.
  repeat split; try reflexivity. discriminate.
Qed.

(** ** The reshape *)

Section ReshapeFacts.
Context {A : Type}.
Implicit Types x : list A.

(** The rows of the reshape: row [i] is the [i]-th block of [n] samples. *)
Lemma chunks_exact (f n : nat) x :
  0 < n -> length x = f * n ->
  Torch.chunks f n x = map (fun i => firstn n (skipn (i * n) x)) (seq 0 f).
Proof.
  intros Hn. revert x. induction f as [|f IH]; intros x Hlen; [reflexivity|].
  destruct x as [|a x]; [simpl in Hlen; lia|].
  cbn [Torch.chunks]. remember (a :: x) as l.
  cbn [seq map]. f_equal.
  rewrite <- seq_shift, map_map, IH by (rewrite length_skipn; lia).
  apply map_ext. intros i. rewrite skipn_skipn. do 2 f_equal. lia.
Qed.

(** Column [j] of these rows takes every [n]-th sample from sample [j]. *)
Lemma column_chunks (f n j : nat) x (d : A) :
  j < n -> length x = f * n ->
  column j (map (fun i => firstn n (skipn (i * n) x)) (seq 0 f))
  = map (fun i => nth (i * n + j) x d) (seq 0 f).
Proof.
  intros Hj Hlen. unfold column. rewrite flat_map_concat_map, map_map.
  assert (H : forall i, In i (seq 0 f) ->
            match nth_error (firstn n (skipn (i * n) x)) j with
            | Some a => [a]
            | None => []
            end = [nth (i * n + j) x d]).
  { intros i Hi. apply in_seq in Hi.
    rewrite nth_error_firstn, nth_error_skipn.
    assert (E : (j <? n) = true) by (apply Nat.ltb_lt; lia). rewrite E.
    rewrite (nth_error_nth' x d); [reflexivity|]. nia. }
  induction (seq 0 f) as [|i l IH]; [reflexivity|].
  simpl. rewrite H by (left; reflexivity). simpl. f_equal.
  apply IH. intros i' Hi'. apply H. now right.
Qed.

Lemma squeeze_exact (hp : HParams) x (d : A) :
  0 < h hp -> 0 < length x -> length x mod h hp = 0 ->
  squeeze hp x
  = Some (map (fun r => map (fun w => nth (w * h hp + r) x d) (seq 0 (length x / h hp)))
              (seq 0 (h hp))).
Proof.
  intros Hh Hx Hmod.
  assert (HL : length x = h hp * (length x / h hp)) by (apply Nat.Div0.div_exact; exact Hmod).
  set (q := length x / h hp) in *.
  assert (Hq : 0 < q) by nia.
  unfold squeeze, reshape_rows. fold q.
  assert (E1 : (h hp =? 0) = false) by (apply Nat.eqb_neq; lia).
  assert (E2 : (q =? 0) = false) by (apply Nat.eqb_neq; lia).
  assert (E3 : length x / q = h hp).
  { rewrite HL at 1. apply Nat.div_mul. lia. }
  assert (E4 : (length x mod q =? 0) = true).
  { apply Nat.eqb_eq. rewrite HL at 1. apply Nat.Div0.mod_mul. }
  rewrite E1, E2, E4, E3. simpl. f_equal.
  rewrite (@chunks_exact q (h hp) x) by lia.
  unfold transpose. apply map_ext_in. intros r Hr. apply in_seq in Hr.
  apply column_chunks; lia.
Qed.

End ReshapeFacts.

(** C5 (as stated, refuted).  A signal of length 6 with squeeze factor 2
    is not reshaped into a grid with 3 rows along dimension 2 and 2
    columns: after the transposition dimension 2 has extent 2 and
    dimension 3 has extent 3. *)
Lemma C5_grid_is_not_L_over_h_rows :
  ~ (forall (hp : HParams) (x : list nat) (g : list (list nat)),
       squeeze hp x = Some g ->
       length g = length x / h hp /\ Forall (fun row => length row = h hp) g).
Proof.
  intros H.
  destruct (H {| kernel_size := 3; cycle_size := 10; n_layer := 20; n_flow := 8;
                 h := 2; hidden_size := 1; out_size := 2 |}
              [0; 1; 2; 3; 4; 5] [[0; 2; 4]; [1; 3; 5]] eq_refl) as [Hlen _].
  discriminate Hlen.
Qed.

(** C5 (amended).  When [forward] is called with [squeezed=False] on a
    signal of length [L > 0] that the squeeze factor [h] divides, the
    signal and the conditioning are reshaped into a grid whose extent
    along dimension 2 (the axis of the flips and of the autoregression) is
    [h] and whose extent along dimension 3 is [L/h], element [(r, w)] being
    sample [w*h + r]; [synthesize] reshapes the conditioning the same
    way. *)
Theorem C5_squeeze_shape (A : Type) (hp : HParams) (x : list A) :
  0 < h hp -> 0 < length x -> length x mod h hp = 0 ->
  exists g, squeeze hp x = Some g
    /\ length g = h hp
    /\ Forall (fun row => length row = length x / h hp) g
    /\ (forall r w, r < h hp -> w < length x / h hp ->
          bind (nth_error g r) (fun row => nth_error row w) = nth_error x (w * h hp + r)).
Proof.
  intros Hh Hx Hmod.
  destruct x as [|d x']; [simpl in Hx; lia|].
  remember (d :: x') as x eqn:Ex.
  assert (HL : length x = h hp * (length x / h hp)) by (apply Nat.Div0.div_exact; exact Hmod).
  eexists. split; [apply (squeeze_exact hp x d Hh Hx Hmod)|].
  split; [now rewrite length_map, length_seq|].
  split.
  - apply Forall_forall. intros row Hrow. apply in_map_iff in Hrow.
    destruct Hrow as [r [<- _]]. now rewrite length_map, length_seq.
  - intros r w Hr Hw.
    rewrite nth_error_map, nth_error_seq.
    assert (E : (r <? h hp) = true) by (apply Nat.ltb_lt; lia). rewrite E. simpl.
    rewrite nth_error_map, nth_error_seq.
    assert (E' : (w <? length x / h hp) = true) by (apply Nat.ltb_lt; lia). rewrite E'. simpl.
    symmetry. apply nth_error_nth'. nia.
Qed.

Lemma C5_squeeze_shape_witness :
  exists g, squeeze {| kernel_size := 3; cycle_size := 10; n_layer := 20; n_flow := 8;
                       h := 2; hidden_size := 1; out_size := 2 |} [0; 1; 2; 3; 4; 5] = Some g
    /\ length g = 2
    /\ Forall (fun row => length row = 3) g
    /\ (forall r w, r < 2 -> w < 3 ->
          bind (nth_error g r) (fun row => nth_error row w)
          = nth_error [0; 1; 2; 3; 4; 5] (w * 2 + r)).
Proof.
  apply (@C5_squeeze_shape nat
           {| kernel_size := 3; cycle_size := 10; n_layer := 20; n_flow := 8;
              h := 2; hidden_size := 1; out_size := 2 |} [0; 1; 2; 3; 4; 5]);
    simpl; lia.
Defined.

(** ** The receptive field *)

Lemma fold_left_add_pow2 (c n : nat) :
  fold_left Z.add (map (fun i => (2 ^ Z.of_nat (i mod c))%Z) (seq 0 n)) 0%Z = pow2_sum c n.
Proof.
  induction n as [|n IH]; [reflexivity|].
  rewrite seq_S, map_app, fold_left_app, IH. reflexivity.
Qed.

Lemma dilation_sum_defined (hp : HParams) :
  cycle_size hp <> 0 -> dilation_sum hp = Some (pow2_sum (cycle_size hp) (n_layer hp)).
Proof.
  intros Hc. unfold dilation_sum.
  assert (E : (cycle_size hp =? 0) = false) by (now apply Nat.eqb_neq).
  rewrite E. simpl. f_equal. apply fold_left_add_pow2.
Qed.

(** C8.  For a non-zero cycle size the model is built with receptive
    field [(kernel_size-1) * sum(2^(i mod cycle_size) for i in
    range(n_layer)) + 1], computed with unbounded integers; the block of
    layer [i] of every flow has dilation [2^(i mod cycle_size)] as long as
    [cycle_size <= 63], so that every exponent is at most 62 and the power
    fits in the 64-bit integers in which the dilations are computed; and
    for [kernel_size=3], [cycle_size=10], [n_layer=20] the receptive field
    is 4093. *)
Theorem C8_receptive_field (hp : HParams) (w : nat -> StackWeights) :
  cycle_size hp <> 0 ->
  exists m, WaveFlow_init hp w = Some m
    /\ receptive_field m
       = ((Z.of_nat (kernel_size hp) - 1) * pow2_sum (cycle_size hp) (n_layer hp) + 1)%Z
    /\ (cycle_size hp <= 63 ->
        forall f, In f (flows m) ->
          map dilation (stack f)
          = map (fun i => 2 ^ (i mod cycle_size hp)) (seq 0 (n_layer hp)))
    /\ (kernel_size hp = 3 -> cycle_size hp = 10 -> n_layer hp = 20 ->
          receptive_field m = 4093%Z).
Proof.
  intros Hc. unfold WaveFlow_init. rewrite (dilation_sum_defined hp Hc). simpl.
  eexists. split; [reflexivity|]. simpl. split; [reflexivity|]. split.
  - intros _ f Hf. apply in_map_iff in Hf. destruct Hf as [i [<- _]].
    simpl. rewrite map_map. apply map_ext. intros j. simpl.
    unfold np_mod. assert (E : (cycle_size hp =? 0) = false) by (now apply Nat.eqb_neq).
    now rewrite E.
  - intros -> -> ->. reflexivity.
Qed.

Lemma C8_receptive_field_witness :
  exists m,
    WaveFlow_init {| kernel_size := 3; cycle_size := 10; n_layer := 20; n_flow := 8;
                     h := 8; hidden_size := 1; out_size := 2 |}
                  (fun _ => {| first_w := fun _ => szero;
                               block_w := fun _ => {| initial_w := fun _ => szero;
                                                      cdt_w := fun _ => szero;
                                                      res_w := fun _ => szero;
                                                      skip_w := fun _ => szero |};
                               last1_w := fun _ => szero;
                               last3_w := fun _ => szero |}) = Some m
    /\ receptive_field m = 4093%Z.
Proof.
  destruct (@C8_receptive_field
              {| kernel_size := 3; cycle_size := 10; n_layer := 20; n_flow := 8;
                 h := 8; hidden_size := 1; out_size := 2 |}
              (fun _ => {| first_w := fun _ => szero;
                           block_w := fun _ => {| initial_w := fun _ => szero;
                                                  cdt_w := fun _ => szero;
                                                  res_w := fun _ => szero;
                                                  skip_w := fun _ => szero |};
                           last1_w := fun _ => szero;
                           last3_w := fun _ => szero |}))
    as [m [Hm [_ [_ H]]]]; [simpl; discriminate|].
  exists m. split; [exact Hm | apply H; reflexivity].
Defined.

(** ** The clamp of the forward pass *)

Lemma clamp_max_le (v : R) : (clamp_max v <= 10)%R.
Proof. unfold clamp_max. apply Rmin_r. Qed.

Lemma exp_le (u v : R) : (u <= v)%R -> (exp u <= exp v)%R.
Proof.
  intros [Hlt | ->]; [left; now apply exp_increasing | right; reflexivity].
Qed.

Lemma clamped_bounded (t : tensor) :
  Forall (fun sl : slice => forall b ch w,
            (sl b ch w <= 10)%R /\ (exp (sl b ch w) <= exp 10)%R)
         (tmap (smap clamp_max) t).
Proof.
  apply Forall_forall. intros sl Hsl. apply in_map_iff in Hsl.
  destruct Hsl as [s [<- _]]. intros b ch w. unfold smap.
  split; [apply clamp_max_le | apply exp_le, clamp_max_le].
Qed.

(** C9.  In every composition step of the forward pass, the log-variance
    that enters the running pair and the update of the signal is the
    clamped one: each of its entries is at most 10, so each exponentiated
    scale is at most [exp 10]. *)
Theorem C9_logvar_clamped (hp : HParams) (s s' : ForwardState) (flow : ResidualStack) :
  forward_affine hp s flow = Some s' ->
  exists out mean raw_logvar,
    ResidualStack_forward hp flow (fs_x s) (fs_c s) = Some out
    /\ split_mean_logvar hp out = Some (mean, raw_logvar)
    /\ Forall (fun sl : slice => forall b ch w,
                 (sl b ch w <= 10)%R /\ (exp (sl b ch w) <= exp 10)%R)
              (tmap (smap clamp_max) raw_logvar)
    /\ affine (tmap (smap clamp_max) raw_logvar) (fs_x s) mean = Some (fs_x s')
    /\ match global_mean s, global_logvar s with
       | Some gm, Some glv =>
           bind (tmul gm (tmap sexp (tmap (smap clamp_max) raw_logvar)))
                (fun t => tadd t mean) = global_mean s'
           /\ tadd glv (tmap (smap clamp_max) raw_logvar) = global_logvar s'
       | _, _ =>
           global_mean s' = Some mean
           /\ global_logvar s' = Some (tmap (smap clamp_max) raw_logvar)
       end.
Proof.
  unfold forward_affine. intros H.
  apply bind_Some in H. destruct H as [out [Hout H]].
  apply bind_Some in H. destruct H as [[mean lv] [Hsplit H]].
  apply bind_Some in H. destruct H as [[gm' glv'] [Hg H]].
  apply bind_Some in H. destruct H as [x' [Hx H]].
  injection H as <-. simpl.
  exists out, mean, lv. repeat split; auto using clamped_bounded.
  destruct (global_mean s) as [gm|], (global_logvar s) as [glv|];
    try (injection Hg as <- <-; split; reflexivity).
  apply bind_Some in Hg. destruct Hg as [g1 [Hg1 Hg]].
  apply bind_Some in Hg. destruct Hg as [g2 [Hg2 Hg]].
  injection Hg as <- <-. split; congruence.
Qed.

Lemma C9_logvar_clamped_witness :
  exists s',
    forward_affine small_hp
      {| fs_x := [sconst 1; sconst 2]; fs_c := [szero; szero];
         global_mean := None; global_logvar := None |}
      (ResidualStack_init small_hp zero_weights) = Some s'
    /\ exists out mean raw_logvar,
         ResidualStack_forward small_hp (ResidualStack_init small_hp zero_weights)
           [sconst 1; sconst 2] [szero; szero] = Some out
         /\ split_mean_logvar small_hp out = Some (mean, raw_logvar)
         /\ Forall (fun sl : slice => forall b ch w,
                      (sl b ch w <= 10)%R /\ (exp (sl b ch w) <= exp 10)%R)
                   (tmap (smap clamp_max) raw_logvar)
         /\ affine (tmap (smap clamp_max) raw_logvar) [sconst 1; sconst 2] mean
            = Some (fs_x s')
         /\ (global_mean s' = Some mean
             /\ global_logvar s' = Some (tmap (smap clamp_max) raw_logvar)).
Proof.
  eexists. split; [reflexivity|].
  apply (@C9_logvar_clamped small_hp
           {| fs_x := [sconst 1; sconst 2]; fs_c := [szero; szero];
              global_mean := None; global_logvar := None |}).
  reflexivity.
Defined.

(** ** Causal windows *)

Section Windows.
Context {A : Type}.
Implicit Types l r : list A.

Lemma lastn_length (n : nat) l : n <= length l -> length (lastn n l) = n.
Proof. intros H. unfold lastn. rewrite length_skipn. lia. Qed.

Lemma lastn_snoc (n : nat) l (v : A) :
  n <= length l -> lastn (S n) (l ++ [v]) = lastn n l ++ [v].
Proof.
  intros H. unfold lastn. rewrite length_app. simpl length.
  replace (length l + 1 - S n) with (length l - n) by lia.
  rewrite skipn_app.
  replace (length l - n - length l) with 0 by lia. reflexivity.
Qed.

Lemma tl_skipn (k : nat) l : tl (skipn k l) = skipn (S k) l.
Proof.
  revert l. induction k as [|k IH]; intros l.
  - destruct l; reflexivity.
  - destruct l as [|a l]; [reflexivity|]. exact (IH l).
Qed.

Lemma lastn_S_tl (n : nat) l : S n <= length l -> tl (lastn (S n) l) = lastn n l.
Proof.
  intros H. unfold lastn. rewrite tl_skipn. f_equal. lia.
Qed.

(** The window that starts at row [i] of the zero-padded input holds the
    [n] rows strictly before row [i]. *)
Lemma window_strict (z : A) (n i : nat) l r :
  i <= length l ->
  firstn n (skipn i (repeat z n ++ l ++ r)) = lastn n (repeat z n ++ firstn i l).
Proof.
  intros Hi.
  rewrite <- (firstn_skipn i l) at 1.
  rewrite <- app_assoc, app_assoc.
  set (L := repeat z n ++ firstn i l).
  assert (HL : length L = n + i).
  { unfold L. rewrite length_app, repeat_length, length_firstn. lia. }
  rewrite skipn_app, HL.
  replace (i - (n + i)) with 0 by lia. simpl skipn at 2.
  rewrite firstn_app, length_skipn, HL.
  replace (n - (n + i - i)) with 0 by lia. simpl firstn at 2. rewrite app_nil_r.
  unfold lastn. rewrite HL. replace (n + i - n) with i by lia.
  apply firstn_all2. rewrite length_skipn. lia.
Qed.

End Windows.

Lemma hist_length (n : nat) (xs : tensor) : length (hist n xs) = n.
Proof.
  unfold hist. apply lastn_length. rewrite length_app, repeat_length. lia.
Qed.

Lemma hist_nil (n : nat) : hist n [] = repeat szero n.
Proof.
  unfold hist, lastn. rewrite app_nil_r, repeat_length, Nat.sub_diag. reflexivity.
Qed.

Lemma hist_snoc (n : nat) (xs : tensor) (v : slice) :
  0 < n -> hist n (xs ++ [v]) = tl (hist n xs) ++ [v].
Proof.
  intros Hn. destruct n as [|n]; [lia|]. unfold hist.
  rewrite app_assoc, lastn_snoc by (rewrite length_app, repeat_length; lia).
  rewrite lastn_S_tl by (rewrite length_app, repeat_length; lia). reflexivity.
Qed.

Lemma hist_snoc_last (n : nat) (xs : tensor) (v : slice) :
  0 < n -> last (hist n (xs ++ [v])) szero = v.
Proof. intros Hn. rewrite hist_snoc by exact Hn. apply last_last. Qed.

(** ** The convolutions, row by row *)

Lemma firstn_seq_le (n m s : nat) : n <= m -> firstn n (seq s m) = seq s n.
Proof.
  intros H. replace m with (n + (m - n)) by lia.
  rewrite seq_app, firstn_app, length_seq, Nat.sub_diag. simpl firstn at 2.
  rewrite app_nil_r. apply firstn_all2. rewrite length_seq. lia.
Qed.

Lemma windows_one {A : Type} (x : list A) :
  map (fun i => firstn 1 (skipn i x)) (seq 0 (length x)) = map (fun a => [a]) x.
Proof.
  induction x as [|a x IH]; [reflexivity|].
  simpl length. cbn [seq map]. f_equal.
  rewrite <- seq_shift, map_map. exact IH.
Qed.

Lemma conv_1x1 (cv : Conv2d) (x : tensor) :
  extent cv = 1 -> padding cv = 0 -> x <> [] ->
  conv cv x = Some (map (fun s => weight cv [s]) x).
Proof.
  intros He Hp Hx. unfold conv. rewrite He, Hp. simpl. rewrite app_nil_r.
  destruct x as [|a x]; [congruence|].
  remember (a :: x) as l. 
  assert (E : (length l <? 1) = false) by (apply Nat.ltb_ge; subst; simpl; lia).
  rewrite E. f_equal. unfold Torch.windows.
  replace (length l + 1 - 1) with (length l) by lia.
  rewrite windows_one, map_map. reflexivity.
Qed.

Lemma conv_causal (cv : Conv2d) (p : nat) (x : tensor) :
  padding cv = p -> extent cv = p + 1 -> 0 < p ->
  option_map (Torch.drop_last p) (conv cv x)
  = Some (map (fun s => weight cv (hist (p + 1) (firstn (s + 1) x))) (seq 0 (length x))).
Proof.
  intros Hp He Hpos. unfold conv. rewrite Hp, He.
  assert (E : (length (repeat szero p ++ x ++ repeat szero p) <? p + 1) = false).
  { apply Nat.ltb_ge. rewrite !length_app, !repeat_length. lia. }
  rewrite E. simpl option_map. f_equal.
  unfold Torch.drop_last. destruct p as [|p]; [lia|].
  rewrite length_map. unfold Torch.windows.
  rewrite length_map, length_seq, !length_app, !repeat_length.
  replace (S p + (length x + S p) + 1 - (S p + 1) - S p) with (length x) by lia.
  rewrite map_map, firstn_map, firstn_seq_le by lia.
  apply map_ext_in. intros s Hs. apply in_seq in Hs. f_equal.
  unfold hist. replace (S p + 1) with (S (S p)) by lia.
  rewrite <- (@window_strict _ szero (S (S p)) (s + 1) x (repeat szero (S p))) by lia.
  replace (s + 1) with (S s) by lia. reflexivity.
Qed.

Lemma conv_first (cv : Conv2d) (x : tensor) :
  padding cv = 2 -> extent cv = 2 ->
  option_map (Torch.drop_last 3) (conv cv x)
  = Some (map (fun s => weight cv (hist 2 (firstn s x))) (seq 0 (length x))).
Proof.
  intros Hp He. unfold conv. rewrite Hp, He.
  assert (E : (length (repeat szero 2 ++ x ++ repeat szero 2) <? 2) = false).
  { apply Nat.ltb_ge. rewrite !length_app, !repeat_length. lia. }
  rewrite E. simpl option_map. f_equal.
  unfold Torch.drop_last. rewrite length_map. unfold Torch.windows.
  change (szero :: szero :: x ++ [szero; szero])
    with (repeat szero 2 ++ x ++ repeat szero 2).
  rewrite length_map, length_seq, !length_app, !repeat_length.
  replace (2 + (length x + 2) + 1 - 2 - 3) with (length x) by lia.
  rewrite map_map, firstn_map, firstn_seq_le by lia.
  apply map_ext_in. intros s Hs. apply in_seq in Hs. f_equal.
  unfold hist. apply window_strict. lia.
Qed.

Lemma conv_window (cv : Conv2d) (v : tensor) :
  padding cv = 0 -> length v = extent cv ->
  conv cv v = Some [weight cv v].
Proof.
  intros Hp He. unfold conv. rewrite Hp. simpl. rewrite app_nil_r, <- He, Nat.ltb_irrefl.
  unfold Torch.windows. replace (length v + 1 - length v) with 1 by lia.
  simpl. now rewrite firstn_all.
Qed.

(** ** Lists as maps over their indices *)

Lemma map_nth_seq {A : Type} (d : A) (l : list A) :
  l = map (fun s => nth s l d) (seq 0 (length l)).
Proof.
  induction l as [|a l IH]; [reflexivity|].
  simpl length. cbn [seq map]. f_equal.
  rewrite <- seq_shift, map_map. exact IH.
Qed.

Lemma firstn_succ_nth {A : Type} (d : A) (l : list A) (s : nat) :
  s < length l -> firstn (s + 1) l = firstn s l ++ [nth s l d].
Proof.
  revert s. induction l as [|a l IH]; intros s Hs; [simpl in Hs; lia|].
  destruct s as [|s]; [reflexivity|].
  simpl in Hs. simpl. f_equal. apply IH. lia.
Qed.

Lemma combine_map_same {X A B : Type} (f : X -> A) (g : X -> B) (l : list X) :
  combine (map f l) (map g l) = map (fun i => (f i, g i)) l.
Proof. induction l as [|a l IH]; [reflexivity|]. simpl. now rewrite IH. Qed.

Lemma broadcast_maps {X : Type} (f : slice -> slice -> slice) (ga gb : X -> slice)
  (l : list X) :
  broadcast f (map ga l) (map gb l) = Some (map (fun i => f (ga i) (gb i)) l).
Proof.
  unfold broadcast. rewrite !length_map, Nat.eqb_refl, combine_map_same, map_map.
  reflexivity.
Qed.

Lemma conv_1x1_map {X : Type} (cv : Conv2d) (g : X -> slice) (l : list X) :
  extent cv = 1 -> padding cv = 0 -> l <> [] ->
  conv cv (map g l) = Some (map (fun i => weight cv [g i]) l).
Proof.
  intros He Hp Hl. rewrite conv_1x1, map_map; auto.
  destruct l; [congruence | discriminate].
Qed.

Lemma seq_nonempty (n : nat) : n <> 0 -> seq 0 n <> [].
Proof. destruct n; [congruence | discriminate]. Qed.

(** ** The parallel mode of a block *)

Lemma block_forward_parallel (hp : HParams) (blk : ResidualBlock) (res c : tensor) :
  training_block hp blk -> hidden_size hp <> 0 ->
  length c = length res -> res <> [] ->
  ResidualBlock_forward hp blk res c false
  = Some (blk, map fst (block_rows hp blk res c), map snd (block_rows hp blk res c)).
Proof.
  intros (Hpad & Hext & _ & Hpos & [Hc1 Hc2] & [Hr1 Hr2] & [Hs1 Hs2]) Hh Hlen Hres.
  assert (Hn : length res <> 0) by (destruct res; [congruence | discriminate]).
  pose proof (seq_nonempty _ Hn) as Hseq.
  unfold ResidualBlock_forward. cbv beta iota zeta.
  rewrite (conv_causal (initial_conv blk) _ res Hpad Hext Hpos). cbn [bind].
  rewrite (map_nth_seq szero c) at 1. rewrite Hlen.
  rewrite (conv_1x1_map _ _ _ Hc1 Hc2 Hseq). cbn [bind].
  unfold split_channels.
  assert (E : (hidden_size hp =? 0) = false) by (now apply Nat.eqb_neq).
  rewrite E. cbn [bind]. unfold tmap, tadd, tmul. rewrite !map_map.
  rewrite !broadcast_maps. cbn [bind]. rewrite !map_map.
  rewrite broadcast_maps. cbn [bind].
  rewrite (conv_1x1_map _ _ _ Hr1 Hr2 Hseq). cbn [bind].
  rewrite (map_nth_seq szero res) at 2.
  rewrite broadcast_maps. cbn [bind].
  rewrite (conv_1x1_map _ _ _ Hs1 Hs2 Hseq). cbn [bind].
  unfold block_rows. rewrite !map_map. rewrite Hext.
  f_equal. f_equal. f_equal.
  apply map_ext_in. intros s Hs. apply in_seq in Hs.
  unfold block_row. cbn [fst]. f_equal.
  rewrite (firstn_succ_nth szero) by lia.
  rewrite hist_snoc_last by lia. reflexivity.
Qed.

(** ** The parallel mode of a stack *)

Lemma block_rows_length (hp : HParams) (blk : ResidualBlock) (res c : tensor) :
  length (block_rows hp blk res c) = length res.
Proof. unfold block_rows. now rewrite length_map, length_seq. Qed.

Lemma parallel_blocks_rows (hp : HParams) (blocks : list ResidualBlock) (res c : tensor) :
  Forall (training_block hp) blocks -> hidden_size hp <> 0 ->
  length c = length res -> res <> [] ->
  parallel_blocks hp blocks res c = Some (block_skips hp blocks res c).
Proof.
  intros Hb Hh. revert res. induction Hb as [|blk blocks Hblk Hb IH]; intros res Hlen Hres;
    [reflexivity|].
  cbn [parallel_blocks block_skips].
  rewrite (@block_forward_parallel hp blk res c Hblk Hh Hlen Hres). cbn [bind].
  rewrite IH; [reflexivity | | ].
  - now rewrite length_map, block_rows_length.
  - intros E. apply (f_equal (@length _)) in E.
    rewrite length_map, block_rows_length in E.
    destruct res; [congruence | discriminate].
Qed.

Lemma block_skips_length (hp : HParams) (blocks : list ResidualBlock) (res c : tensor) :
  Forall (fun t : tensor => length t = length res) (block_skips hp blocks res c).
Proof.
  revert res. induction blocks as [|blk blocks IH]; intros res; [constructor|].
  cbn [block_skips]. constructor.
  - now rewrite length_map, block_rows_length.
  - specialize (IH (map fst (block_rows hp blk res c))).
    rewrite length_map, block_rows_length in IH. exact IH.
Qed.

Lemma foldM_tadd_rows (n : nat) (ts : list tensor) (g : nat -> slice) :
  Forall (fun t : tensor => length t = n) ts ->
  foldM tadd ts (map g (seq 0 n))
  = Some (map (fun s => fold_left sadd (rows_at s ts) (g s)) (seq 0 n)).
Proof.
  intros H. revert g. induction H as [|t ts Ht Hts IH]; intros g.
  - simpl. f_equal. 
  - cbn [foldM]. rewrite (map_nth_seq szero t) at 1. rewrite Ht.
    unfold tadd at 1. rewrite broadcast_maps. cbn [bind].
    rewrite IH. reflexivity.
Qed.

Lemma py_sum_rows (n : nat) (ts : list tensor) :
  Forall (fun t : tensor => length t = n) ts -> ts <> [] ->
  py_sum ts = Some (map (fun s => sum_row (rows_at s ts)) (seq 0 n)).
Proof.
  intros H Hne. destruct ts as [|t ts]; [congruence|].
  apply Forall_cons_iff in H. destruct H as [Ht Hts].
  unfold py_sum. rewrite (map_nth_seq szero t) at 1.
  unfold tmap. rewrite map_map, Ht.
  rewrite (foldM_tadd_rows _ _ _ Hts). reflexivity.
Qed.

Lemma block_skips_nonempty (hp : HParams) (blocks : list ResidualBlock) (res c : tensor) :
  blocks <> [] -> block_skips hp blocks res c <> [].
Proof. destruct blocks; [congruence | discriminate]. Qed.

Lemma first_rows_length (st : ResidualStack) (x : tensor) :
  length (first_rows st x) = length x.
Proof. unfold first_rows. now rewrite length_map, length_seq. Qed.

Lemma stack_forward_rows (hp : HParams) (st : ResidualStack) (x c : tensor) :
  training_stack hp st -> hidden_size hp <> 0 ->
  length c = length x -> x <> [] ->
  ResidualStack_forward hp st x c = Some (stack_rows hp st x c).
Proof.
  intros (He & Hp & Hb & Hne & [H11 H12] & [H31 H32]) Hh Hlen Hx.
  assert (Hn : length x <> 0) by (destruct x; [congruence | discriminate]).
  pose proof (seq_nonempty _ Hn) as Hseq.
  unfold ResidualStack_forward.
  pose proof (conv_first (first_conv st) x Hp He) as Hf.
  destruct (conv (first_conv st) x) as [y|]; [|discriminate].
  cbn [bind]. cbn [option_map] in Hf.
  match type of Hf with
  | _ = Some ?r => assert (Hf' : Torch.drop_last 3 y = r) by congruence
  end.
  rewrite Hf'.
  unfold tmap. rewrite map_map. fold (first_rows st x).
  rewrite parallel_blocks_rows; auto.
  - cbn [bind].
    rewrite (@py_sum_rows (length x)).
    + cbn [bind]. unfold last_convs, tmap. rewrite map_map.
      rewrite (conv_1x1_map _ _ _ H11 H12 Hseq). cbn [bind]. rewrite map_map.
      rewrite (conv_1x1_map _ _ _ H31 H32 Hseq). reflexivity.
    + pose proof (block_skips_length hp (stack st) (first_rows st x) c) as HL.
      rewrite first_rows_length in HL. exact HL.
    + now apply block_skips_nonempty.
  - now rewrite first_rows_length.
  - intros E. apply (f_equal (@length _)) in E. rewrite first_rows_length in E.
    simpl in E. congruence.
Qed.

(** ** One more row *)

Lemma first_rows_snoc (st : ResidualStack) (xs : tensor) (v : slice) :
  first_rows st (xs ++ [v])
  = first_rows st xs ++ [smap tanh (weight (first_conv st) (hist 2 xs))].
Proof.
  unfold first_rows. rewrite length_app. simpl length.
  rewrite Nat.add_1_r, seq_S, map_app. cbn [map plus]. f_equal.
  - apply map_ext_in. intros s Hs. apply in_seq in Hs.
    rewrite firstn_app. replace (s - length xs) with 0 by lia.
    simpl firstn at 2. now rewrite app_nil_r.
  - rewrite firstn_app, Nat.sub_diag, firstn_all. simpl. now rewrite app_nil_r.
Qed.

Lemma block_rows_snoc (hp : HParams) (blk : ResidualBlock) (res c : tensor) (r d : slice) :
  length c = length res ->
  block_rows hp blk (res ++ [r]) (c ++ [d])
  = block_rows hp blk res c
    ++ [block_row hp blk (hist (extent (initial_conv blk)) (res ++ [r])) d].
Proof.
  intros Hlen. unfold block_rows. rewrite length_app. simpl length.
  rewrite Nat.add_1_r, seq_S, map_app. cbn [map plus]. f_equal.
  - apply map_ext_in. intros s Hs. apply in_seq in Hs.
    rewrite firstn_app. replace (s + 1 - length res) with 0 by lia.
    simpl firstn at 2. rewrite app_nil_r.
    rewrite app_nth1 by lia. reflexivity.
  - rewrite firstn_app. replace (length res + 1 - length res) with 1 by lia.
    rewrite firstn_all2 by lia. simpl firstn.
    rewrite app_nth2 by lia. rewrite Hlen, Nat.sub_diag. reflexivity.
Qed.

Lemma block_chain_snoc (hp : HParams) (blocks : list ResidualBlock) (res c : tensor)
  (r d : slice) :
  length c = length res ->
  block_inputs hp blocks (res ++ [r]) (c ++ [d])
  = snoc_each (block_inputs hp blocks res c)
              (map fst (row_chain hp blocks (block_inputs hp blocks res c) r d))
  /\ block_skips hp blocks (res ++ [r]) (c ++ [d])
     = snoc_each (block_skips hp blocks res c)
                 (map snd (row_chain hp blocks (block_inputs hp blocks res c) r d)).
Proof.
  revert res r. induction blocks as [|blk blocks IH]; intros res r Hlen; [split; reflexivity|].
  cbn [block_inputs block_skips row_chain map snoc_each fst snd].
  rewrite (block_rows_snoc hp blk res c r d Hlen), !map_app. cbn [map].
  destruct (IH (map fst (block_rows hp blk res c))
               (fst (block_row hp blk (hist (extent (initial_conv blk)) (res ++ [r])) d)))
    as [IH1 IH2]; [now rewrite length_map, block_rows_length|].
  rewrite IH1, IH2. split; reflexivity.
Qed.

Lemma rows_at_snoc_each (n : nat) (ts : list tensor) (rows : list slice) :
  Forall (fun t : tensor => length t = n) ts -> length rows = length ts ->
  rows_at n (snoc_each ts rows) = rows.
Proof.
  intros H. revert rows. induction H as [|t ts Ht Hts IH]; intros rows Hr.
  - destruct rows; [reflexivity | discriminate].
  - destruct rows as [|r rows]; [discriminate|].
    cbn [snoc_each rows_at map]. fold (rows_at n (snoc_each ts rows)).
    rewrite IH by (simpl in Hr; lia).
    rewrite app_nth2 by lia. rewrite Ht, Nat.sub_diag. reflexivity.
Qed.

Lemma row_chain_length (hp : HParams) (blocks : list ResidualBlock) (hists : list tensor)
  (r d : slice) :
  length hists = length blocks -> length (row_chain hp blocks hists r d) = length blocks.
Proof.
  revert hists r. induction blocks as [|blk blocks IH]; intros hists r H; [reflexivity|].
  destruct hists as [|hs hists]; [discriminate|].
  cbn [row_chain length]. f_equal. apply IH. simpl in H. lia.
Qed.

Lemma block_inputs_length (hp : HParams) (blocks : list ResidualBlock) (res c : tensor) :
  length (block_inputs hp blocks res c) = length blocks.
Proof.
  revert res. induction blocks as [|blk blocks IH]; intros res; [reflexivity|].
  cbn [block_inputs length]. now rewrite IH.
Qed.

Lemma block_skips_count (hp : HParams) (blocks : list ResidualBlock) (res c : tensor) :
  length (block_skips hp blocks res c) = length blocks.
Proof.
  revert res. induction blocks as [|blk blocks IH]; intros res; [reflexivity|].
  cbn [block_skips length]. now rewrite IH.
Qed.

Lemma last_row_snoc {A : Type} (l : list A) (a : A) : Torch.last_row (l ++ [a]) = Some a.
Proof. unfold Torch.last_row. now rewrite rev_unit. Qed.

Lemma last_row_map {A B : Type} (f : A -> B) (l : list A) :
  Torch.last_row (map f l) = option_map f (Torch.last_row l).
Proof.
  unfold Torch.last_row. rewrite <- map_rev. destruct (rev l); reflexivity.
Qed.

(** The last row of the parallel output on a prefix extended by one row. *)
Lemma stack_rows_last (hp : HParams) (st : ResidualStack) (xs cs : tensor) (v d : slice) :
  length cs = length xs ->
  Torch.last_row (stack_rows hp st (xs ++ [v]) (cs ++ [d]))
  = Some (next_row hp st xs cs d).
Proof.
  intros Hlen. unfold stack_rows. rewrite length_app. simpl length.
  rewrite Nat.add_1_r, seq_S, map_app. cbn [map plus]. rewrite last_row_snoc.
  f_equal. unfold next_row. f_equal. f_equal.
  rewrite first_rows_snoc.
  destruct (block_chain_snoc hp (stack st) (first_rows st xs) cs
              (smap tanh (weight (first_conv st) (hist 2 xs))) d) as [_ E];
    [now rewrite first_rows_length|].
  rewrite E. apply rows_at_snoc_each.
  - pose proof (block_skips_length hp (stack st) (first_rows st xs) cs) as HL.
    rewrite first_rows_length in HL. exact HL.
  - rewrite length_map, row_chain_length, block_skips_count; auto using block_inputs_length.
Qed.

(** ** One step of the naive inverse *)

Lemma nth_error_nth_lt {A : Type} (d : A) (l : list A) (n : nat) :
  n < length l -> nth_error l n = Some (nth n l d).
Proof. apply nth_error_nth'. Qed.

Lemma synthesize_step_row (hp : HParams) (st : ResidualStack) (c z : tensor) (t : nat) :
  training_stack hp st -> hidden_size hp <> 0 -> out_size hp = 2 ->
  length c = length z -> t < length z ->
  synthesize_step hp st c z t
  = Torch.set_row t
      (inverse_row (nth t z szero)
                   (next_row hp st (firstn t z) (firstn t c) (nth t c szero))) z.
Proof.
  intros Hst Hh Ho Hlen Ht. unfold synthesize_step.
  rewrite (firstn_succ_nth szero z t Ht).
  rewrite (firstn_succ_nth szero c t) by lia.
  rewrite stack_forward_rows; auto.
  - cbn [bind]. unfold split_mean_logvar. rewrite Ho. cbn [Nat.eqb bind].
    rewrite (nth_error_nth_lt szero z t Ht). cbn [bind].
    unfold tmap. rewrite !last_row_map.
    rewrite stack_rows_last by (rewrite !length_firstn; lia).
    cbn [option_map bind]. reflexivity.
  - rewrite !length_app, !length_firstn. simpl. lia.
  - intros E. apply (f_equal (@length _)) in E. rewrite length_app in E. simpl in E. lia.
Qed.

(** ** The circular buffer *)

Lemma write_at_split (i : nat) (v : slice) (x : list slice) :
  i < length x -> write_at i v x = firstn i x ++ v :: skipn (S i) x.
Proof.
  revert i. induction x as [|a x IH]; intros i Hi; [simpl in Hi; lia|].
  destruct i as [|i]; [reflexivity|].
  simpl in Hi. cbn [write_at firstn skipn app]. f_equal. apply IH. lia.
Qed.

(** Pushing a row in a buffer that shows the window of [hs] makes it show
    the window of [hs] extended by the row. *)
Lemma set_current_window (n : nat) (ct : CircularTensor) (hs : tensor) (v : slice) :
  length (buffer ct) = n -> cursor ct < length (buffer ct) ->
  skipn (cursor ct) (buffer ct) ++ firstn (cursor ct) (buffer ct) = hist n hs ->
  length (buffer (set_current v ct)) = n
  /\ cursor (set_current v ct) < length (buffer (set_current v ct))
  /\ window (set_current v ct) = hist n (hs ++ [v]).
Proof.
  intros Hn Hc Hw.
  destruct ct as [buf cur]. cbn [buffer cursor] in *.
  assert (Hpos : 0 < n) by lia.
  unfold window, set_current. cbn [buffer cursor].
  rewrite (write_at_split cur v buf Hc).
  rewrite (hist_snoc n hs v Hpos), <- Hw.
  set (A := firstn cur buf) in *. set (B := skipn (S cur) buf) in *.
  assert (HA : length A = cur) by (unfold A; rewrite length_firstn; lia).
  assert (HB : length B = n - S cur) by (unfold B; rewrite length_skipn; lia).
  assert (Hs : skipn cur buf = nth cur buf szero :: B).
  { unfold B. clear -Hc. revert cur Hc.
    induction buf as [|a buf IH]; intros cur Hc; [simpl in Hc; lia|].
    destruct cur as [|cur]; [reflexivity|]. simpl in Hc.
    change (skipn (S cur) (a :: buf)) with (skipn cur buf).
    change (skipn (S (S cur)) (a :: buf)) with (skipn (S cur) buf).
    rewrite IH by lia. reflexivity. }
  rewrite Hs. cbn [app tl].
  assert (HL : length (A ++ v :: B) = n).
  { rewrite length_app. simpl. lia. }
  rewrite HL, Hn. split; [reflexivity|].
  split; [apply Nat.mod_upper_bound; lia|].
  destruct (Nat.eq_dec (cur + 1) n) as [E|E].
  - rewrite E, Nat.Div0.mod_same. cbn [skipn firstn]. rewrite app_nil_r.
    destruct B as [|b B']; [reflexivity | simpl in HB; lia].
  - rewrite Nat.mod_small by lia.
    rewrite skipn_app, firstn_app, HA.
    replace (cur + 1 - cur) with 1 by lia.
    rewrite skipn_all2 by lia. rewrite firstn_all2 by lia.
    cbn [skipn firstn app]. rewrite <- app_assoc. reflexivity.
Qed.

(** A zeroed buffer shows the window of the empty history, wherever its
    cursor stands. *)
Lemma zero_window (ct : CircularTensor) :
  cursor ct < length (buffer ct) ->
  skipn (cursor (zero_ ct)) (buffer (zero_ ct))
  ++ firstn (cursor (zero_ ct)) (buffer (zero_ ct))
  = hist (length (buffer ct)) [].
Proof.
  intros Hc. destruct ct as [buf cur]. cbn [buffer cursor zero_] in *.
  rewrite hist_nil.
  assert (E : map (fun _ : slice => szero) buf = repeat szero (length buf)).
  { clear. induction buf as [|a buf IH]; [reflexivity|]. simpl. now rewrite IH. }
  rewrite E.
  replace (length buf) with (cur + (length buf - cur)) at 1 2 by lia.
  rewrite repeat_app.
  rewrite skipn_app, firstn_app, repeat_length, Nat.sub_diag.
  rewrite skipn_all2 by (rewrite repeat_length; lia).
  rewrite firstn_all2 by (rewrite repeat_length; lia).
  cbn [skipn firstn app]. rewrite app_nil_r, <- repeat_app.
  f_equal. lia.
Qed.

(** ** The incremental mode of a block *)

Lemma last_rows_last (l : tensor) : l <> [] -> Torch.last_rows l = [last l szero].
Proof.
  intros Hl. destruct (exists_last Hl) as [l' [a ->]].
  unfold Torch.last_rows. rewrite rev_unit, last_last. reflexivity.
Qed.

Lemma broadcast_one (f : slice -> slice -> slice) (a b : slice) :
  broadcast f [a] [b] = Some [f a b].
Proof. reflexivity. Qed.

Lemma block_forward_incremental (hp : HParams) (blk0 blk : ResidualBlock)
  (win : tensor) (d : slice) :
  training_block hp blk0 -> block_of blk0 blk -> hidden_size hp <> 0 ->
  length win = extent (initial_conv blk0) ->
  ResidualBlock_forward hp blk win [d] true
  = Some (to_incremental blk0,
          [fst (block_row hp blk0 win d)], [snd (block_row hp blk0 win d)]).
Proof.
  intros (Hpad & Hext & _ & Hpos & [Hc1 Hc2] & [Hr1 Hr2] & [Hs1 Hs2]) Hof Hh Hwin.
  assert (Hblk : (if negb (padding (initial_conv blk) =? 0)
                  then with_initial_conv (set_padding 0 (initial_conv blk)) blk
                  else blk) = to_incremental blk0).
  { destruct Hof as [-> | ->].
    - rewrite Hpad. assert (E : (padding_h blk0 =? 0) = false) by (apply Nat.eqb_neq; lia).
      now rewrite E.
    - reflexivity. }
  unfold ResidualBlock_forward. cbv beta iota zeta. rewrite Hblk.
  assert (Hne : win <> []).
  { intros ->. simpl in Hwin. lia. }
  rewrite (conv_window (initial_conv (to_incremental blk0)) win) by (simpl; auto).
  cbn [bind]. change (cdtconv (to_incremental blk0)) with (cdtconv blk0).
  change (resconv (to_incremental blk0)) with (resconv blk0).
  change (skipconv (to_incremental blk0)) with (skipconv blk0).
  change (weight (initial_conv (to_incremental blk0))) with (weight (initial_conv blk0)).
  rewrite (conv_1x1 (cdtconv blk0) [d]) by (auto; discriminate).
  cbn [bind map]. unfold split_channels.
  assert (E : (hidden_size hp =? 0) = false) by (now apply Nat.eqb_neq).
  rewrite E. cbn [bind]. unfold tmap, tadd, tmul. cbn [map].
  rewrite !broadcast_one. cbn [bind map]. rewrite broadcast_one. cbn [bind].
  rewrite (conv_1x1 (resconv blk0)) by (auto; discriminate).
  cbn [bind map]. rewrite (last_rows_last win Hne), broadcast_one.
  cbn [bind].
  rewrite (conv_1x1 (skipconv blk0)) by (auto; discriminate).
  cbn [bind map]. reflexivity.
Qed.

(** ** The incremental mode of the blocks *)

Lemma caches_hold_length (blocks : list ResidualBlock) (caches : list CircularTensor)
  (hists : list tensor) :
  caches_hold blocks caches hists -> length hists = length blocks.
Proof.
  revert caches hists. induction blocks as [|blk blocks IH]; intros caches hists H.
  - destruct caches, hists; simpl in H; try contradiction. reflexivity.
  - destruct caches as [|ct caches], hists as [|hs hists]; simpl in H; try contradiction.
    destruct H as [_ H]. simpl. f_equal. exact (IH _ _ H).
Qed.

Lemma incremental_blocks_rows (hp : HParams) (blocks0 blocks : list ResidualBlock)
  (caches : list CircularTensor) (hists : list tensor) (r d : slice) :
  Forall (training_block hp) blocks0 -> Forall2 block_of blocks0 blocks ->
  hidden_size hp <> 0 -> caches_hold blocks0 caches hists ->
  exists caches',
    incremental_blocks hp blocks caches [r] [d]
    = Some (map to_incremental blocks0, caches',
            map (fun rs : slice * slice => [snd rs]) (row_chain hp blocks0 hists r d))
    /\ caches_hold blocks0 caches'
         (snoc_each hists (map fst (row_chain hp blocks0 hists r d))).
Proof.
  intros Ht Hof Hh. revert caches hists r.
  induction Hof as [|blk0 blk blocks0 blocks Hb Hof IH]; intros caches hists r Hc.
  - destruct caches, hists; simpl in Hc; try contradiction.
    exists []. split; [reflexivity | exact I].
  - destruct caches as [|ct caches], hists as [|hs hists]; simpl in Hc; try contradiction.
    destruct Hc as [(Hlen & Hcur & Hwin) Hc].
    apply Forall_cons_iff in Ht. destruct Ht as [Hblk Ht].
    destruct (set_current_window _ ct hs r Hlen Hcur Hwin) as (Hlen' & Hcur' & Hwin').
    cbn [incremental_blocks].
    change (Torch.last_row [r]) with (Some r). cbn [bind].
    rewrite (block_forward_incremental hp blk0 blk (window (set_current r ct)) d Hblk Hb Hh)
      by (rewrite Hwin'; apply hist_length).
    cbn [bind]. rewrite Hwin'.
    destruct (IH Ht caches hists
                (fst (block_row hp blk0 (hist (extent (initial_conv blk0)) (hs ++ [r])) d)) Hc)
      as [caches' [E Hc']].
    rewrite E. cbn [bind].
    exists (set_current r ct :: caches'). split; [reflexivity|].
    cbn [row_chain map snoc_each fst caches_hold].
    split; [|exact Hc'].
    split; [exact Hlen'|]. split; [exact Hcur'|]. exact Hwin'.
Qed.

Lemma py_sum_singletons (rows : list slice) :
  rows <> [] -> py_sum (map (fun r => [r]) rows) = Some [sum_row rows].
Proof.
  intros Hne. rewrite (py_sum_rows 1).
  - cbn [seq map]. unfold rows_at. rewrite map_map. cbn [nth]. now rewrite map_id.
  - apply Forall_forall. intros t Ht. apply in_map_iff in Ht.
    destruct Ht as [r [<- _]]. reflexivity.
  - destruct rows; [congruence | discriminate].
Qed.

Lemma set_row_Some {A : Type} (t : nat) (v : A) (z : list A) :
  t < length z -> Torch.set_row t v z = Some (firstn t z ++ v :: skipn (S t) z).
Proof.
  revert t. induction z as [|a z IH]; intros t Ht; [simpl in Ht; lia|].
  destruct t as [|t]; [reflexivity|].
  simpl in Ht. cbn [Torch.set_row]. rewrite IH by lia. reflexivity.
Qed.

Lemma set_row_pad2 (t : nat) (v : slice) (z : tensor) :
  Torch.set_row (t + 2) v (repeat szero 2 ++ z)
  = option_map (app (repeat szero 2)) (Torch.set_row t v z).
Proof.
  replace (t + 2) with (S (S t)) by lia. cbn [repeat app Torch.set_row].
  destruct (Torch.set_row t v z); reflexivity.
Qed.

(** ** One step of the cached inverse simulates one step of the naive one *)

Lemma slice_rows_one (t : nat) (c : tensor) :
  t < length c -> Torch.slice_rows t (t + 1) c = [nth t c szero].
Proof.
  intros Ht. unfold Torch.slice_rows. replace (t + 1 - t) with 1 by lia.
  revert t Ht. induction c as [|a c IH]; intros t Ht; [simpl in Ht; lia|].
  destruct t as [|t]; [reflexivity|]. simpl in Ht.
  change (skipn (S t) (a :: c)) with (skipn t c). cbn [nth]. apply IH. lia.
Qed.

Lemma slice_rows_pad2 (t : nat) (z : tensor) :
  t <= length z ->
  Torch.slice_rows t (t + 2) (repeat szero 2 ++ z) = hist 2 (firstn t z).
Proof.
  intros Ht. unfold Torch.slice_rows, hist. replace (t + 2 - t) with 2 by lia.
  rewrite <- (app_nil_r z) at 1. apply window_strict. exact Ht.
Qed.

Lemma arTransform_step_sim (hp : HParams) (st0 st : ResidualStack) (c z : tensor) (t : nat) :
  training_stack hp st0 -> hidden_size hp <> 0 -> out_size hp = 2 ->
  length c = length z -> t < length z ->
  ready st0 st (block_inputs hp (stack st0) (first_rows st0 (firstn t z)) (firstn t c)) ->
  exists st' z',
    synthesize_step hp st0 c z t = Some z'
    /\ arTransform_step hp c (st, repeat szero 2 ++ z) t = Some (st', repeat szero 2 ++ z')
    /\ length z' = length z
    /\ ready st0 st'
         (block_inputs hp (stack st0) (first_rows st0 (firstn (t + 1) z'))
                       (firstn (t + 1) c)).
Proof.
  intros Hst Hh Ho Hlen Ht (Hfc & Hl1 & Hl3 & Hof & caches & Hcache & Hhold).
  pose proof Hst as (He & Hp & Hb & Hne & [H11 H12] & [H31 H32]).
  set (d := nth t c szero).
  set (hists := block_inputs hp (stack st0) (first_rows st0 (firstn t z)) (firstn t c)) in *.
  set (r0 := smap tanh (weight (first_conv st0) (hist 2 (firstn t z)))).
  set (v := inverse_row (nth t z szero) (next_row hp st0 (firstn t z) (firstn t c) d)).
  destruct (incremental_blocks_rows hp (stack st0) (stack st) caches hists r0 d
              Hb Hof Hh Hhold) as [caches' [Einc Hhold']].
  exists (with_state (first_conv st) (map to_incremental (stack st0)) (Some caches') st).
  exists (firstn t z ++ v :: skipn (S t) z).
  split.
  { rewrite (synthesize_step_row hp st0 c z t Hst Hh Ho Hlen Ht).
    apply set_row_Some. exact Ht. }
  split.
  { unfold arTransform_step.
    rewrite (slice_rows_pad2 t z) by lia.
    rewrite (slice_rows_one t c) by lia. fold d.
    rewrite Hfc.
    rewrite (conv_window (set_padding 0 (first_conv st0)) (hist 2 (firstn t z)))
      by (simpl; rewrite ?hist_length; auto).
    cbn [bind tmap map]. change (weight (set_padding 0 (first_conv st0)))
      with (weight (first_conv st0)). fold r0.
    rewrite Hcache. cbn [bind]. rewrite Einc. cbn [bind].
    rewrite <- (map_map snd (fun r : slice => [r])).
    rewrite py_sum_singletons.
    2:{ intros E. apply (f_equal (@length _)) in E.
        rewrite length_map, row_chain_length in E
          by (apply (caches_hold_length _ _ _ Hhold)).
        destruct (stack st0); [congruence | discriminate]. }
    cbn [bind]. unfold last_convs. cbn [last_conv1 last_conv3 with_state].
    rewrite Hl1, Hl3. cbn [tmap map].
    rewrite (conv_1x1 (last_conv1 st0)) by (auto; discriminate).
    cbn [bind map].
    rewrite (conv_1x1 (last_conv3 st0)) by (auto; discriminate).
    cbn [bind map].
    unfold split_mean_logvar. rewrite Ho. cbn [Nat.eqb bind tmap map].
    replace (nth_error (repeat szero 2 ++ z) (t + 2)) with (nth_error z t)
      by (replace (t + 2) with (S (S t)) by lia; reflexivity).
    rewrite (nth_error_nth_lt szero z t Ht). cbn [bind].
    change (Torch.last_row [?a]) with (Some a). cbn [bind].
    rewrite set_row_pad2, (set_row_Some t _ z Ht). cbn [option_map bind].
    reflexivity. }
  split.
  { rewrite length_app. cbn [length]. rewrite length_firstn, length_skipn. lia. }
  unfold ready. cbn [first_conv last_conv1 last_conv3 stack cache with_state].
  repeat split; auto.
  - clear. induction (stack st0) as [|b l IH]; constructor; [now right | exact IH].
  - exists caches'. split; [reflexivity|].
    assert (E1 : firstn (t + 1) (firstn t z ++ v :: skipn (S t) z) = firstn t z ++ [v]).
    { rewrite firstn_app, length_firstn.
      replace (t + 1 - Nat.min t (length z)) with 1 by lia.
      rewrite firstn_all2 by (rewrite length_firstn; lia). reflexivity. }
    rewrite E1, (firstn_succ_nth szero c t) by lia. fold d.
    rewrite first_rows_snoc. fold r0.
    destruct (block_chain_snoc hp (stack st0) (first_rows st0 (firstn t z)) (firstn t c) r0 d)
      as [E2 _]; [rewrite first_rows_length, !length_firstn; lia|].
    rewrite E2. exact Hhold'.
Qed.

(** ** The loop of [arTransform] simulates the inner loop of [synthesize] *)

Lemma arTransform_loop_sim (hp : HParams) (st0 : ResidualStack) (c : tensor) (n : nat) :
  training_stack hp st0 -> hidden_size hp <> 0 -> out_size hp = 2 ->
  forall (t : nat) (st : ResidualStack) (z : tensor),
    length c = length z -> t + n <= length z ->
    ready st0 st (block_inputs hp (stack st0) (first_rows st0 (firstn t z)) (firstn t c)) ->
    exists st' z',
      foldM (synthesize_step hp st0 c) (seq t n) z = Some z'
      /\ foldM (arTransform_step hp c) (seq t n) (st, repeat szero 2 ++ z)
         = Some (st', repeat szero 2 ++ z')
      /\ length z' = length z
      /\ ready st0 st'
           (block_inputs hp (stack st0) (first_rows st0 (firstn (t + n) z'))
                         (firstn (t + n) c)).
Proof.
  intros Hst Hh Ho. induction n as [|n IH]; intros t st z Hlen Ht Hr.
  - exists st, z. rewrite Nat.add_0_r.
    split; [reflexivity|]. split; [reflexivity|]. split; [reflexivity | exact Hr].
  - destruct (arTransform_step_sim hp st0 st c z t Hst Hh Ho Hlen ltac:(lia) Hr)
      as (st1 & z1 & E1 & E2 & Hl1 & Hr1).
    replace (t + 1) with (S t) in Hr1 by lia.
    destruct (IH (S t) st1 z1 ltac:(lia) ltac:(lia) Hr1) as (st2 & z2 & F1 & F2 & Hl2 & Hr2).
    exists st2, z2. cbn [seq foldM]. rewrite E1, E2. cbn [bind].
    replace (t + S n) with (S t + n) by lia.
    split; [exact F1|]. split; [exact F2|]. split; [lia | exact Hr2].
Qed.

Lemma block_inputs_nil (hp : HParams) (blocks : list ResidualBlock) :
  block_inputs hp blocks [] [] = map (fun _ => []) blocks.
Proof. induction blocks as [|blk blocks IH]; [reflexivity|]. simpl. now rewrite IH. Qed.

Lemma prepare_cache_fresh (hp : HParams) (st0 : ResidualStack) :
  training_stack hp st0 -> cache st0 = None ->
  ready st0 (prepare_cache hp st0) (block_inputs hp (stack st0) (first_rows st0 []) []).
Proof.
  intros (_ & _ & Hb & _) Hc. unfold prepare_cache. rewrite Hc.
  unfold ready. cbn [first_conv last_conv1 last_conv3 stack cache with_state].
  repeat split; auto.
  - clear. induction (stack st0) as [|b l IH]; constructor; [now left | exact IH].
  - eexists. split; [reflexivity|].
    change (first_rows st0 []) with (@nil slice). rewrite block_inputs_nil.
    induction Hb as [|blk blocks Hblk Hb IH]; [exact I|].
    destruct Hblk as (_ & Hext & Hk & _).
    cbn [map caches_hold CircularTensor_init buffer cursor skipn firstn].
    rewrite repeat_length, app_nil_r, hist_nil, Hk, Hext.
    repeat split; auto. lia.
Qed.

Lemma prepare_cache_used (hp : HParams) (st0 st : ResidualStack) (hists : list tensor) :
  ready st0 st hists ->
  ready st0 (prepare_cache hp st) (block_inputs hp (stack st0) (first_rows st0 []) []).
Proof.
  intros (Hfc & Hl1 & Hl3 & Hof & caches & Hc & Hhold).
  unfold prepare_cache. rewrite Hc.
  unfold ready. cbn [first_conv last_conv1 last_conv3 stack cache with_state].
  repeat split; auto.
  exists (map zero_ caches). split; [reflexivity|].
  change (first_rows st0 []) with (@nil slice). rewrite block_inputs_nil.
  clear -Hhold. revert caches hists Hhold.
  induction (stack st0) as [|blk blocks IH]; intros caches hists Hhold.
  - destruct caches, hists; simpl in Hhold; try contradiction. exact I.
  - destruct caches as [|ct caches], hists as [|hs hists]; simpl in Hhold; try contradiction.
    destruct Hhold as [(Hlen & Hcur & _) Hhold].
    cbn [map caches_hold]. split; [|exact (IH _ _ Hhold)].
    pose proof (zero_window ct Hcur) as Hz. rewrite Hlen in Hz.
    destruct ct as [buf cur]. cbn [zero_ buffer cursor] in *.
    rewrite length_map. repeat split; auto.
Qed.

Lemma arTransform_sim (hp : HParams) (st0 st : ResidualStack) (z c : tensor) :
  training_stack hp st0 -> hidden_size hp <> 0 -> out_size hp = 2 ->
  length c = length z -> h hp <= length z ->
  stack_state st0 st ->
  exists st' z',
    foldM (synthesize_step hp st0 c) (seq 0 (h hp)) z = Some z'
    /\ arTransform hp st z c = Some (st', z')
    /\ length z' = length z
    /\ used_state st0 st'.
Proof.
  intros Hst Hh Ho Hlen Hle Hstate.
  assert (Hr : ready st0 (prepare_cache hp st)
                 (block_inputs hp (stack st0) (first_rows st0 (firstn 0 z)) (firstn 0 c))).
  { cbn [firstn]. destruct Hstate as [[-> Hc] | [hists Hr]].
    - now apply prepare_cache_fresh.
    - exact (prepare_cache_used hp st0 st hists Hr). }
  destruct (arTransform_loop_sim hp st0 c (h hp) Hst Hh Ho 0 (prepare_cache hp st) z
              Hlen ltac:(lia) Hr) as (st' & z' & E1 & E2 & Hl & Hr').
  exists st', z'. split; [exact E1|]. split.
  - unfold arTransform. rewrite E2. reflexivity.
  - split; [exact Hl|]. eexists. exact Hr'.
Qed.

(** ** The loops over the flows *)

Lemma synthesize_flip_length {A : Type} (i : nat) (x y : list A) :
  synthesize_flip i x = Some y -> length y = length x.
Proof.
  unfold synthesize_flip. destruct (4 <? i).
  - intros H. injection H as <-. apply length_rev.
  - apply half_flip_length.
Qed.

Lemma synthesize_flip_defined {A : Type} (i : nat) (x : list A) :
  Nat.Even (length x) -> 0 < length x -> synthesize_flip i x <> None.
Proof.
  intros [k Hk] Hpos. unfold synthesize_flip. destruct (4 <? i); [discriminate|].
  rewrite (half_flip_even x k Hk) by lia. discriminate.
Qed.

Lemma fast_flows_sim (hp : HParams) (ifl0 ifl : list (nat * ResidualStack)) :
  hidden_size hp <> 0 -> out_size hp = 2 ->
  Forall2 flow_state ifl0 ifl ->
  Forall (fun p => training_stack hp (snd p)) ifl0 ->
  forall z c : tensor,
    length c = length z -> h hp <= length z ->
    match foldM (synthesize_flow hp) ifl0 (z, c) with
    | Some (z', _) =>
        exists fl', fast_flows hp ifl z c = Some (fl', z')
                    /\ Forall2 used_state (map snd ifl0) fl'
                    /\ length z' = length z
    | None => fast_flows hp ifl z c = None
              /\ ~ (Nat.Even (length z) /\ 0 < length z)
    end.
Proof.
  intros Hh Ho Hs. induction Hs as [|[i0 st0] [i st] ifl0 ifl [Hi Hst] Hs IH];
    intros Ht z c Hlen Hle.
  - cbn [foldM fast_flows map]. exists []. repeat split. constructor.
  - cbn [fst snd] in Hi, Hst. subst i.
    apply Forall_cons_iff in Ht. destruct Ht as [Ht0 Ht]. cbn [snd] in Ht0.
    cbn [foldM fast_flows]. unfold synthesize_flow at 1.
    destruct (synthesize_flip i0 z) as [z1|] eqn:Ez.
    2:{ cbn [bind]. split; [reflexivity|]. intros [He Hp].
        exact (synthesize_flip_defined i0 z He Hp Ez). }
    destruct (synthesize_flip i0 c) as [c1|] eqn:Ec.
    2:{ cbn [bind]. split; [reflexivity|]. intros [He Hp]. rewrite <- Hlen in He, Hp.
        exact (synthesize_flip_defined i0 c He Hp Ec). }
    pose proof (synthesize_flip_length i0 z z1 Ez) as Hz1.
    pose proof (synthesize_flip_length i0 c c1 Ec) as Hc1.
    destruct (arTransform_sim hp st0 st z1 c1 Ht0 Hh Ho ltac:(lia) ltac:(lia) Hst)
      as (st' & z2 & E1 & E2 & Hl2 & Hst').
    cbn [bind]. rewrite E1, E2. cbn [bind].
    specialize (IH Ht z2 c1 ltac:(lia) ltac:(lia)).
    match type of IH with
    | match ?t with _ => _ end =>
        change (foldM _ ifl0 (z2, c1)) with t; destruct t as [[z3 c3]|]
    end.
    + destruct IH as (fl' & E3 & Hfl & Hl3). rewrite E3. cbn [bind].
      exists (st' :: fl'). split; [reflexivity|]. split; [|lia].
      cbn [map snd]. constructor; assumption.
    + destruct IH as [E3 Hn]. rewrite E3. cbn [bind]. split; [reflexivity|].
      intros [He Hp]. apply Hn. rewrite Hl2, Hz1. split; assumption.
Qed.

Lemma Forall2_rev {A B : Type} (R : A -> B -> Prop) (l1 : list A) (l2 : list B) :
  Forall2 R l1 l2 -> Forall2 R (rev l1) (rev l2).
Proof.
  induction 1 as [|a b l1 l2 Hab H IH]; [constructor|].
  cbn [rev]. apply Forall2_app; [exact IH | constructor; [exact Hab | constructor]].
Qed.

Lemma Forall2_enumerate (l0 l : list ResidualStack) :
  Forall2 stack_state l0 l -> Forall2 flow_state (enumerate l0) (enumerate l).
Proof.
  unfold enumerate. intros H. rewrite <- (Forall2_length H). generalize 0 as s.
  induction H as [|a b l0 l Hab H IH]; intros s; [constructor|].
  cbn [length seq combine]. constructor; [split; [reflexivity | exact Hab]|].
  rewrite (Forall2_length H). rewrite (Forall2_length H) in IH. apply IH.
Qed.

Lemma map_snd_enumerate {A : Type} (l : list A) : map snd (enumerate l) = l.
Proof.
  unfold enumerate. generalize 0 as s.
  induction l as [|a l IH]; intros s; [reflexivity|].
  cbn [length seq combine map snd]. now rewrite IH.
Qed.

(** ** Freshly built models *)

Lemma ResidualBlock_init_training (hp : HParams) (i : nat) (w : BlockWeights) :
  2 <= kernel_size hp ->
  training_block hp (ResidualBlock_init hp (2 ^ i) w).
Proof.
  intros Hk. unfold training_block, ResidualBlock_init.
  cbn [padding extent initial_conv cdtconv resconv skipconv padding_h dilation conv1x1].
  assert (Hp : 0 < 2 ^ i) by (apply Nat.neq_0_lt_0, Nat.pow_nonzero; discriminate).
  assert (Hd : 0 < (kernel_size hp - 1) * 2 ^ i) by nia.
  repeat split; lia.
Qed.

Lemma ResidualStack_init_training (hp : HParams) (w : StackWeights) :
  valid_hp hp ->
  training_stack hp (ResidualStack_init hp w) /\ cache (ResidualStack_init hp w) = None.
Proof.
  intros (Hk & _ & _ & Hn). split; [|reflexivity].
  unfold training_stack, ResidualStack_init.
  cbn [first_conv stack last_conv1 last_conv3 extent padding conv1x1].
  repeat split; auto.
  - apply Forall_forall. intros blk Hblk. apply in_map_iff in Hblk.
    destruct Hblk as [i [<- _]]. now apply ResidualBlock_init_training.
  - destruct (n_layer hp); [congruence | discriminate].
Qed.

Lemma WaveFlow_init_flows (hp : HParams) (w : nat -> StackWeights) (m : WaveFlow) :
  WaveFlow_init hp w = Some m ->
  flows m = map (fun i => ResidualStack_init hp (w i)) (seq 0 (n_flow hp)).
Proof.
  unfold WaveFlow_init. intros H. apply bind_Some in H.
  destruct H as [s [_ H]]. injection H as <-. reflexivity.
Qed.

Lemma WaveFlow_init_fresh (hp : HParams) (w : nat -> StackWeights) (m : WaveFlow) :
  valid_hp hp -> WaveFlow_init hp w = Some m ->
  Forall (training_stack hp) (flows m) /\ Forall2 stack_state (flows m) (flows m).
Proof.
  intros Hv H. rewrite (WaveFlow_init_flows hp w m H).
  induction (seq 0 (n_flow hp)) as [|i l [IH1 IH2]]; [split; constructor|].
  destruct (ResidualStack_init_training hp (w i) Hv) as [Ht Hc].
  cbn [map]. split; constructor; auto. left. now split.
Qed.

(** ** The two inverse passes *)

Lemma squeeze_height (hp : HParams) (c : list sample) :
  0 < h hp -> 0 < length c -> length c mod h hp = 0 ->
  exists cg, squeeze hp c = Some cg /\ length cg = h hp.
Proof.
  intros Hh Hc Hmod. eexists. split.
  - apply (squeeze_exact hp c (const_sample 0) Hh Hc Hmod).
  - now rewrite length_map, length_seq.
Qed.

Lemma synthesize_fast_sim (hp : HParams) (m0 m : WaveFlow) (noise : nat -> slice)
  (c : list sample) (temp : R) :
  valid_hp hp ->
  Forall (training_stack hp) (flows m0) -> Forall2 stack_state (flows m0) (flows m) ->
  0 < h hp -> 0 < length c -> length c mod h hp = 0 ->
  match synthesize hp m0 noise c temp with
  | Some out =>
      exists m', synthesize_fast hp m noise c temp = Some (m', out)
                 /\ Forall2 used_state (flows m0) (flows m')
  | None => synthesize_fast hp m noise c temp = None /\ ~ Nat.Even (h hp)
  end.
Proof.
  intros (_ & Hhid & Hout & _) Ht Hs Hh Hc Hmod.
  destruct (squeeze_height hp c Hh Hc Hmod) as [cg [Ecg Hcg]].
  unfold synthesize, synthesize_fast. rewrite Ecg. cbn [bind].
  set (ct := tensor_of_grid cg).
  assert (Hct : length ct = h hp) by (unfold ct, tensor_of_grid; now rewrite length_map).
  set (z := base_noise noise temp (length ct)).
  assert (Hz : length z = h hp).
  { unfold z, base_noise, tmap. now rewrite !length_map, length_seq. }
  pose proof (fast_flows_sim hp (enumerate (rev (flows m0))) (enumerate (rev (flows m)))
                Hhid Hout (Forall2_enumerate _ _ (Forall2_rev _ _ _ Hs))) as Hsim.
  assert (Htr : Forall (fun p : nat * ResidualStack => training_stack hp (snd p))
                  (enumerate (rev (flows m0)))).
  { apply Forall_forall. intros p Hp. apply (in_map snd) in Hp.
    rewrite map_snd_enumerate in Hp. apply in_rev in Hp.
    rewrite Forall_forall in Ht. now apply Ht. }
  specialize (Hsim Htr z ct ltac:(lia) ltac:(lia)).
  match type of Hsim with
  | match ?t with _ => _ end =>
      change (foldM (synthesize_flow hp) (enumerate (rev (flows m0))) (z, ct)) with t;
      destruct t as [[z' c']|]
  end.
  - destruct Hsim as (fl' & E & Hfl & _). rewrite E. cbn [bind].
    eexists. split; [reflexivity|]. cbn [flows].
    rewrite map_snd_enumerate in Hfl. apply Forall2_rev in Hfl.
    now rewrite rev_involutive in Hfl.
  - destruct Hsim as [E Hn]. rewrite E. cbn [bind]. split; [reflexivity|].
    intros He. apply Hn. rewrite Hz. split; [exact He | exact Hh].
Qed.

Lemma used_is_stack_state (l0 l : list ResidualStack) :
  Forall2 used_state l0 l -> Forall2 stack_state l0 l.
Proof.
  induction 1 as [|a b l0 l Hab H IH]; constructor; [now right | exact IH].
Qed.

(** C1.  For a freshly built model of a valid configuration whose kernel
    size is odd (so that every block keeps the width of its input) and
    whose layer sizes fit in 64-bit integers, every conditioning signal
    whose length is a positive multiple of the squeeze factor, every
    temperature and the same base noise, the cached inverse pass
    [synthesize_fast] returns exactly what the naive inverse pass
    [synthesize] returns; both return a signal when the squeeze factor is
    even. *)
Theorem C1_cached_inverse_equals_naive (hp : HParams) (w : nat -> StackWeights)
  (m : WaveFlow) (noise : nat -> slice) (c : list sample) (temp : R) :
  valid_hp hp -> Nat.Odd (kernel_size hp) -> int64_safe hp ->
  WaveFlow_init hp w = Some m ->
  0 < h hp -> 0 < length c -> length c mod h hp = 0 ->
  option_map snd (synthesize_fast hp m noise c temp) = synthesize hp m noise c temp
  /\ (Nat.Even (h hp) -> exists out, synthesize hp m noise c temp = Some out).
Proof.
  intros Hv _ _ Hm Hh Hc Hmod.
  destruct (WaveFlow_init_fresh hp w m Hv Hm) as [Ht Hs].
  pose proof (synthesize_fast_sim hp m m noise c temp Hv Ht Hs Hh Hc Hmod) as Hsim.
  destruct (synthesize hp m noise c temp) as [out|].
  - destruct Hsim as (m' & E & _). rewrite E. split; [reflexivity|].
    intros _. now exists out.
  - destruct Hsim as [E Hn]. rewrite E. split; [reflexivity|].
    intros He. contradiction.
Qed.

Lemma C1_cached_inverse_equals_naive_witness :
  option_map snd
    (synthesize_fast small_hp (small_model sum_weights) ramp_noise
       [const_sample 1; const_sample 2; const_sample 3; const_sample 4] 1)
  = synthesize small_hp (small_model sum_weights) ramp_noise
      [const_sample 1; const_sample 2; const_sample 3; const_sample 4] 1
  /\ (Nat.Even (h small_hp) ->
      exists out,
        synthesize small_hp (small_model sum_weights) ramp_noise
          [const_sample 1; const_sample 2; const_sample 3; const_sample 4] 1 = Some out).
Proof.
  apply (C1_cached_inverse_equals_naive small_hp (fun _ => sum_weights)).
  - unfold valid_hp. simpl. repeat split; try lia; discriminate.
  - exists 1. reflexivity.
  - split; [simpl; lia | reflexivity].
  - reflexivity.
  - simpl. lia.
  - simpl. lia.
  - reflexivity.
Defined.

(** ** A second cached synthesis on the same model *)

Lemma used_state_cache (hp : HParams) (st0 st : ResidualStack) :
  used_state st0 st ->
  exists cs, cache st = Some cs
             /\ cache (prepare_cache hp st) = Some (map zero_ cs)
             /\ first_conv (prepare_cache hp st) = first_conv st
             /\ stack (prepare_cache hp st) = stack st.
Proof.
  intros [hists (_ & _ & _ & _ & cs & Hc & _)]. exists cs.
  unfold prepare_cache. rewrite Hc. repeat split; auto.
Qed.

(** C6 (amended).  After a cached synthesis on a freshly built model, a
    second cached synthesis on the same model instance, with a conditioning
    of the same shape, returns what a freshly built model with the same
    weights returns for that conditioning (and it returns a signal when
    the squeeze factor is even).  On that second call each flow still
    holds its caches and [arTransform] zeroes their buffers in place,
    leaving the rest of each cache object, and the convolutions, as they
    are. *)
Theorem C6_second_fast_synthesis_as_fresh (hp : HParams) (w : nat -> StackWeights)
  (m m1 : WaveFlow) (noise1 noise2 : nat -> slice) (c1 c2 : list sample)
  (temp1 temp2 : R) (out1 : list sample) :
  valid_hp hp -> WaveFlow_init hp w = Some m ->
  0 < h hp -> 0 < length c1 -> length c1 mod h hp = 0 -> length c2 = length c1 ->
  synthesize_fast hp m noise1 c1 temp1 = Some (m1, out1) ->
  option_map snd (synthesize_fast hp m1 noise2 c2 temp2)
  = option_map snd (synthesize_fast hp m noise2 c2 temp2)
  /\ (Nat.Even (h hp) ->
      exists m2 out2, synthesize_fast hp m1 noise2 c2 temp2 = Some (m2, out2))
  /\ Forall (fun st1 =>
               exists cs, cache st1 = Some cs
                          /\ cache (prepare_cache hp st1) = Some (map zero_ cs)
                          /\ first_conv (prepare_cache hp st1) = first_conv st1
                          /\ stack (prepare_cache hp st1) = stack st1)
            (flows m1).
Proof.
  intros Hv Hm Hh Hc1 Hmod1 Hlen Hfast.
  destruct (WaveFlow_init_fresh hp w m Hv Hm) as [Ht Hs].
  pose proof (synthesize_fast_sim hp m m noise1 c1 temp1 Hv Ht Hs Hh Hc1 Hmod1) as H1.
  destruct (synthesize hp m noise1 c1 temp1) as [o1|].
  2:{ destruct H1 as [E _]. congruence. }
  destruct H1 as (m' & E & Hused). rewrite Hfast in E. injection E as <- _.
  assert (Hc2 : 0 < length c2) by lia.
  assert (Hmod2 : length c2 mod h hp = 0) by (now rewrite Hlen).
  pose proof (synthesize_fast_sim hp m m1 noise2 c2 temp2 Hv Ht
                (used_is_stack_state _ _ Hused) Hh Hc2 Hmod2) as H2.
  pose proof (synthesize_fast_sim hp m m noise2 c2 temp2 Hv Ht Hs Hh Hc2 Hmod2) as H3.
  split; [|split].
  - destruct (synthesize hp m noise2 c2 temp2) as [o2|].
    + destruct H2 as (m2 & E2 & _). destruct H3 as (m3 & E3 & _).
      now rewrite E2, E3.
    + destruct H2 as [E2 _]. destruct H3 as [E3 _]. now rewrite E2, E3.
  - intros He. destruct (synthesize hp m noise2 c2 temp2) as [o2|].
    + destruct H2 as (m2 & E2 & _). now exists m2, o2.
    + destruct H2 as [_ Hn]. contradiction.
  - clear -Hused. induction Hused as [|st0 st1 l0 l1 Hu Hused IH]; constructor.
    + exact (used_state_cache hp st0 st1 Hu).
    + exact IH.
Qed.

Lemma C6_second_fast_synthesis_as_fresh_witness :
  exists m1 out1,
    synthesize_fast small_hp (small_model sum_weights) ramp_noise
      [const_sample 1; const_sample 2; const_sample 3; const_sample 4] 1 = Some (m1, out1)
    /\ option_map snd
         (synthesize_fast small_hp m1 ramp_noise
            [const_sample 5; const_sample 6; const_sample 7; const_sample 8] 2)
       = option_map snd
           (synthesize_fast small_hp (small_model sum_weights) ramp_noise
              [const_sample 5; const_sample 6; const_sample 7; const_sample 8] 2).
Proof.
  assert (Hv : valid_hp small_hp).
  { unfold valid_hp. simpl. repeat split; try lia; discriminate. }
  assert (Hm : WaveFlow_init small_hp (fun _ => sum_weights) = Some (small_model sum_weights))
    by reflexivity.
  destruct (synthesize_fast small_hp (small_model sum_weights) ramp_noise
              [const_sample 1; const_sample 2; const_sample 3; const_sample 4] 1)
    as [[m1 out1]|] eqn:E.
  - exists m1, out1. split; [reflexivity|].
    apply (C6_second_fast_synthesis_as_fresh small_hp (fun _ => sum_weights)
             (small_model sum_weights) m1 ramp_noise ramp_noise
             [const_sample 1; const_sample 2; const_sample 3; const_sample 4]
             [const_sample 5; const_sample 6; const_sample 7; const_sample 8] 1%R 2%R out1
             Hv Hm); [simpl; lia | simpl; lia | reflexivity | reflexivity | exact E].
  - exfalso.
    destruct (WaveFlow_init_fresh small_hp (fun _ => sum_weights) _ Hv Hm) as [Ht Hs].
    pose proof (synthesize_fast_sim small_hp (small_model sum_weights)
                  (small_model sum_weights) ramp_noise
                  [const_sample 1; const_sample 2; const_sample 3; const_sample 4] 1%R
                  Hv Ht Hs ltac:(simpl; lia) ltac:(simpl; lia) eq_refl) as Hsim.
    destruct (synthesize small_hp (small_model sum_weights) ramp_noise
                [const_sample 1; const_sample 2; const_sample 3; const_sample 4] 1).
    + destruct Hsim as (m' & E' & _). congruence.
    + destruct Hsim as [_ Hn]. apply Hn. exists 1. reflexivity.
Defined.

(** C6 (as stated, refuted).  The reset does not move the write cursor:
    after a first cached synthesis with squeeze factor 2, the cache of a
    block with a window of 3 rows has its cursor at 2, and the reset of the
    second call (which only zeroes the buffer) leaves it there. *)
Lemma C6_reset_keeps_cursor :
  ~ (forall (m1 : WaveFlow) (out1 : list sample) (st : ResidualStack)
            (cs : list CircularTensor) (ct : CircularTensor),
       synthesize_fast tiny_hp (tiny_model zero_weights) ramp_noise
         [const_sample 1; const_sample 2] 1 = Some (m1, out1) ->
       In st (flows m1) -> cache (prepare_cache tiny_hp st) = Some cs -> In ct cs ->
       cursor ct = 0).
Proof.
  intros H.
  assert (E : exists m1 out1 st cs ct,
             synthesize_fast tiny_hp (tiny_model zero_weights) ramp_noise
               [const_sample 1; const_sample 2] 1 = Some (m1, out1)
             /\ In st (flows m1) /\ cache (prepare_cache tiny_hp st) = Some cs
             /\ In ct cs /\ cursor ct = 2).
  { do 5 eexists. split; [reflexivity|].
    split; [left; reflexivity|]. split; [reflexivity|].
    split; [left; reflexivity|]. reflexivity. }
  destruct E as (m1 & out1 & st & cs & ct & E & Hst & Hcs & Hct & Hcur).
  specialize (H m1 out1 st cs ct E Hst Hcs Hct). congruence.
Qed.

(** ** The running pair of the forward pass *)

Lemma slice_ext (s t : slice) : (forall b ch w, s b ch w = t b ch w) -> s = t.
Proof.
  intros H. apply functional_extensionality. intros b.
  apply functional_extensionality. intros ch.
  apply functional_extensionality. intros w. apply H.
Qed.

Lemma nth_map_seq {A : Type} (f : nat -> A) (n s : nat) (d : A) :
  s < n -> nth s (map f (seq 0 n)) d = f s.
Proof.
  intros Hs. rewrite (nth_indep _ d (f 0)) by (now rewrite length_map, length_seq).
  rewrite (map_nth f (seq 0 n) 0 s), seq_nth by exact Hs. reflexivity.
Qed.

Lemma broadcast_rows (f : slice -> slice -> slice) (n : nat) (x y : tensor) :
  length x = n -> length y = n ->
  broadcast f x y = Some (map (fun s => f (nth s x szero) (nth s y szero)) (seq 0 n)).
Proof.
  intros Hx Hy. rewrite (map_nth_seq szero x) at 1. rewrite (map_nth_seq szero y) at 1.
  rewrite Hx, Hy. apply broadcast_maps.
Qed.

Lemma affine_rows (n : nat) (lv x m : tensor) :
  length lv = n -> length x = n -> length m = n ->
  affine lv x m
  = Some (map (fun s => sadd (smul (sexp (nth s lv szero)) (nth s x szero)) (nth s m szero))
              (seq 0 n)).
Proof.
  intros Hlv Hx Hm. unfold affine, tmul, tadd, tmap.
  rewrite (broadcast_rows smul n) by (rewrite ?length_map; assumption).
  cbn [bind]. rewrite (broadcast_rows sadd n) by (rewrite ?length_map, ?length_seq; auto).
  f_equal. apply map_ext_in. intros s Hs. apply in_seq in Hs.
  rewrite (nth_map_seq _ n s szero) by lia.
  f_equal. f_equal.
  rewrite (nth_indep _ szero (sexp szero)) by (rewrite length_map; lia).
  apply (map_nth sexp).
Qed.

Lemma forward_affine_parts (hp : HParams) (s s' : ForwardState) (flow : ResidualStack) :
  forward_affine hp s flow = Some s' ->
  exists out mean raw,
    ResidualStack_forward hp flow (fs_x s) (fs_c s) = Some out
    /\ split_mean_logvar hp out = Some (mean, raw)
    /\ affine (tmap (smap clamp_max) raw) (fs_x s) mean = Some (fs_x s')
    /\ fs_c s' = fs_c s
    /\ match global_mean s, global_logvar s with
       | Some gm, Some glv =>
           exists gm' glv',
             bind (tmul gm (tmap sexp (tmap (smap clamp_max) raw)))
                  (fun t => tadd t mean) = Some gm'
             /\ tadd glv (tmap (smap clamp_max) raw) = Some glv'
             /\ global_mean s' = Some gm' /\ global_logvar s' = Some glv'
       | _, _ =>
           global_mean s' = Some mean
           /\ global_logvar s' = Some (tmap (smap clamp_max) raw)
       end.
Proof.
  unfold forward_affine. intros H.
  apply bind_Some in H. destruct H as [out [Hout H]].
  apply bind_Some in H. destruct H as [[mean lv] [Hsplit H]].
  apply bind_Some in H. destruct H as [[gm' glv'] [Hg H]].
  apply bind_Some in H. destruct H as [x' [Hx H]].
  injection H as <-. cbn [fs_x fs_c global_mean global_logvar].
  exists out, mean, lv. repeat split; auto.
  destruct (global_mean s) as [gm|], (global_logvar s) as [glv|];
    try (injection Hg as <- <-; split; reflexivity).
  apply bind_Some in Hg. destruct Hg as [g1 [Hg1 Hg]].
  apply bind_Some in Hg. destruct Hg as [g2 [Hg2 Hg]].
  injection Hg as <- <-. exists g1, g2. repeat split; auto.
Qed.

Lemma split_mean_logvar_length (hp : HParams) (out mean raw : tensor) :
  split_mean_logvar hp out = Some (mean, raw) ->
  length mean = length out /\ length raw = length out.
Proof.
  unfold split_mean_logvar. destruct (out_size hp =? 2); [|discriminate].
  intros H. injection H as <- <-. unfold tmap. now rewrite !length_map.
Qed.


(** ** Flows whose kernels are zero *)

Lemma zero_next_row (hp : HParams) (xs cs : tensor) (d : slice) :
  next_row hp (ResidualStack_init hp zero_weights) xs cs d = szero.
Proof. reflexivity. Qed.

Lemma inverse_row_zero (zr : slice) : inverse_row zr szero = zr.
Proof.
  apply slice_ext. intros b ch w.
  unfold inverse_row, smul, ssub, sexp, sneg, smap, smap2, channels, szero.
  rewrite Ropp_0, exp_0. ring.
Qed.

Lemma set_row_same {A : Type} (t : nat) (d : A) (z : list A) :
  t < length z -> Torch.set_row t (nth t z d) z = Some z.
Proof.
  revert t. induction z as [|a z IH]; intros t Ht; [simpl in Ht; lia|].
  destruct t as [|t]; [reflexivity|].
  simpl in Ht. cbn [Torch.set_row nth]. rewrite IH by lia. reflexivity.
Qed.

(** The inner loop of [synthesize] leaves the signal as it is. *)
Lemma zero_synthesize_steps (hp : HParams) (c z : tensor) (n t : nat) :
  valid_hp hp -> length c = length z -> t + n <= length z ->
  foldM (synthesize_step hp (ResidualStack_init hp zero_weights) c) (seq t n) z = Some z.
Proof.
  intros Hv Hlen. revert t. induction n as [|n IH]; intros t Ht; [reflexivity|].
  destruct (ResidualStack_init_training hp zero_weights Hv) as [Hst _].
  destruct Hv as (Hk & Hh & Ho & Hn).
  cbn [seq foldM].
  rewrite (synthesize_step_row hp _ c z t Hst Hh Ho Hlen) by lia.
  rewrite zero_next_row, inverse_row_zero, set_row_same by lia.
  cbn [bind]. apply IH. lia.
Qed.

Lemma zero_synthesize_flows (hp : HParams) (ifl : list (nat * ResidualStack)) :
  valid_hp hp ->
  Forall (fun p => snd p = ResidualStack_init hp zero_weights) ifl ->
  forall z c : tensor,
    length c = length z -> h hp <= length z ->
    foldM (synthesize_flow hp) ifl (z, c) = foldM synthesize_flips (map fst ifl) (z, c).
Proof.
  intros Hv Hf. induction Hf as [|[i st] ifl Hst Hf IH]; intros z c Hlen Hle; [reflexivity|].
  cbn [snd] in Hst. subst st.
  cbn [map fst foldM]. unfold synthesize_flow at 1, synthesize_flips at 1. cbn [fst snd].
  destruct (synthesize_flip i z) as [z1|] eqn:Ez; [|reflexivity].
  destruct (synthesize_flip i c) as [c1|] eqn:Ec; [|reflexivity].
  cbn [bind].
  pose proof (synthesize_flip_length i z z1 Ez) as Hz1.
  pose proof (synthesize_flip_length i c c1 Ec) as Hc1.
  rewrite (zero_synthesize_steps hp c1 z1 (h hp) 0 Hv) by lia.
  cbn [bind]. apply IH; lia.
Qed.

Lemma forward_flip_length {A : Type} (i : nat) (x y : list A) :
  forward_flip i x = Some y -> length y = length x.
Proof.
  unfold forward_flip. destruct (i <? 4).
  - intros H. injection H as <-. apply length_rev.
  - apply half_flip_length.
Qed.

(** The affine part of an iteration of [forward] leaves the signal as it
    is. *)
Lemma zero_forward_affine (hp : HParams) (s : ForwardState) :
  valid_hp hp -> fs_x s <> [] -> length (fs_c s) = length (fs_x s) -> pair_fits s ->
  exists s',
    forward_affine hp s (ResidualStack_init hp zero_weights) = Some s'
    /\ fs_x s' = fs_x s /\ fs_c s' = fs_c s /\ pair_fits s'
    /\ global_mean s' <> None /\ global_logvar s' <> None.
Proof.
  intros Hv Hx Hc Hp.
  destruct (ResidualStack_init_training hp zero_weights Hv) as [Hst _].
  destruct Hv as (Hk & Hh & Ho & Hn).
  unfold forward_affine.
  rewrite (stack_forward_rows hp _ (fs_x s) (fs_c s) Hst Hh Hc Hx). cbn [bind].
  unfold split_mean_logvar. rewrite Ho. cbn [Nat.eqb bind].
  set (n := length (fs_x s)).
  assert (Eout : stack_rows hp (ResidualStack_init hp zero_weights) (fs_x s) (fs_c s)
                 = map (fun _ => szero) (seq 0 n)) by reflexivity.
  rewrite Eout.
  set (mean := tmap (channels 0) (map (fun _ : nat => szero) (seq 0 n))).
  set (lv := tmap (smap clamp_max)
               (tmap (channels 1) (map (fun _ : nat => szero) (seq 0 n)))).
  assert (Hlv : length lv = n) by (unfold lv, tmap; now rewrite !length_map, length_seq).
  assert (Hm : length mean = n) by (unfold mean, tmap; now rewrite !length_map, length_seq).
  assert (Epair : exists gm glv,
            match global_mean s, global_logvar s with
            | Some gm0, Some glv0 =>
                gm' <- (t <- tmul gm0 (tmap sexp lv) ;; tadd t mean) ;;
                glv' <- tadd glv0 lv ;; Some (gm', glv')
            | _, _ => Some (mean, lv)
            end = Some (gm, glv) /\ length gm = n /\ length glv = n).
  { unfold pair_fits in Hp.
    destruct (global_mean s) as [gm0|]; [destruct (global_logvar s) as [glv0|]|].
    - destruct Hp as [Hg1 Hg2]. unfold tmul, tadd.
      rewrite (broadcast_rows smul n) by (unfold tmap; rewrite ?length_map; assumption).
      cbn [bind].
      rewrite (broadcast_rows sadd n) by (rewrite ?length_map, ?length_seq; auto).
      cbn [bind]. rewrite (broadcast_rows sadd n) by assumption. cbn [bind].
      eexists. eexists. split; [reflexivity|].
      now rewrite !length_map, !length_seq.
    - exists mean, lv. auto.
    - exists mean, lv. auto. }
  destruct Epair as (gm & glv & Epair & Hgm & Hglv). rewrite Epair. cbn [bind].
  rewrite (affine_rows n lv (fs_x s) mean Hlv eq_refl Hm). cbn [bind].
  assert (Ex : map (fun s0 => sadd (smul (sexp (nth s0 lv szero)) (nth s0 (fs_x s) szero))
                                 (nth s0 mean szero)) (seq 0 n) = fs_x s).
  { etransitivity; [|symmetry; apply (map_nth_seq szero (fs_x s))]. fold n.
    apply map_ext_in. intros t Ht. apply in_seq in Ht.
    unfold lv, mean, tmap. rewrite !map_map.
    rewrite !(nth_map_seq _ n t szero) by lia.
    apply slice_ext. intros b ch w.
    unfold sadd, smul, sexp, smap, smap2, channels, szero, clamp_max.
    rewrite Rmin_left by lra. rewrite exp_0. ring. }
  rewrite Ex. eexists. split; [reflexivity|].
  cbn [fs_x fs_c global_mean global_logvar]. unfold pair_fits.
  cbn [fs_x global_mean global_logvar].
  repeat split; auto; discriminate.
Qed.

Lemma zero_forward_flows (hp : HParams) (ifl : list (nat * ResidualStack)) :
  valid_hp hp ->
  Forall (fun p => snd p = ResidualStack_init hp zero_weights) ifl ->
  forall (s : ForwardState) (x' c' : tensor),
    fs_x s <> [] -> length (fs_c s) = length (fs_x s) -> pair_fits s ->
    foldM forward_flips (map fst ifl) (fs_x s, fs_c s) = Some (x', c') ->
    exists s', foldM (forward_step hp) ifl s = Some s' /\ fs_x s' = x' /\ fs_c s' = c'.
Proof.
  intros Hv Hf. induction Hf as [|[i st] ifl Hst Hf IH]; intros s x' c' Hx Hc Hp Hfl.
  - cbn [map foldM] in *. injection Hfl as <- <-. now exists s.
  - cbn [snd] in Hst. subst st. cbn [map fst foldM] in Hfl.
    apply bind_Some in Hfl. destruct Hfl as [[x1 c1] [Hfl1 Hfl]].
    unfold forward_flips in Hfl1. cbn [fst snd] in Hfl1.
    apply bind_Some in Hfl1. destruct Hfl1 as [x1' [Hfx Hfl1]].
    apply bind_Some in Hfl1. destruct Hfl1 as [c1' [Hfc Hfl1]].
    injection Hfl1 as -> ->.
    destruct (zero_forward_affine hp s Hv Hx Hc Hp)
      as (s1 & E1 & Hx1 & Hc1 & Hp1 & Hg1 & Hg2).
    pose proof (forward_flip_length i _ _ Hfx) as Lx.
    pose proof (forward_flip_length i _ _ Hfc) as Lc.
    cbn [foldM]. unfold forward_step at 1. rewrite E1. cbn [bind].
    rewrite Hx1, Hc1, Hfx, Hfc. cbn [bind].
    apply IH; cbn [fs_x fs_c]; auto.
    + intros ->. simpl in Lx. destruct (fs_x s); [congruence | discriminate].
    + lia.
    + unfold pair_fits in *. cbn [fs_x global_mean global_logvar].
      rewrite Hx1 in Hp1.
      destruct (global_mean s1); [|exact I]. destruct (global_logvar s1); [|exact I]. lia.
Qed.

(** ** Eight flows with zero kernels on a grid of two rows *)

Lemma small_valid : valid_hp small_hp.
Proof. unfold valid_hp. simpl. repeat split; try lia; discriminate. Qed.

Lemma zero_model_flows :
  Forall (fun p : nat * ResidualStack => snd p = ResidualStack_init small_hp zero_weights)
         (enumerate (flows (small_model zero_weights)))
  /\ Forall (fun p : nat * ResidualStack => snd p = ResidualStack_init small_hp zero_weights)
            (enumerate (rev (flows (small_model zero_weights)))).
Proof. split; repeat constructor. Qed.

Lemma small_flow_indices (w : StackWeights) :
  map fst (enumerate (flows (small_model w))) = [0; 1; 2; 3; 4; 5; 6; 7]
  /\ map fst (enumerate (rev (flows (small_model w)))) = [0; 1; 2; 3; 4; 5; 6; 7].
Proof. split; reflexivity. Qed.

(** Forward order: four full flips, then four half flips. *)
Lemma forward_flips_eight (a b c d : slice) :
  foldM forward_flips [0; 1; 2; 3; 4; 5; 6; 7] ([a; b], [c; d]) = Some ([a; b], [c; d]).
Proof. reflexivity. Qed.

(** Reverse order: five half flips, then three full flips. *)
Lemma synthesize_flips_eight (a b c d : slice) :
  foldM synthesize_flips [0; 1; 2; 3; 4; 5; 6; 7] ([a; b], [c; d]) = Some ([b; a], [d; c]).
Proof. reflexivity. Qed.

Lemma squeeze_two {A : Type} (a b : A) : squeeze small_hp [a; b] = Some [[a]; [b]].
Proof. reflexivity. Qed.

Lemma zero_synthesize_two (c0 c1 : sample) (noise : nat -> slice) (temp : R) :
  synthesize small_hp (small_model zero_weights) noise [c0; c1] temp
  = Some [sample_at (smap (fun v => (v * temp)%R) (noise 1)) 0;
          sample_at (smap (fun v => (v * temp)%R) (noise 0)) 0].
Proof.
  destruct zero_model_flows as [_ Hr].
  unfold synthesize. rewrite squeeze_two. cbn [bind].
  rewrite (zero_synthesize_flows small_hp _ small_valid Hr) by (simpl; lia).
  rewrite (proj2 (small_flow_indices zero_weights)).
  change (tensor_of_grid [[c0]; [c1]]) with [slice_of_row [c0]; slice_of_row [c1]].
  change (base_noise noise temp (length [slice_of_row [c0]; slice_of_row [c1]]))
    with [smap (fun v => (v * temp)%R) (noise 0); smap (fun v => (v * temp)%R) (noise 1)].
  rewrite synthesize_flips_eight. reflexivity.
Qed.

Lemma zero_forward_two (x0 x1 c0 c1 : sample) :
  exists gm glv,
    forward small_hp (small_model zero_weights) [x0; x1] [c0; c1]
    = Some ([slice_of_row [x0]; slice_of_row [x1]], gm, glv).
Proof.
  destruct zero_model_flows as [Hf _].
  unfold forward. rewrite !squeeze_two. cbn [bind]. unfold forward_squeezed.
  change (tensor_of_grid [[x0]; [x1]]) with [slice_of_row [x0]; slice_of_row [x1]].
  change (tensor_of_grid [[c0]; [c1]]) with [slice_of_row [c0]; slice_of_row [c1]].
  destruct (zero_forward_flows small_hp _ small_valid Hf
              {| fs_x := [slice_of_row [x0]; slice_of_row [x1]];
                 fs_c := [slice_of_row [c0]; slice_of_row [c1]];
                 global_mean := None; global_logvar := None |}
              [slice_of_row [x0]; slice_of_row [x1]]
              [slice_of_row [c0]; slice_of_row [c1]]) as (s' & E & Hx & Hc).
  - discriminate.
  - reflexivity.
  - exact I.
  - rewrite (proj1 (small_flow_indices zero_weights)). apply forward_flips_eight.
  - rewrite E. cbn [bind]. rewrite Hx. eexists. eexists. reflexivity.
Qed.

(** C2 (the code at the failing input).  Eight flows, squeeze factor 2,
    kernels all zero (every flow is the identity affine map), base noise
    with rows 1 and 2, temperature 1: [forward] applied to the output of
    [synthesize] returns the noise with its two rows exchanged, first
    entry 2 where the base noise has 1. *)
Theorem C2_round_trip_exchanges_rows :
  exists out x gm glv,
    synthesize small_hp (small_model zero_weights) ramp_noise
      [const_sample 0; const_sample 0] 1 = Some out
    /\ forward small_hp (small_model zero_weights) out [const_sample 0; const_sample 0]
       = Some (x, gm, glv)
    /\ nth 0 (base_noise ramp_noise 1 2) szero 0 0 0 = 1%R
    /\ nth 0 x szero 0 0 0 = 2%R
    /\ x <> base_noise ramp_noise 1 2.
Proof.
  destruct (zero_forward_two
              (sample_at (smap (fun v => (v * 1)%R) (ramp_noise 1)) 0)
              (sample_at (smap (fun v => (v * 1)%R) (ramp_noise 0)) 0)
              (const_sample 0) (const_sample 0)) as (gm & glv & Ef).
  exists [sample_at (smap (fun v => (v * 1)%R) (ramp_noise 1)) 0;
          sample_at (smap (fun v => (v * 1)%R) (ramp_noise 0)) 0].
  exists [slice_of_row [sample_at (smap (fun v => (v * 1)%R) (ramp_noise 1)) 0];
          slice_of_row [sample_at (smap (fun v => (v * 1)%R) (ramp_noise 0)) 0]].
  exists gm, glv.
  split; [apply zero_synthesize_two|]. split; [exact Ef|].
  assert (E1 : nth 0 (base_noise ramp_noise 1 2) szero 0 0 0 = 1%R).
  { cbn. unfold smap, ramp_noise, sconst. simpl. lra. }
  assert (E2 : nth 0 [slice_of_row [sample_at (smap (fun v => (v * 1)%R) (ramp_noise 1)) 0];
                      slice_of_row [sample_at (smap (fun v => (v * 1)%R) (ramp_noise 0)) 0]]
                 szero 0 0 0 = 2%R).
  { cbn. unfold sample_at, smap, ramp_noise, sconst. simpl. lra. }
  split; [exact E1|]. split; [exact E2|].
  intros E. rewrite E in E2. rewrite E1 in E2. lra.
Qed.

(** * Further properties of the module *)

(** ** The permutations and how they compose *)

Lemma half_flip_Some_inv {A : Type} (x y : list A) :
  half_flip x = Some y ->
  exists k, 0 < k /\ length x = 2 * k
            /\ y = rev (firstn k x) ++ rev (skipn k x).
Proof.
  intros H.
  destruct (Nat.Even_or_Odd (length x)) as [[k Hk]|[k Hk]].
  - destruct k as [|k].
    + destruct x; [rewrite half_flip_nil in H; discriminate | simpl in Hk; lia].
    + exists (S k). rewrite (half_flip_even x (S k)) in H by lia.
      repeat split; [lia | exact Hk | congruence].
  - rewrite (@half_flip_odd _ x k Hk) in H. discriminate.
Qed.

Lemma half_div (k : nat) : 2 * k / 2 = k.
Proof. rewrite Nat.mul_comm. apply Nat.div_mul. discriminate. Qed.

(** X1.  Both flips only reorder the slices: the result of [full_flip],
    on every input, and the result of [half_flip], whenever it returns,
    are permutations of the input. *)
Theorem flips_are_permutations (A : Type) (x : list A) :
  Permutation x (full_flip x)
  /\ (forall y, half_flip x = Some y -> Permutation x y).
Proof.
  split; [apply Permutation_rev|]. intros y H.
  destruct (half_flip_Some_inv x y H) as (k & _ & _ & ->).
  rewrite <- (firstn_skipn k x) at 1.
  apply Permutation_app; apply Permutation_rev.
Qed.

Lemma flips_are_permutations_witness :
  Permutation [1; 2; 3] (full_flip [1; 2; 3]) /\ Permutation [1; 2; 3; 4] [2; 1; 4; 3].
Proof.
  split.
  - exact (proj1 (flips_are_permutations nat [1; 2; 3])).
  - exact (proj2 (flips_are_permutations nat [1; 2; 3; 4]) [2; 1; 4; 3] eq_refl).
Defined.

Lemma full_after_half {A : Type} (x : list A) (k : nat) :
  length x = 2 * k -> 0 < k ->
  bind (half_flip x) (fun y => Some (full_flip y)) = Some (skipn k x ++ firstn k x).
Proof.
  intros Hk Hpos. rewrite (half_flip_even x k Hk Hpos). cbn [bind].
  unfold full_flip, Torch.flip. now rewrite rev_app_distr, !rev_involutive.
Qed.

Lemma half_after_full {A : Type} (x : list A) (k : nat) :
  length x = 2 * k -> 0 < k ->
  half_flip (full_flip x) = Some (skipn k x ++ firstn k x).
Proof.
  intros Hk Hpos. unfold full_flip, Torch.flip.
  rewrite (half_flip_even (rev x) k) by (rewrite ?length_rev; lia).
  rewrite firstn_rev, skipn_rev, !rev_involutive.
  replace (length x - k) with k by lia. reflexivity.
Qed.

(** X2.  On a tensor of even, non-zero height the two flips commute, and
    their composition exchanges the two halves of the height dimension. *)
Theorem flips_commute_to_exchange (A : Type) (x : list A) :
  Nat.Even (length x) -> 0 < length x ->
  bind (half_flip x) (fun y => Some (full_flip y))
  = Some (skipn (length x / 2) x ++ firstn (length x / 2) x)
  /\ half_flip (full_flip x)
     = Some (skipn (length x / 2) x ++ firstn (length x / 2) x).
Proof.
  intros [k Hk] Hpos.
  assert (Hd : length x / 2 = k) by (rewrite Hk; apply half_div).
  rewrite Hd. split; [apply full_after_half | apply half_after_full]; lia.
Qed.

Lemma flips_commute_to_exchange_witness :
  bind (half_flip [1; 2; 3; 4]) (fun y => Some (full_flip y)) = Some [3; 4; 1; 2]
  /\ half_flip (full_flip [1; 2; 3; 4]) = Some [3; 4; 1; 2].
Proof.
  apply (flips_commute_to_exchange nat [1; 2; 3; 4]); [exists 2; reflexivity | simpl; lia].
Defined.

Lemma foldM_app {S X : Type} (f : S -> X -> option S) (l1 l2 : list X) (s : S) :
  foldM f (l1 ++ l2) s = bind (foldM f l1 s) (foldM f l2).
Proof.
  revert s. induction l1 as [|a l1 IH]; intros s; [reflexivity|].
  cbn [app foldM]. destruct (f s a) as [s'|]; [apply IH | reflexivity].
Qed.

Lemma foldM_two {S X : Type} (f : S -> X -> option S) (a b : X) (s : S) :
  foldM f [a; b] s = bind (f s a) (fun y => f y b).
Proof.
  cbn [foldM]. destruct (f s a) as [y|]; [|reflexivity].
  cbn [bind]. destruct (f y b); reflexivity.
Qed.

Lemma forward_flip_twice {A : Type} (i j : nat) (x : list A) :
  (i <? 4) = (j <? 4) -> Nat.Even (length x) -> 0 < length x ->
  bind (forward_flip i x) (forward_flip j) = Some x.
Proof.
  intros E [k Hk] Hpos. unfold forward_flip. rewrite <- E. destruct (i <? 4).
  - cbn [bind]. f_equal. apply rev_involutive.
  - rewrite (half_flip_even x k Hk) by lia. cbn [bind].
    apply half_flip_involutive. apply half_flip_even; lia.
Qed.

(** X3.  With an even number of flows the permutations that [forward]
    applies after the flows ([full_flip] after each of the first four,
    [half_flip] after the others) compose to the identity on a tensor of
    even, non-zero height: the rows come back in their original order. *)
Theorem forward_permutations_cancel (A : Type) (n : nat) (x : list A) :
  Nat.Even n -> Nat.Even (length x) -> 0 < length x ->
  foldM (fun y i => forward_flip i y) (seq 0 n) x = Some x.
Proof.
  intros [k ->] He Hpos. induction k as [|k IH]; [reflexivity|].
  replace (2 * S k) with (2 * k + 2) by lia.
  rewrite seq_app, foldM_app, IH. cbn [bind seq plus].
  rewrite foldM_two.
  apply forward_flip_twice; auto.
  destruct (Nat.ltb_spec (2 * k) 4), (Nat.ltb_spec (S (2 * k)) 4); auto; lia.
Qed.

Lemma forward_permutations_cancel_witness :
  foldM (fun y i => forward_flip i y) (seq 0 8) [1; 2; 3; 4] = Some [1; 2; 3; 4].
Proof.
  apply (forward_permutations_cancel nat 8 [1; 2; 3; 4]);
    [exists 4; reflexivity | exists 2; reflexivity | simpl; lia].
Defined.

Lemma synthesize_full_flips_cancel {A : Type} (k s : nat) (x : list A) :
  4 < s -> foldM (fun y i => synthesize_flip i y) (seq s (2 * k)) x = Some x.
Proof.
  revert s. induction k as [|k IH]; intros s Hs; [reflexivity|].
  replace (2 * S k) with (S (S (2 * k))) by lia. cbn [seq foldM].
  unfold synthesize_flip at 1.
  assert (E1 : (4 <? s) = true) by (apply Nat.ltb_lt; lia). rewrite E1. cbn [bind].
  unfold synthesize_flip at 1.
  assert (E2 : (4 <? S s) = true) by (apply Nat.ltb_lt; lia). rewrite E2. cbn [bind].
  unfold full_flip, Torch.flip. rewrite rev_involutive. apply IH. lia.
Qed.

(** X4.  With an even number of at least six flows the permutations that
    [synthesize] and [synthesize_fast] apply before the flows ([half_flip]
    for the indices 0 to 4, [full_flip] for the others) do not compose to
    the identity: on a tensor of even, non-zero height they exchange the
    two halves of the height dimension. *)
Theorem synthesize_permutations_exchange (A : Type) (n : nat) (x : list A) :
  Nat.Even n -> 6 <= n -> Nat.Even (length x) -> 0 < length x ->
  foldM (fun y i => synthesize_flip i y) (seq 0 n) x
  = Some (skipn (length x / 2) x ++ firstn (length x / 2) x).
Proof.
  intros [j Hj] Hn [k Hk] Hpos.
  assert (Hd : length x / 2 = k) by (rewrite Hk; apply half_div).
  rewrite Hd.
  replace n with (6 + 2 * (j - 3)) by lia.
  rewrite seq_app, foldM_app.
  assert (E : foldM (fun y i => synthesize_flip i y) (seq 0 6) x
              = Some (skipn k x ++ firstn k x)).
  { cbn [seq foldM]. unfold synthesize_flip. cbn [Nat.ltb Nat.leb].
    pose proof (half_flip_even x k Hk ltac:(lia)) as H1.
    pose proof (half_flip_involutive x _ H1) as H2.
    rewrite H1. cbn [bind]. rewrite H2. cbn [bind].
    rewrite H1. cbn [bind]. rewrite H2. cbn [bind].
    apply full_after_half; lia. }
  rewrite E. cbn [bind]. apply synthesize_full_flips_cancel. simpl. lia.
Qed.

Lemma synthesize_permutations_exchange_witness :
  foldM (fun y i => synthesize_flip i y) (seq 0 8) [1; 2; 3; 4] = Some [3; 4; 1; 2].
Proof.
  apply (synthesize_permutations_exchange nat 8 [1; 2; 3; 4]);
    [exists 4; reflexivity | lia | exists 2; reflexivity | simpl; lia].
Defined.

(** ** The reshape and its inverse *)

Section ReshapeRoundTrip.
Context {A : Type}.
Implicit Types x : list A.

Lemma map_nth_block (d : A) (n s : nat) x :
  s + n <= length x ->
  map (fun j => nth (s + j) x d) (seq 0 n) = firstn n (skipn s x).
Proof.
  revert s. induction n as [|n IH]; intros s Hs; [reflexivity|].
  cbn [seq map]. rewrite <- seq_shift, map_map.
  assert (E : skipn s x = nth s x d :: skipn (S s) x).
  { clear IH. revert s Hs. induction x as [|a x IHx]; intros s Hs; [simpl in Hs; lia|].
    destruct s as [|s]; [reflexivity|]. cbn [skipn nth]. apply IHx. simpl in Hs. lia. }
  rewrite E. cbn [firstn]. rewrite Nat.add_0_r. f_equal.
  rewrite <- (IH (S s)) by lia. apply map_ext. intros j. f_equal. lia.
Qed.

Lemma concat_blocks (n r : nat) x :
  length x = r * n ->
  concat (map (fun i => firstn n (skipn (i * n) x)) (seq 0 r)) = x.
Proof.
  revert x. induction r as [|r IH]; intros x Hlen.
  - destruct x; [reflexivity | discriminate].
  - cbn [seq map concat]. rewrite <- seq_shift, map_map.
    change (skipn (0 * n) x) with x.
    etransitivity; [|apply (firstn_skipn n x)]. f_equal.
    etransitivity; [|apply (IH (skipn n x)); rewrite length_skipn; lia].
    f_equal. apply map_ext. intros i. rewrite skipn_skipn. do 2 f_equal. lia.
Qed.

Lemma column_of_rows (F : nat -> nat -> A) (r n i : nat) :
  i < r ->
  column i (map (fun j => map (fun i' => F i' j) (seq 0 r)) (seq 0 n))
  = map (fun j => F i j) (seq 0 n).
Proof.
  intros Hi. unfold column. induction (seq 0 n) as [|j l IH]; [reflexivity|].
  cbn [map flat_map]. rewrite IH.
  rewrite nth_error_map, nth_error_seq.
  assert (E : (i <? r) = true) by (apply Nat.ltb_lt; lia). rewrite E. reflexivity.
Qed.

Lemma squeeze_grid (hp : HParams) x (d : A) g :
  squeeze hp x = Some g ->
  0 < length x / h hp
  /\ length x = length x / h hp * (length x / (length x / h hp))
  /\ g = map (fun j => map (fun i => nth (i * (length x / (length x / h hp)) + j) x d)
                           (seq 0 (length x / h hp)))
             (seq 0 (length x / (length x / h hp))).
Proof.
  unfold squeeze, reshape_rows. set (r := length x / h hp).
  destruct (h hp =? 0); [discriminate|].
  destruct (Nat.eqb_spec r 0) as [|Hr]; [discriminate|].
  destruct (Nat.eqb_spec (length x mod r) 0) as [Hm|]; [|discriminate].
  cbn [bind]. intros Hg.
  assert (HL : length x = r * (length x / r)) by (apply Nat.Div0.div_exact; exact Hm).
  set (n := length x / r) in *.
  assert (Hn : 0 < n).
  { destruct n; [|lia]. assert (length x = 0) by lia.
    subst r. replace (length x) with 0 in Hr by lia. now rewrite Nat.Div0.div_0_l in Hr. }
  split; [lia|]. split; [exact HL|].
  assert (Eg : g = transpose n (Torch.chunks r n x)) by congruence.
  rewrite Eg, (chunks_exact r n x Hn HL). unfold transpose.
  apply map_ext_in. intros j Hj. apply in_seq in Hj.
  apply column_chunks; lia.
Qed.

End ReshapeRoundTrip.

(** The extents of the grid. *)
Lemma squeeze_dims (A : Type) (hp : HParams) (x : list A) (g : list (list A)) :
  squeeze hp x = Some g ->
  length g = length x / (length x / h hp) /\ grid_width g = length x / h hp.
Proof.
  intros Hg. destruct x as [|d x'].
  { exfalso. unfold squeeze, reshape_rows in Hg. cbn [length] in Hg.
    rewrite Nat.Div0.div_0_l in Hg. destruct (h hp =? 0); discriminate. }
  remember (d :: x') as x eqn:Ex.
  destruct (squeeze_grid hp x d g Hg) as [Hr [HL Eg]].
  set (r := length x / h hp) in *. set (n := length x / r) in *.
  assert (Hn : 0 < n) by (destruct n; [rewrite Ex in HL; simpl in HL; lia | lia]).
  split; [rewrite Eg; now rewrite length_map, length_seq|].
  rewrite Eg. destruct n; [lia|]. rewrite <- cons_seq. cbn [map grid_width].
  now rewrite length_map, length_seq.
Qed.

(** X5.  Whenever the reshape of [forward] and [synthesize] accepts a
    signal of length [L] (which does not need [h] to divide [L]), the grid
    has [L / (L / h)] rows along dimension 2 and [L / h] columns, and the
    final [transpose(2,3).reshape] of the inverse passes gives the signal
    back. *)
Theorem squeeze_unsqueeze (A : Type) (hp : HParams) (x : list A) (g : list (list A)) :
  squeeze hp x = Some g ->
  length g = length x / (length x / h hp)
  /\ Forall (fun row => length row = length x / h hp) g
  /\ grid_width g = length x / h hp
  /\ unsqueeze (grid_width g) g = x.
Proof.
  intros Hg. destruct x as [|d x'].
  { exfalso. unfold squeeze, reshape_rows in Hg. cbn [length] in Hg.
    rewrite Nat.Div0.div_0_l in Hg. destruct (h hp =? 0); discriminate. }
  remember (d :: x') as x eqn:Ex.
  destruct (squeeze_grid hp x d g Hg) as [Hr [HL Eg]].
  set (r := length x / h hp) in *. set (n := length x / r) in *.
  assert (Hn : 0 < n) by (destruct n; [rewrite Ex in HL; simpl in HL; lia | lia]).
  assert (Hrows : Forall (fun row => length row = r) g).
  { rewrite Eg. apply Forall_forall. intros row Hrow. apply in_map_iff in Hrow.
    destruct Hrow as [j [<- _]]. now rewrite length_map, length_seq. }
  assert (Hw : grid_width g = r).
  { rewrite Eg. destruct n; [lia|]. rewrite <- cons_seq. cbn [map grid_width].
    now rewrite length_map, length_seq. }
  split; [rewrite Eg; now rewrite length_map, length_seq|].
  split; [exact Hrows|]. split; [exact Hw|].
  rewrite Hw. unfold unsqueeze, transpose.
  etransitivity; [|apply (concat_blocks n r x); lia].
  f_equal. apply map_ext_in. intros i Hi. apply in_seq in Hi.
  rewrite Eg, (column_of_rows (fun i' j => nth (i' * n + j) x d) r n i) by lia.
  apply map_nth_block. nia.
Qed.

Lemma squeeze_unsqueeze_witness :
  length [[0]; [1]; [2]; [3]; [4]; [5]] = 6 / (6 / 4)
  /\ Forall (fun row => length row = 6 / 4) [[0]; [1]; [2]; [3]; [4]; [5]]
  /\ grid_width [[0]; [1]; [2]; [3]; [4]; [5]] = 6 / 4
  /\ unsqueeze (grid_width [[0]; [1]; [2]; [3]; [4]; [5]]) [[0]; [1]; [2]; [3]; [4]; [5]]
     = [0; 1; 2; 3; 4; 5].
Proof.
  apply (squeeze_unsqueeze nat
           {| kernel_size := 3; cycle_size := 10; n_layer := 20; n_flow := 8;
              h := 4; hidden_size := 1; out_size := 2 |}
           [0; 1; 2; 3; 4; 5] [[0]; [1]; [2]; [3]; [4]; [5]]).
  reflexivity.
Defined.

(** ** The receptive field and the blocks *)

Lemma padding_sum (k c n : nat) :
  1 <= k -> c <> 0 ->
  Z.of_nat (list_sum (map (fun i => (k - 1) * 2 ^ np_mod i c + 1 - 1) (seq 0 n)))
  = ((Z.of_nat k - 1) * pow2_sum c n)%Z.
Proof.
  intros Hk Hc. induction n as [|n IH]; [cbn; lia|].
  rewrite seq_S, map_app, list_sum_app, Nat2Z.inj_add, IH.
  cbn [plus seq map pow2_sum].
  unfold np_mod. destruct (Nat.eqb_spec c 0) as [|_]; [contradiction|].
  assert (E : list_sum [(k - 1) * 2 ^ (n mod c) + 1 - 1] = (k - 1) * 2 ^ (n mod c)).
  { unfold list_sum. cbn [fold_right]. generalize ((k - 1) * 2 ^ (n mod c)). intros. lia. }
  rewrite E, Nat2Z.inj_mul, Nat2Z.inj_pow, Nat2Z.inj_sub by lia.
  change (Z.of_nat 1) with 1%Z. change (Z.of_nat 2) with 2%Z. ring.
Qed.

(** X6.  The receptive field that [WaveFlow.__init__] computes is one
    more than the sum of the causal paddings [padding_h] that
    [ResidualBlock.__init__] gives to the blocks of any one flow, for a
    kernel size of at least 1 and layer sizes that fit in the 64-bit
    integers in which the paddings are computed (the receptive field
    itself is computed with unbounded integers). *)
Theorem receptive_field_sums_paddings (hp : HParams) (w : nat -> StackWeights)
  (m : WaveFlow) (f : ResidualStack) :
  1 <= kernel_size hp -> int64_safe hp ->
  WaveFlow_init hp w = Some m -> In f (flows m) ->
  receptive_field m = (1 + Z.of_nat (list_sum (map padding_h (stack f))))%Z.
Proof.
  intros Hk _ Hm Hf. unfold WaveFlow_init, dilation_sum in Hm.
  destruct (Nat.eqb_spec (cycle_size hp) 0) as [Hc|Hc];
    destruct (Nat.eqb_spec (n_layer hp) 0) as [Hn|Hn];
    cbn [andb negb bind] in Hm; try discriminate;
    (assert (Em : m = {| flows := map (fun i => ResidualStack_init hp (w i))
                                      (seq 0 (n_flow hp));
                         receptive_field :=
                           ((Z.of_nat (kernel_size hp) - 1)
                            * fold_left Z.add
                                (map (fun i => (2 ^ Z.of_nat (i mod cycle_size hp))%Z)
                                     (seq 0 (n_layer hp))) 0 + 1)%Z |}) by congruence);
    rewrite Em in Hf |- *; cbn [flows receptive_field] in Hf |- *;
    apply in_map_iff in Hf; destruct Hf as [i [<- _]];
    cbn [ResidualStack_init stack]; rewrite map_map; cbn [ResidualBlock_init padding_h].
  - rewrite Hn. cbn. lia.
  - rewrite Hn. cbn. lia.
  - rewrite fold_left_add_pow2, (padding_sum _ _ _ Hk Hc). lia.
Qed.

Lemma receptive_field_sums_paddings_witness :
  receptive_field (small_model zero_weights)
  = (1 + Z.of_nat (list_sum (map padding_h
                               (stack (ResidualStack_init small_hp zero_weights)))))%Z.
Proof.
  apply (receptive_field_sums_paddings small_hp (fun _ => zero_weights)
           (small_model zero_weights) (ResidualStack_init small_hp zero_weights)).
  - simpl. lia.
  - split; [simpl; lia | reflexivity].
  - reflexivity.
  - left. reflexivity.
Defined.

Lemma pow2_sum_cycles (c q j : nat) :
  c <> 0 -> j <= c ->
  pow2_sum c (q * c + j) = (Z.of_nat q * (2 ^ Z.of_nat c - 1) + 2 ^ Z.of_nat j - 1)%Z.
Proof.
  intros Hc. revert j. induction q as [|q IHq]; intros j Hj.
  - induction j as [|j IHj]; [reflexivity|].
    cbn [Nat.mul plus pow2_sum] in IHj |- *. rewrite IHj by lia.
    rewrite Nat.mod_small by lia. rewrite Nat2Z.inj_succ, Z.pow_succ_r by lia. lia.
  - induction j as [|j IHj].
    + replace (S q * c + 0) with (q * c + c) by lia. rewrite IHq by lia.
      rewrite Nat2Z.inj_succ. cbn [Z.of_nat]. lia.
    + replace (S q * c + S j) with (S (S q * c + j)) by lia. cbn [pow2_sum].
      rewrite IHj by lia.
      replace (S q * c + j) with (j + S q * c) by lia.
      rewrite Nat.Div0.mod_add, Nat.mod_small by lia.
      rewrite (Nat2Z.inj_succ j), Z.pow_succ_r by lia. lia.
Qed.

(** X7.  Closed form of the receptive field: with [n_layer = q *
    cycle_size + j] layers, [j <= cycle_size], it is [(kernel_size - 1) *
    (q * (2^cycle_size - 1) + 2^j - 1) + 1]; a whole number of cycles of
    dilations [1, 2, ..., 2^(cycle_size-1)] contributes [2^cycle_size - 1]
    each. *)
Theorem receptive_field_closed_form (hp : HParams) (w : nat -> StackWeights)
  (m : WaveFlow) (q j : nat) :
  cycle_size hp <> 0 -> j <= cycle_size hp -> n_layer hp = q * cycle_size hp + j ->
  WaveFlow_init hp w = Some m ->
  receptive_field m
  = ((Z.of_nat (kernel_size hp) - 1)
     * (Z.of_nat q * (2 ^ Z.of_nat (cycle_size hp) - 1) + 2 ^ Z.of_nat j - 1) + 1)%Z.
Proof.
  intros Hc Hj Hn Hm. unfold WaveFlow_init in Hm.
  rewrite (dilation_sum_defined hp Hc) in Hm. cbn [bind] in Hm.
  assert (Em : receptive_field m
               = ((Z.of_nat (kernel_size hp) - 1)
                  * pow2_sum (cycle_size hp) (n_layer hp) + 1)%Z).
  { assert (E : {| flows := map (fun i => ResidualStack_init hp (w i)) (seq 0 (n_flow hp));
                    receptive_field :=
                      ((Z.of_nat (kernel_size hp) - 1)
                       * pow2_sum (cycle_size hp) (n_layer hp) + 1)%Z |} = m) by congruence.
    now rewrite <- E. }
  rewrite Em, Hn, (pow2_sum_cycles _ q j Hc Hj). reflexivity.
Qed.

Lemma receptive_field_closed_form_witness :
  exists m,
    WaveFlow_init {| kernel_size := 3; cycle_size := 10; n_layer := 25; n_flow := 8;
                     h := 8; hidden_size := 1; out_size := 2 |} (fun _ => zero_weights)
    = Some m
    /\ receptive_field m
       = ((Z.of_nat 3 - 1) * (Z.of_nat 2 * (2 ^ Z.of_nat 10 - 1) + 2 ^ Z.of_nat 5 - 1) + 1)%Z.
Proof.
  eexists. split; [reflexivity|].
  apply (receptive_field_closed_form
           {| kernel_size := 3; cycle_size := 10; n_layer := 25; n_flow := 8;
              h := 8; hidden_size := 1; out_size := 2 |}
           (fun _ => zero_weights) _ 2 5).
  - simpl. lia.
  - simpl. lia.
  - reflexivity.
  - reflexivity.
Defined.

(** ** Causality of the parallel mode *)

Lemma rows_at_snoc_each_lt (s n : nat) (ts : list tensor) (rows : list slice) :
  Forall (fun t : tensor => length t = n) ts -> length rows = length ts -> s < n ->
  rows_at s (snoc_each ts rows) = rows_at s ts.
Proof.
  intros H. revert rows. induction H as [|t ts Ht Hts IH]; intros rows Hr Hs.
  - destruct rows; [reflexivity | discriminate].
  - destruct rows as [|r rows]; [discriminate|].
    cbn [snoc_each rows_at map]. fold (rows_at s (snoc_each ts rows)). fold (rows_at s ts).
    rewrite IH by (simpl in Hr; lia). rewrite app_nth1 by lia. reflexivity.
Qed.

(** One more row of input gives one more row of output and leaves the
    others as they were. *)
Lemma stack_rows_snoc (hp : HParams) (st : ResidualStack) (xs cs : tensor) (v d : slice) :
  length cs = length xs ->
  stack_rows hp st (xs ++ [v]) (cs ++ [d])
  = stack_rows hp st xs cs ++ [next_row hp st xs cs d].
Proof.
  intros Hlen. unfold stack_rows. rewrite length_app. simpl length.
  rewrite Nat.add_1_r, seq_S, map_app. cbn [map plus].
  rewrite first_rows_snoc.
  destruct (block_chain_snoc hp (stack st) (first_rows st xs) cs
              (smap tanh (weight (first_conv st) (hist 2 xs))) d) as [_ E];
    [now rewrite first_rows_length|].
  rewrite E.
  pose proof (block_skips_length hp (stack st) (first_rows st xs) cs) as HL.
  rewrite first_rows_length in HL.
  assert (HR : length (map snd (row_chain hp (stack st)
                                  (block_inputs hp (stack st) (first_rows st xs) cs)
                                  (smap tanh (weight (first_conv st) (hist 2 xs))) d))
               = length (block_skips hp (stack st) (first_rows st xs) cs)).
  { rewrite length_map, row_chain_length, block_skips_count;
      auto using block_inputs_length. }
  f_equal.
  - apply map_ext_in. intros s Hs. apply in_seq in Hs.
    now rewrite (rows_at_snoc_each_lt s (length xs) _ _ HL HR) by lia.
  - now rewrite (rows_at_snoc_each (length xs) _ _ HL HR).
Qed.

Lemma stack_rows_length (hp : HParams) (st : ResidualStack) (x c : tensor) :
  length (stack_rows hp st x c) = length x.
Proof. unfold stack_rows. now rewrite length_map, length_seq. Qed.

Lemma snoc_cases {A : Type} (l : list A) : l = [] \/ exists l' a, l = l' ++ [a].
Proof.
  destruct l as [|a l] using rev_ind; [now left | right; eauto].
Qed.

(** The rows of the output on a prefix are a prefix of the rows of the
    output. *)
Lemma stack_rows_app (hp : HParams) (st : ResidualStack) (ys : tensor) :
  forall (xs cs ds : tensor),
    length cs = length xs -> length ds = length ys ->
    firstn (length xs) (stack_rows hp st (xs ++ ys) (cs ++ ds)) = stack_rows hp st xs cs.
Proof.
  induction ys as [|v ys IH] using rev_ind; intros xs cs ds Hc Hd.
  - destruct ds; [|discriminate]. rewrite !app_nil_r.
    rewrite <- (stack_rows_length hp st xs cs) at 1. apply firstn_all.
  - destruct (snoc_cases ds) as [->|[ds' [d ->]]];
      [rewrite length_app in Hd; simpl in Hd; lia|].
    rewrite !length_app in Hd. simpl in Hd.
    rewrite !app_assoc, stack_rows_snoc by (rewrite !length_app; lia).
    rewrite firstn_app, stack_rows_length, length_app.
    replace (length xs - (length xs + length ys)) with 0 by lia.
    cbn [firstn]. rewrite app_nil_r. apply IH; lia.
Qed.

Lemma stack_rows_firstn (hp : HParams) (st : ResidualStack) (x c : tensor) (n : nat) :
  length c = length x -> n <= length x ->
  stack_rows hp st (firstn n x) (firstn n c) = firstn n (stack_rows hp st x c).
Proof.
  intros Hc Hn.
  assert (H1 : length (firstn n c) = length (firstn n x)) by (rewrite !length_firstn; lia).
  assert (H2 : length (skipn n c) = length (skipn n x)) by (rewrite !length_skipn; lia).
  pose proof (stack_rows_app hp st (skipn n x) (firstn n x) (firstn n c) (skipn n c) H1 H2)
    as E.
  rewrite !firstn_skipn, length_firstn in E.
  replace (Nat.min n (length x)) with n in E by lia. symmetry. exact E.
Qed.

(** Row [t] of the output reads the rows of the signal strictly before
    [t] and the rows of the conditioning up to [t]. *)
Lemma stack_rows_nth (hp : HParams) (st : ResidualStack) (x c : tensor) (t : nat) :
  length c = length x -> t < length x ->
  nth t (stack_rows hp st x c) szero
  = next_row hp st (firstn t x) (firstn t c) (nth t c szero).
Proof.
  intros Hc Ht.
  assert (E : firstn (t + 1) (stack_rows hp st x c)
              = stack_rows hp st (firstn t x) (firstn t c)
                ++ [next_row hp st (firstn t x) (firstn t c) (nth t c szero)]).
  { rewrite <- stack_rows_firstn by lia.
    rewrite (firstn_succ_nth szero x t Ht), (firstn_succ_nth szero c t) by lia.
    apply stack_rows_snoc. rewrite !length_firstn. lia. }
  assert (E' : nth t (firstn (t + 1) (stack_rows hp st x c)) szero
               = nth t (stack_rows hp st x c) szero).
  { rewrite <- (firstn_skipn (t + 1) (stack_rows hp st x c)) at 2.
    rewrite app_nth1; [reflexivity|]. rewrite length_firstn, stack_rows_length. lia. }
  rewrite <- E', E, app_nth2 by (rewrite stack_rows_length, length_firstn; lia).
  rewrite stack_rows_length, length_firstn.
  replace (t - Nat.min t (length x)) with 0 by lia. reflexivity.
Qed.

Lemma firstn_nonempty {A : Type} (n : nat) (l : list A) :
  0 < n -> l <> [] -> firstn n l <> [].
Proof. destruct n; [lia|]. destruct l; [congruence | discriminate]. Qed.

(** X8.  In training mode, on a stack whose blocks keep the width of
    their input, [ResidualStack.forward] keeps the height of its input and
    is causal along the height: on the first [n] rows of the signal and of
    the conditioning it returns the first [n] rows of its output on the
    whole input. *)
Theorem stack_forward_causal (hp : HParams) (st : ResidualStack) (x c : tensor) (n : nat) :
  training_stack hp st -> Forall keeps_width (stack st) -> hidden_size hp <> 0 ->
  length c = length x -> 0 < n -> n <= length x ->
  exists out,
    ResidualStack_forward hp st x c = Some out
    /\ length out = length x
    /\ ResidualStack_forward hp st (firstn n x) (firstn n c) = Some (firstn n out).
Proof.
  intros Hst _ Hh Hc Hn Hle.
  assert (Hx : x <> []) by (destruct x; [simpl in Hle; lia | discriminate]).
  exists (stack_rows hp st x c).
  split; [apply stack_forward_rows; auto|].
  split; [apply stack_rows_length|].
  rewrite stack_forward_rows; auto.
  - f_equal. apply stack_rows_firstn; auto.
  - rewrite !length_firstn. lia.
  - apply firstn_nonempty; auto.
Qed.

Lemma stack_forward_causal_witness :
  exists out,
    ResidualStack_forward small_hp (ResidualStack_init small_hp sum_weights)
      [sconst 1; sconst 2; sconst 3] [szero; szero; szero] = Some out
    /\ length out = 3
    /\ ResidualStack_forward small_hp (ResidualStack_init small_hp sum_weights)
         [sconst 1; sconst 2] [szero; szero] = Some (firstn 2 out).
Proof.
  apply (stack_forward_causal small_hp (ResidualStack_init small_hp sum_weights)
           [sconst 1; sconst 2; sconst 3] [szero; szero; szero] 2).
  - apply (ResidualStack_init_training small_hp sum_weights small_valid).
  - repeat constructor.
  - discriminate.
  - reflexivity.
  - lia.
  - simpl. lia.
Defined.

(** X9.  The layer is autoregressive: on a stack in training mode whose
    blocks keep the width of their input, row [t] of its output does not
    read row [t] of the signal, nor any later row of the signal or of the
    conditioning.  Two inputs that agree on the rows of the signal before
    [t] and on the rows of the conditioning up to [t] give the same row
    [t]. *)
Theorem stack_forward_autoregressive (hp : HParams) (st : ResidualStack)
  (x x' c c' : tensor) (t : nat) :
  training_stack hp st -> Forall keeps_width (stack st) -> hidden_size hp <> 0 ->
  length c = length x -> length c' = length x' -> t < length x -> t < length x' ->
  firstn t x = firstn t x' -> firstn (t + 1) c = firstn (t + 1) c' ->
  exists out out' row,
    ResidualStack_forward hp st x c = Some out
    /\ ResidualStack_forward hp st x' c' = Some out'
    /\ nth_error out t = Some row /\ nth_error out' t = Some row.
Proof.
  intros Hst _ Hh Hc Hc' Ht Ht' Ex Ec.
  assert (Hx : x <> []) by (destruct x; [simpl in Ht; lia | discriminate]).
  assert (Hx' : x' <> []) by (destruct x'; [simpl in Ht'; lia | discriminate]).
  exists (stack_rows hp st x c), (stack_rows hp st x' c'),
         (next_row hp st (firstn t x) (firstn t c) (nth t c szero)).
  split; [apply stack_forward_rows; auto|].
  split; [apply stack_forward_rows; auto|].
  rewrite (firstn_succ_nth szero c t), (firstn_succ_nth szero c' t) in Ec by lia.
  apply app_inj_tail in Ec. destruct Ec as [Ec Ed].
  split.
  - rewrite (nth_error_nth_lt szero) by (rewrite stack_rows_length; lia).
    f_equal. apply stack_rows_nth; auto.
  - rewrite (nth_error_nth_lt szero) by (rewrite stack_rows_length; lia).
    f_equal. rewrite stack_rows_nth by auto. now rewrite Ex, Ec, Ed.
Qed.

Lemma stack_forward_autoregressive_witness :
  exists out out' row,
    ResidualStack_forward small_hp (ResidualStack_init small_hp sum_weights)
      [sconst 1; sconst 2; sconst 3] [szero; szero; szero] = Some out
    /\ ResidualStack_forward small_hp (ResidualStack_init small_hp sum_weights)
         [sconst 1; sconst 7] [szero; szero] = Some out'
    /\ nth_error out 1 = Some row /\ nth_error out' 1 = Some row.
Proof.
  apply (stack_forward_autoregressive small_hp (ResidualStack_init small_hp sum_weights)
           [sconst 1; sconst 2; sconst 3] [sconst 1; sconst 7]
           [szero; szero; szero] [szero; szero] 1).
  - apply (ResidualStack_init_training small_hp sum_weights small_valid).
  - repeat constructor.
  - discriminate.
  - reflexivity.
  - reflexivity.
  - simpl. lia.
  - simpl. lia.
  - reflexivity.
  - reflexivity.
Defined.

(** ** The two modes of a block *)

Lemma tiny_valid : valid_hp tiny_hp.
Proof. unfold valid_hp. simpl. repeat split; try lia; discriminate. Qed.

(** With an odd kernel size every block that [__init__] builds keeps the
    width of its input. *)
Lemma ResidualBlock_init_keeps_width (hp : HParams) (d : nat) (w : BlockWeights) :
  Nat.Odd (kernel_size hp) -> keeps_width (ResidualBlock_init hp d w).
Proof.
  intros [j Hj]. unfold keeps_width. cbn [ResidualBlock_init padding_w padding_h].
  rewrite Hj. replace ((2 * j + 1 - 1) * d + 1) with (1 + j * d * 2) by nia.
  rewrite Nat.div_add by lia. change (1 / 2) with 0. lia.
Qed.

Lemma last_rows_snoc {A : Type} (l : list A) (a : A) : Torch.last_rows (l ++ [a]) = [a].
Proof. unfold Torch.last_rows. now rewrite rev_unit. Qed.

(** X12.  The two modes of [ResidualBlock.forward] agree: on a block as
    [__init__] builds it, whose convolution keeps the width of its input,
    the incremental call on the causal window of the
    input (its last [(kernel_size-1)*dilation+1] rows, zero-filled on the
    left) and on the last conditioning row returns the last rows of the
    residual and of the skip connexion of the parallel call, and sets the
    height padding of the block's convolution to zero. *)
Theorem block_incremental_is_last_parallel (hp : HParams) (blk : ResidualBlock)
  (res c : tensor) :
  training_block hp blk -> keeps_width blk -> hidden_size hp <> 0 ->
  length c = length res -> res <> [] ->
  exists r s,
    ResidualBlock_forward hp blk res c false = Some (blk, r, s)
    /\ length r = length res /\ length s = length res
    /\ ResidualBlock_forward hp blk (hist (extent (initial_conv blk)) res)
         (Torch.last_rows c) true
       = Some (to_incremental blk, Torch.last_rows r, Torch.last_rows s)
    /\ padding (initial_conv (to_incremental blk)) = 0.
Proof.
  intros Hb _ Hh Hc Hres.
  exists (map fst (block_rows hp blk res c)), (map snd (block_rows hp blk res c)).
  split; [apply block_forward_parallel; auto|].
  split; [now rewrite length_map, block_rows_length|].
  split; [now rewrite length_map, block_rows_length|].
  split; [|reflexivity].
  destruct (snoc_cases res) as [->|[res' [v ->]]]; [contradiction|].
  destruct (snoc_cases c) as [->|[c' [d ->]]];
    [rewrite length_app in Hc; simpl in Hc; lia|].
  rewrite !length_app in Hc. simpl in Hc.
  rewrite block_rows_snoc by lia.
  rewrite !map_app. cbn [map]. rewrite !last_rows_snoc.
  apply (block_forward_incremental hp blk blk); auto.
  - now left.
  - apply hist_length.
Qed.

Lemma block_incremental_is_last_parallel_witness :
  exists r s,
    ResidualBlock_forward small_hp
      (ResidualBlock_init small_hp 1 (block_w sum_weights 0))
      [sconst 1; sconst 2] [szero; szero] false
    = Some (ResidualBlock_init small_hp 1 (block_w sum_weights 0), r, s)
    /\ length r = 2 /\ length s = 2
    /\ ResidualBlock_forward small_hp
         (ResidualBlock_init small_hp 1 (block_w sum_weights 0))
         (hist 3 [sconst 1; sconst 2]) (Torch.last_rows [szero; szero]) true
       = Some (to_incremental (ResidualBlock_init small_hp 1 (block_w sum_weights 0)),
               Torch.last_rows r, Torch.last_rows s)
    /\ padding (initial_conv
                  (to_incremental (ResidualBlock_init small_hp 1 (block_w sum_weights 0))))
       = 0.
Proof.
  apply (block_incremental_is_last_parallel small_hp
           (ResidualBlock_init small_hp 1 (block_w sum_weights 0))
           [sconst 1; sconst 2] [szero; szero]).
  - apply (ResidualBlock_init_training small_hp 0 (block_w sum_weights 0)). simpl. lia.
  - reflexivity.
  - discriminate.
  - reflexivity.
  - discriminate.
Defined.

(** ** What [arTransform] leaves behind *)

Lemma to_incremental_id (blk : ResidualBlock) :
  padding (initial_conv blk) = 0 -> to_incremental blk = blk.
Proof.
  destruct blk as [d p pw [w e pad] cc rc sc]. cbn. intros ->. reflexivity.
Qed.

Lemma to_incremental_twice (blk : ResidualBlock) :
  to_incremental (to_incremental blk) = to_incremental blk.
Proof. reflexivity. Qed.

(** An incremental call always leaves the block in incremental state. *)
Lemma block_forward_state (hp : HParams) (blk blk' : ResidualBlock) (x c r s : tensor) :
  ResidualBlock_forward hp blk x c true = Some (blk', r, s) -> blk' = to_incremental blk.
Proof.
  intros H. unfold ResidualBlock_forward in H. bind_inv H.
  assert (Hblk : blk' = (if negb (padding (initial_conv blk) =? 0)
                         then with_initial_conv (set_padding 0 (initial_conv blk)) blk
                         else blk)) by congruence.
  rewrite Hblk. destruct (Nat.eqb_spec (padding (initial_conv blk)) 0) as [H0|H0]; cbn [negb].
  - symmetry. now apply to_incremental_id.
  - reflexivity.
Qed.

Lemma incremental_blocks_state (hp : HParams) (blocks : list ResidualBlock) :
  forall (caches : list CircularTensor) (res c : tensor) bs cs skps,
    incremental_blocks hp blocks caches res c = Some (bs, cs, skps) ->
    bs = map to_incremental blocks.
Proof.
  induction blocks as [|blk blocks IH]; intros caches res c bs cs skps H.
  - cbn in H |- *. congruence.
  - cbn [incremental_blocks] in H. destruct caches as [|ct caches]; [discriminate|].
    bind_inv H.
    match goal with
    | Hb : ResidualBlock_forward _ _ _ _ true = Some _ |- _ =>
        apply block_forward_state in Hb; subst
    end.
    match goal with
    | Hi : incremental_blocks _ _ _ _ _ = Some _ |- _ => apply IH in Hi; subst
    end.
    cbn [map]. congruence.
Qed.

Lemma set_row_length {A : Type} (i : nat) (v : A) (x y : list A) :
  Torch.set_row i v x = Some y -> length y = length x.
Proof.
  revert i y. induction x as [|a x IH]; intros i y H; [destruct i; discriminate|].
  destruct i as [|i]; cbn [Torch.set_row] in H.
  - assert (y = v :: x) by congruence. now subst.
  - destruct (Torch.set_row i v x) as [x'|] eqn:E; [|discriminate].
    cbn [option_map] in H. assert (y = a :: x') by congruence. subst.
    cbn [length]. f_equal. now apply (IH i).
Qed.

Lemma arTransform_step_state (hp : HParams) (c : tensor) (st st' : ResidualStack)
  (z z' : tensor) (step : nat) :
  arTransform_step hp c (st, z) step = Some (st', z') ->
  stack st' = map to_incremental (stack st)
  /\ first_conv st' = first_conv st
  /\ cache st' <> None
  /\ length z' = length z.
Proof.
  intros H. unfold arTransform_step in H. bind_inv H.
  match goal with
  | Hi : incremental_blocks _ _ _ _ _ = Some _ |- _ =>
      apply incremental_blocks_state in Hi; subst
  end.
  match goal with
  | Hs : Torch.set_row _ _ _ = Some _ |- _ => apply set_row_length in Hs
  end.
  injection H as <- <-. cbn [with_state stack first_conv cache].
  split; [reflexivity|]. split; [reflexivity|]. split; [discriminate | assumption].
Qed.

Lemma arTransform_loop_state (hp : HParams) (c : tensor) (n : nat) :
  forall (t : nat) (st st' : ResidualStack) (z z' : tensor),
    foldM (arTransform_step hp c) (seq t n) (st, z) = Some (st', z') ->
    (n = 0 /\ st' = st /\ z' = z)
    \/ (0 < n
        /\ stack st' = map to_incremental (stack st)
        /\ first_conv st' = first_conv st
        /\ cache st' <> None
        /\ length z' = length z).
Proof.
  induction n as [|n IH]; intros t st st' z z' H.
  - left. cbn in H. split; [reflexivity|]. split; congruence.
  - right. cbn [seq foldM] in H. apply bind_Some in H.
    destruct H as [[st1 z1] [H1 H]].
    apply arTransform_step_state in H1. destruct H1 as (S1 & F1 & C1 & L1).
    split; [lia|].
    destruct (IH _ _ _ _ _ H) as [(_ & -> & ->)|(_ & S2 & F2 & C2 & L2)]; [auto|].
    rewrite S2, S1, map_map, F2, F1, L2, L1.
    split; [apply map_ext; intros blk; apply to_incremental_twice|]. auto.
Qed.

Lemma arTransform_inv (hp : HParams) (st st' : ResidualStack) (z c z' : tensor) :
  arTransform hp st z c = Some (st', z') ->
  exists z1,
    foldM (arTransform_step hp c) (seq 0 (h hp)) (prepare_cache hp st, repeat szero 2 ++ z)
    = Some (st', z1)
    /\ z' = skipn 2 z1.
Proof.
  intros H. unfold arTransform in H. apply bind_Some in H.
  destruct H as [[st1 z1] [H1 H]]. exists z1.
  assert (E : st' = st1 /\ z' = skipn 2 z1) by (split; congruence).
  destruct E as [-> ->]. auto.
Qed.

(** The paddings after a call. *)
Lemma arTransform_paddings (hp : HParams) (st st' : ResidualStack) (z c z' : tensor) :
  arTransform hp st z c = Some (st', z') -> 0 < h hp ->
  stack st' = map to_incremental (stack st)
  /\ first_conv st' = match cache st with
                      | None => set_padding 0 (first_conv st)
                      | Some _ => first_conv st
                      end.
Proof.
  intros H Hh. destruct (arTransform_inv hp st st' z c z' H) as [z1 [H1 ->]].
  destruct (arTransform_loop_state _ _ _ _ _ _ _ _ H1)
    as [(E & _)|(_ & S2 & F2 & _)]; [lia|].
  rewrite S2, F2. unfold prepare_cache. destruct (cache st); split; reflexivity.
Qed.

(** X13.  A successful call of [arTransform] (with [h >= 1]) leaves every
    block of the stack in incremental state: the height padding of each
    block's first convolution is zero while the rest of the block is as
    before, and on the first call the padding of the stack's first
    convolution is set to zero as well.  The caches are allocated and the
    signal keeps its height. *)
Theorem arTransform_state (hp : HParams) (st st' : ResidualStack) (z c z' : tensor) :
  arTransform hp st z c = Some (st', z') -> 0 < h hp ->
  stack st' = map to_incremental (stack st)
  /\ Forall (fun blk => padding (initial_conv blk) = 0) (stack st')
  /\ first_conv st' = match cache st with
                      | None => set_padding 0 (first_conv st)
                      | Some _ => first_conv st
                      end
  /\ cache st' <> None
  /\ length z' = length z.
Proof.
  intros H Hh. destruct (arTransform_inv hp st st' z c z' H) as [z1 [H1 ->]].
  destruct (arTransform_loop_state _ _ _ _ _ _ _ _ H1)
    as [(E & _)|(_ & S2 & F2 & C2 & L2)]; [lia|].
  assert (Es : stack (prepare_cache hp st) = stack st)
    by (unfold prepare_cache; destruct (cache st); reflexivity).
  assert (Ef : first_conv (prepare_cache hp st)
               = match cache st with
                 | None => set_padding 0 (first_conv st)
                 | Some _ => first_conv st
                 end)
    by (unfold prepare_cache; destruct (cache st); reflexivity).
  rewrite Es in S2. rewrite Ef in F2.
  split; [exact S2|]. split.
  - rewrite S2. apply Forall_forall. intros blk Hb. apply in_map_iff in Hb.
    destruct Hb as [blk0 [<- _]]. reflexivity.
  - split; [exact F2|]. split; [exact C2|].
    rewrite length_skipn, L2, length_app. simpl. lia.
Qed.

Lemma arTransform_state_witness :
  exists st' z',
    arTransform tiny_hp (ResidualStack_init tiny_hp zero_weights)
      [sconst 1; sconst 2] [szero; szero] = Some (st', z')
    /\ stack st' = map to_incremental (stack (ResidualStack_init tiny_hp zero_weights))
    /\ Forall (fun blk => padding (initial_conv blk) = 0) (stack st')
    /\ first_conv st' = set_padding 0 (first_conv (ResidualStack_init tiny_hp zero_weights))
    /\ cache st' <> None
    /\ length z' = 2.
Proof.
  do 2 eexists. split; [reflexivity|].
  apply (arTransform_state tiny_hp (ResidualStack_init tiny_hp zero_weights) _
           [sconst 1; sconst 2] [szero; szero]).
  - reflexivity.
  - simpl. lia.
Defined.

(** ** The parallel mode after a fast synthesis *)

Lemma windows_length {A : Type} (n : nat) (x : list A) :
  length (Torch.windows n x) = length x + 1 - n.
Proof. unfold Torch.windows. now rewrite length_map, length_seq. Qed.

Lemma conv_length (cv : Conv2d) (x y : tensor) :
  conv cv x = Some y ->
  extent cv <= length x + 2 * padding cv
  /\ length y = length x + 2 * padding cv + 1 - extent cv.
Proof.
  unfold conv. intros H.
  destruct (Nat.ltb_spec (length (repeat szero (padding cv) ++ x ++ repeat szero (padding cv)))
                         (extent cv)) as [Hlt|Hge]; [discriminate|].
  rewrite !length_app, !repeat_length in Hge.
  assert (E : y = map (weight cv)
                    (Torch.windows (extent cv)
                       (repeat szero (padding cv) ++ x ++ repeat szero (padding cv))))
    by congruence.
  rewrite E, length_map, windows_length, !length_app, !repeat_length. lia.
Qed.

Lemma broadcast_length (f : slice -> slice -> slice) (x y z : tensor) :
  broadcast f x y = Some z ->
  (length x = length y /\ length z = length x)
  \/ (length y = 1 /\ length z = length x)
  \/ (length x = 1 /\ length z = length y).
Proof.
  unfold broadcast. intros H.
  destruct (Nat.eqb_spec (length x) (length y)) as [E|E].
  - left. split; [exact E|].
    assert (Ez : z = map (fun p => f (fst p) (snd p)) (combine x y)) by congruence.
    rewrite Ez, length_map, length_combine. lia.
  - destruct y as [|t [|t' y]]; destruct x as [|s [|s' x]];
      cbn [length] in E; try discriminate; try (exfalso; apply E; reflexivity);
      match type of H with
      | Some ?v = Some z => assert (Ez : z = v) by congruence; rewrite Ez
      end; cbn [map length]; rewrite ?length_map; cbn [length]; auto.
Qed.

Lemma drop_last_length {A : Type} (n : nat) (x : list A) :
  0 < n -> length (Torch.drop_last n x) = length x - n.
Proof.
  unfold Torch.drop_last. destruct n; [lia|]. intros _. rewrite length_firstn. lia.
Qed.

Lemma split_channels_length (n : nat) (x a b : tensor) :
  split_channels n x = Some (a, b) -> length a = length x /\ length b = length x.
Proof.
  unfold split_channels. destruct (n =? 0); [discriminate|]. intros H.
  assert (E : a = tmap (channels 0) x /\ b = tmap (channels n) x) by (split; congruence).
  destruct E as [-> ->]. unfold tmap. now rewrite !length_map.
Qed.

(** A block in incremental state rejects a parallel call whose input is
    four rows shorter than the conditioning. *)
Lemma incremental_block_rejects (hp : HParams) (blk0 : ResidualBlock) (res c : tensor) :
  training_block hp blk0 -> length res = length c - 4 ->
  ResidualBlock_forward hp (to_incremental blk0) res c false = None.
Proof.
  intros Hb Hres.
  destruct Hb as (_ & He & _ & Hp & [Hce Hcp] & [Hre Hrp] & _).
  destruct (ResidualBlock_forward hp (to_incremental blk0) res c false)
    as [[[blk' r] s]|] eqn:H; [exfalso|reflexivity].
  unfold ResidualBlock_forward in H. cbn [to_incremental with_initial_conv initial_conv
    padding_h cdtconv resconv skipconv set_padding padding extent] in H.
  apply bind_Some in H. destruct H as [x1 [H1 H]].
  destruct (conv (set_padding 0 (initial_conv blk0)) res) as [y1|] eqn:Hy1;
    [|discriminate].
  cbn [option_map] in H1.
  assert (Ex1 : x1 = Torch.drop_last (padding_h blk0) y1) by congruence.
  apply conv_length in Hy1. cbn [set_padding extent padding] in Hy1.
  destruct Hy1 as [Hy1 Hy2].
  assert (Lx1 : length x1 = length res - 2 * padding_h blk0)
    by (rewrite Ex1, drop_last_length; lia).
  apply bind_Some in H. destruct H as [c1 [H2 H]].
  apply conv_length in H2. rewrite Hce, Hcp in H2. destruct H2 as [_ Lc1].
  apply bind_Some in H. destruct H as [[xa xb] [H3 H]].
  apply split_channels_length in H3. destruct H3 as [Lxa Lxb].
  apply bind_Some in H. destruct H as [[ca cb] [H4 H]].
  apply split_channels_length in H4. destruct H4 as [Lca Lcb].
  apply bind_Some in H. destruct H as [a [H5 H]].
  apply broadcast_length in H5.
  apply bind_Some in H. destruct H as [b [H6 H]].
  apply broadcast_length in H6.
  apply bind_Some in H. destruct H as [x2 [H7 H]].
  apply broadcast_length in H7. unfold tmap in H7. rewrite !length_map in H7.
  apply bind_Some in H. destruct H as [r1 [H8 H]].
  apply conv_length in H8. rewrite Hre, Hrp in H8. destruct H8 as [_ Lr1].
  apply bind_Some in H. destruct H as [res1 [H9 H]].
  apply broadcast_length in H9.
  lia.
Qed.

(** A stack in incremental state rejects every parallel call on inputs of
    equal heights. *)
Lemma incremental_stack_rejects (hp : HParams) (st' : ResidualStack) (fc : Conv2d)
  (blk0 : ResidualBlock) (rest : list ResidualBlock) (x cx : tensor) :
  extent fc = 2 -> first_conv st' = set_padding 0 fc ->
  stack st' = to_incremental blk0 :: rest -> training_block hp blk0 ->
  length cx = length x ->
  ResidualStack_forward hp st' x cx = None.
Proof.
  intros He Hf Hs Hb0 Hlen.
  unfold ResidualStack_forward. rewrite Hf, Hs.
  destruct (conv (set_padding 0 fc) x) as [y|] eqn:Hy; [|reflexivity].
  cbn [bind parallel_blocks].
  apply conv_length in Hy. cbn [set_padding extent padding] in Hy. rewrite He in Hy.
  rewrite (incremental_block_rejects hp blk0); [reflexivity | exact Hb0 |].
  unfold tmap. rewrite length_map, drop_last_length; lia.
Qed.

(** X14.  After a successful fast synthesis step the stack can no longer
    be used in parallel mode: once [arTransform] has run (with [h >= 1])
    on a stack built by [__init__], [ResidualStack.forward] raises on every
    signal and conditioning of equal heights, as the docstring of
    [synthesize_fast] warns for training. *)
Theorem forward_fails_after_arTransform (hp : HParams) (st st' : ResidualStack)
  (z c z' x cx : tensor) :
  training_stack hp st -> cache st = None -> 0 < h hp ->
  arTransform hp st z c = Some (st', z') ->
  length cx = length x ->
  ResidualStack_forward hp st' x cx = None.
Proof.
  intros Hst Hcache Hh Har Hlen.
  destruct (arTransform_paddings hp st st' z c z' Har Hh) as (Hs & Hf).
  rewrite Hcache in Hf.
  destruct Hst as (He & _ & Hblocks & Hne & _).
  destruct (stack st) as [|blk0 blocks] eqn:Est; [contradiction|].
  inversion Hblocks as [|? ? Hb0 _]; subst.
  apply (incremental_stack_rejects hp st' (first_conv st) blk0
           (map to_incremental blocks)); auto.
Qed.

Lemma forward_fails_after_arTransform_witness :
  exists st' z',
    arTransform tiny_hp (ResidualStack_init tiny_hp zero_weights)
      [sconst 1; sconst 2] [szero; szero] = Some (st', z')
    /\ ResidualStack_forward tiny_hp st' [sconst 1; sconst 2] [szero; szero] = None.
Proof.
  do 2 eexists. split; [reflexivity|].
  eapply (forward_fails_after_arTransform tiny_hp (ResidualStack_init tiny_hp zero_weights) _
            [sconst 1; sconst 2] [szero; szero] _ [sconst 1; sconst 2] [szero; szero]).
  - apply (ResidualStack_init_training tiny_hp zero_weights tiny_valid).
  - reflexivity.
  - simpl. lia.
  - reflexivity.
  - reflexivity.
Defined.

(** ** Heights that the inverse passes reject *)

Lemma enumerate_cons {A : Type} (a : A) (l : list A) :
  exists rest, enumerate (a :: l) = (0, a) :: rest.
Proof. unfold enumerate. cbn [length seq combine]. eauto. Qed.

Lemma squeeze_rows_exact {A : Type} (hp : HParams) (x : list A) (g : list (list A)) :
  squeeze hp x = Some g -> length x mod h hp = 0 -> length g = h hp.
Proof.
  intros Hg Hmod.
  destruct x as [|d x'].
  { exfalso. unfold squeeze, reshape_rows in Hg. cbn [length] in Hg.
    rewrite Nat.Div0.div_0_l in Hg. destruct (h hp =? 0); discriminate. }
  remember (d :: x') as x eqn:Ex.
  destruct (squeeze_grid hp x d g Hg) as [Hr [HL Eg]].
  assert (Hx : length x = h hp * (length x / h hp))
    by (apply Nat.Div0.div_exact; exact Hmod).
  rewrite Eg, length_map, length_seq.
  set (r := length x / h hp) in *.
  rewrite Hx at 1. apply Nat.div_mul. lia.
Qed.

(** X15.  The inverse passes need an even squeezed height: for a model
    with at least one flow and a conditioning signal whose length the
    squeeze factor [h] divides, both [synthesize] and [synthesize_fast]
    raise when [h] is odd, since the first permutation they apply is
    [half_flip]. *)
Theorem inverse_passes_reject_odd_height (hp : HParams) (m : WaveFlow)
  (noise : nat -> slice) (c : list sample) (temp : R) :
  Nat.Odd (h hp) -> length c mod h hp = 0 -> flows m <> [] ->
  synthesize hp m noise c temp = None
  /\ synthesize_fast hp m noise c temp = None.
Proof.
  intros [k Hk] Hmod Hfl.
  unfold synthesize, synthesize_fast.
  destruct (squeeze hp c) as [cg|] eqn:Ecg; [|split; reflexivity].
  cbn [bind].
  pose proof (squeeze_rows_exact hp c cg Ecg Hmod) as Hcg.
  assert (Hz : length (base_noise noise temp (length (tensor_of_grid cg))) = 2 * k + 1).
  { unfold base_noise, tmap, tensor_of_grid. rewrite !length_map, length_seq. lia. }
  destruct (rev (flows m)) as [|f fl] eqn:Er.
  { exfalso. apply Hfl. rewrite <- (rev_involutive (flows m)), Er. reflexivity. }
  destruct (enumerate_cons f fl) as [rest ->].
  cbn [foldM fast_flows synthesize_flow].
  assert (E : synthesize_flip 0 (base_noise noise temp (length (tensor_of_grid cg))) = None).
  { unfold synthesize_flip. cbn [Nat.ltb Nat.leb]. apply (half_flip_odd _ k Hz). }
  rewrite E. split; reflexivity.
Qed.

Lemma inverse_passes_reject_odd_height_witness :
  synthesize {| kernel_size := 3; cycle_size := 10; n_layer := 1; n_flow := 1;
                h := 3; hidden_size := 1; out_size := 2 |}
             (tiny_model zero_weights) ramp_noise
             [const_sample 1; const_sample 2; const_sample 3] 1 = None
  /\ synthesize_fast {| kernel_size := 3; cycle_size := 10; n_layer := 1; n_flow := 1;
                        h := 3; hidden_size := 1; out_size := 2 |}
                     (tiny_model zero_weights) ramp_noise
                     [const_sample 1; const_sample 2; const_sample 3] 1 = None.
Proof.
  apply (inverse_passes_reject_odd_height
           {| kernel_size := 3; cycle_size := 10; n_layer := 1; n_flow := 1;
              h := 3; hidden_size := 1; out_size := 2 |}
           (tiny_model zero_weights) ramp_noise
           [const_sample 1; const_sample 2; const_sample 3] 1).
  - exists 1. reflexivity.
  - reflexivity.
  - discriminate.
Defined.

(** ** When the forward pass is defined *)

Lemma forward_affine_defined (hp : HParams) (s : ForwardState) (flow : ResidualStack) :
  training_stack hp flow -> hidden_size hp <> 0 -> out_size hp = 2 ->
  fs_x s <> [] -> length (fs_c s) = length (fs_x s) -> pair_fits s ->
  exists s' gm glv,
    forward_affine hp s flow = Some s'
    /\ length (fs_x s') = length (fs_x s) /\ fs_c s' = fs_c s
    /\ global_mean s' = Some gm /\ global_logvar s' = Some glv
    /\ length gm = length (fs_x s) /\ length glv = length (fs_x s).
Proof.
  intros Hst Hh Ho Hx Hc Hp.
  unfold forward_affine.
  rewrite (stack_forward_rows hp _ (fs_x s) (fs_c s) Hst Hh Hc Hx). cbn [bind].
  unfold split_mean_logvar. rewrite Ho. cbn [Nat.eqb bind].
  set (n := length (fs_x s)).
  set (mean := tmap (channels 0) (stack_rows hp flow (fs_x s) (fs_c s))).
  set (lv := tmap (smap clamp_max) (tmap (channels 1) (stack_rows hp flow (fs_x s) (fs_c s)))).
  assert (Hlv : length lv = n)
    by (unfold lv, tmap; now rewrite !length_map, stack_rows_length).
  assert (Hm : length mean = n)
    by (unfold mean, tmap; now rewrite !length_map, stack_rows_length).
  assert (Epair : exists gm glv,
            match global_mean s, global_logvar s with
            | Some gm0, Some glv0 =>
                gm' <- (t <- tmul gm0 (tmap sexp lv) ;; tadd t mean) ;;
                glv' <- tadd glv0 lv ;; Some (gm', glv')
            | _, _ => Some (mean, lv)
            end = Some (gm, glv) /\ length gm = n /\ length glv = n).
  { unfold pair_fits in Hp.
    destruct (global_mean s) as [gm0|]; [destruct (global_logvar s) as [glv0|]|].
    - destruct Hp as [Hg1 Hg2]. unfold tmul, tadd.
      rewrite (broadcast_rows smul n) by (unfold tmap; rewrite ?length_map; assumption).
      cbn [bind].
      rewrite (broadcast_rows sadd n) by (rewrite ?length_map, ?length_seq; auto).
      cbn [bind]. rewrite (broadcast_rows sadd n) by assumption. cbn [bind].
      eexists. eexists. split; [reflexivity|].
      now rewrite !length_map, !length_seq.
    - exists mean, lv. auto.
    - exists mean, lv. auto. }
  destruct Epair as (gm & glv & Epair & Hgm & Hglv). rewrite Epair. cbn [bind].
  rewrite (affine_rows n lv (fs_x s) mean Hlv eq_refl Hm). cbn [bind].
  eexists. exists gm, glv. split; [reflexivity|].
  cbn [fs_x fs_c global_mean global_logvar].
  rewrite length_map, length_seq. auto 10.
Qed.

Lemma forward_flip_defined {A : Type} (i : nat) (x : list A) :
  i < 4 \/ Nat.Even (length x) -> x <> [] ->
  exists y, forward_flip i x = Some y /\ length y = length x.
Proof.
  intros Hi Hx. unfold forward_flip.
  destruct (Nat.ltb_spec i 4) as [Hlt|Hge].
  - eexists. split; [reflexivity|]. apply length_rev.
  - destruct Hi as [Hi|[k Hk]]; [lia|].
    assert (Hk0 : 0 < k) by (destruct x; [congruence | simpl in Hk; lia]).
    eexists. split; [apply (half_flip_even x k Hk Hk0)|].
    rewrite length_app, !length_rev, <- length_app, firstn_skipn. reflexivity.
Qed.

Lemma forward_steps_defined (hp : HParams) (n : nat) (ifl : list (nat * ResidualStack)) :
  hidden_size hp <> 0 -> out_size hp = 2 -> 0 < n ->
  Forall (fun p => training_stack hp (snd p) /\ (fst p < 4 \/ Nat.Even n)) ifl ->
  forall s : ForwardState,
    length (fs_x s) = n -> length (fs_c s) = n -> pair_fits s ->
    exists s',
      foldM (forward_step hp) ifl s = Some s'
      /\ length (fs_x s') = n /\ length (fs_c s') = n /\ pair_fits s'
      /\ (ifl <> [] -> global_mean s' <> None /\ global_logvar s' <> None).
Proof.
  intros Hh Ho Hn Hf. induction Hf as [|[i flow] ifl [Hst Hi] Hf IH]; intros s Hx Hc Hp.
  - exists s. cbn [foldM]. repeat split; auto; congruence.
  - cbn [fst snd] in Hst, Hi.
    assert (Hx0 : fs_x s <> []) by (destruct (fs_x s); [simpl in Hx; lia | discriminate]).
    destruct (forward_affine_defined hp s flow Hst Hh Ho Hx0 ltac:(lia) Hp)
      as (s1 & gm & glv & E1 & Lx & Ec & Eg & El & Lg & Ll).
    destruct (forward_flip_defined i (fs_x s1)) as (x2 & Ex2 & Lx2);
      [rewrite Lx, Hx; exact Hi | destruct (fs_x s1); [simpl in Lx; lia | discriminate] |].
    destruct (forward_flip_defined i (fs_c s1)) as (c2 & Ec2 & Lc2);
      [rewrite Ec, Hc; exact Hi
      | rewrite Ec; destruct (fs_c s); [simpl in Hc; lia | discriminate] |].
    destruct (IH {| fs_x := x2; fs_c := c2;
                    global_mean := global_mean s1; global_logvar := global_logvar s1 |})
      as (s' & E & L1 & L2 & P & G).
    + cbn [fs_x]. lia.
    + cbn [fs_c]. rewrite Lc2, Ec. exact Hc.
    + unfold pair_fits. cbn [fs_x global_mean global_logvar]. rewrite Eg, El. lia.
    + exists s'. cbn [foldM]. unfold forward_step at 1. rewrite E1. cbn [bind].
      rewrite Ex2. cbn [bind]. rewrite Ec2. cbn [bind]. rewrite E.
      split; [reflexivity|]. split; [exact L1|]. split; [exact L2|]. split; [exact P|].
      intros _. destruct ifl as [|p ifl'].
      * cbn [foldM] in E. assert (Es : s' = {| fs_x := x2; fs_c := c2;
                    global_mean := global_mean s1; global_logvar := global_logvar s1 |})
          by congruence.
        rewrite Es. cbn [global_mean global_logvar]. rewrite Eg, El. split; discriminate.
      * apply G. discriminate.
Qed.

Lemma enumerate_in {A : Type} (l : list A) (i : nat) (a : A) :
  In (i, a) (enumerate l) -> i < length l /\ In a l.
Proof.
  unfold enumerate. intros H. split.
  - apply in_combine_l in H. apply in_seq in H. lia.
  - apply in_combine_r in H. exact H.
Qed.

Lemma enumerate_length {A : Type} (l : list A) : length (enumerate l) = length l.
Proof. unfold enumerate. rewrite length_combine, length_seq. lia. Qed.

(** X16.  On a model as [__init__] builds it, for a valid configuration
    whose kernel size is odd (so that every block keeps the width of its
    input) and whose layer sizes fit in 64-bit integers, [forward] (with
    [squeezed=True]) is defined on every non-empty signal with a
    conditioning of the same height, provided the model has at most four
    flows or the height is even; the result and the two running tensors
    then have the height of the input. *)
Theorem forward_defined (hp : HParams) (w : nat -> StackWeights) (m : WaveFlow)
  (x c : tensor) :
  valid_hp hp -> Nat.Odd (kernel_size hp) -> int64_safe hp ->
  WaveFlow_init hp w = Some m ->
  x <> [] -> length c = length x -> 0 < n_flow hp ->
  n_flow hp <= 4 \/ Nat.Even (length x) ->
  exists x' gm glv,
    forward_squeezed hp m x c = Some (x', Some gm, Some glv)
    /\ length x' = length x /\ length gm = length x /\ length glv = length x.
Proof.
  intros Hv _ _ Hm Hx Hc Hn Hcase.
  destruct (WaveFlow_init_fresh hp w m Hv Hm) as [Htr _].
  pose proof (WaveFlow_init_flows hp w m Hm) as Efl.
  assert (Hlen : length (flows m) = n_flow hp) by (rewrite Efl; now rewrite length_map, length_seq).
  destruct Hv as (_ & Hh & Ho & _).
  assert (L0 : 0 < length x) by (destruct x; [congruence | simpl; lia]).
  destruct (forward_steps_defined hp (length x) (enumerate (flows m)) Hh Ho L0)
    with (s := {| fs_x := x; fs_c := c; global_mean := None; global_logvar := None |})
    as (s' & E & L1 & L2 & P & G); auto.
  - apply Forall_forall. intros [i f] Hin. apply enumerate_in in Hin.
    destruct Hin as [Hi Hf]. cbn [fst snd]. split.
    + rewrite Forall_forall in Htr. now apply Htr.
    + destruct Hcase; [left; lia | now right].
  - exact I.
  - unfold forward_squeezed. rewrite E. cbn [bind].
    destruct G as [G1 G2].
    { intros En. apply (f_equal (@length _)) in En.
      rewrite enumerate_length in En. simpl in En. lia. }
    unfold pair_fits in P.
    destruct (global_mean s') as [gm|]; [|congruence].
    destruct (global_logvar s') as [glv|]; [|congruence].
    exists (fs_x s'), gm, glv. split; [reflexivity|]. lia.
Qed.

Lemma forward_defined_witness :
  exists x' gm glv,
    forward_squeezed small_hp (small_model sum_weights)
      [sconst 1; sconst 2] [szero; szero] = Some (x', Some gm, Some glv)
    /\ length x' = 2 /\ length gm = 2 /\ length glv = 2.
Proof.
  apply (forward_defined small_hp (fun _ => sum_weights) (small_model sum_weights)
           [sconst 1; sconst 2] [szero; szero]).
  - exact small_valid.
  - exists 1. reflexivity.
  - split; [simpl; lia | reflexivity].
  - reflexivity.
  - discriminate.
  - reflexivity.
  - simpl. lia.
  - right. exists 1. reflexivity.
Defined.

Lemma forward_steps_odd (hp : HParams) (ifl : list (nat * ResidualStack)) :
  hidden_size hp <> 0 -> out_size hp = 2 ->
  Forall (fun p => training_stack hp (snd p)) ifl ->
  forall s : ForwardState,
    Nat.Odd (length (fs_x s)) -> length (fs_c s) = length (fs_x s) -> pair_fits s ->
    (exists p, In p ifl /\ 4 <= fst p) ->
    foldM (forward_step hp) ifl s = None.
Proof.
  intros Hh Ho Hf. induction Hf as [|[i flow] ifl Hst Hf IH]; intros s Hodd Hc Hp [p [Hin Hp4]].
  - destruct Hin.
  - cbn [snd] in Hst.
    assert (Hx0 : fs_x s <> []).
    { destruct Hodd as [k Hk]. destruct (fs_x s); [simpl in Hk; lia | discriminate]. }
    destruct (forward_affine_defined hp s flow Hst Hh Ho Hx0 Hc Hp)
      as (s1 & gm & glv & E1 & Lx & Ec & Eg & El & Lg & Ll).
    cbn [foldM]. unfold forward_step at 1. rewrite E1. cbn [bind].
    unfold forward_flip at 1. destruct (Nat.ltb_spec i 4) as [Hlt|Hge].
    + cbn [bind]. unfold forward_flip at 1.
      assert (Ei : (i <? 4) = true) by (apply Nat.ltb_lt; lia). rewrite Ei. cbn [bind].
      apply IH.
      * cbn [fs_x]. unfold full_flip, Torch.flip. rewrite length_rev, Lx. exact Hodd.
      * cbn [fs_x fs_c]. unfold full_flip, Torch.flip. rewrite !length_rev, Lx, Ec. exact Hc.
      * unfold pair_fits. cbn [fs_x global_mean global_logvar]. rewrite Eg, El.
        unfold full_flip, Torch.flip. rewrite length_rev. lia.
      * destruct Hin as [<-|Hin]; [cbn [fst] in Hp4; lia | eauto].
    + destruct Hodd as [k Hk].
      rewrite (half_flip_odd (fs_x s1) k) by lia. reflexivity.
Qed.

(** X17.  With five flows or more, [forward] raises on every signal of
    odd height: the flows of index four and above are followed by
    [half_flip], which needs an even height. *)
Theorem forward_rejects_odd_height (hp : HParams) (w : nat -> StackWeights) (m : WaveFlow)
  (x c : tensor) :
  valid_hp hp -> WaveFlow_init hp w = Some m ->
  5 <= n_flow hp -> Nat.Odd (length x) -> length c = length x ->
  forward_squeezed hp m x c = None.
Proof.
  intros Hv Hm Hn Hodd Hc.
  destruct (WaveFlow_init_fresh hp w m Hv Hm) as [Htr _].
  pose proof (WaveFlow_init_flows hp w m Hm) as Efl.
  assert (Hlen : length (flows m) = n_flow hp)
    by (rewrite Efl; now rewrite length_map, length_seq).
  destruct Hv as (_ & Hh & Ho & _).
  unfold forward_squeezed.
  rewrite (forward_steps_odd hp (enumerate (flows m)) Hh Ho); auto.
  - apply Forall_forall. intros [i f] Hin. apply enumerate_in in Hin.
    cbn [snd]. rewrite Forall_forall in Htr. now apply Htr.
  - exact I.
  - destruct (nth_error (flows m) 4) as [f|] eqn:Ef.
    + exists (4, f). split; [|cbn [fst]; lia].
      apply (nth_error_In _ 4). now apply enumerate_nth_error.
    + apply nth_error_None in Ef. lia.
Qed.

Lemma forward_rejects_odd_height_witness :
  forward_squeezed
    {| kernel_size := 3; cycle_size := 10; n_layer := 1; n_flow := 5;
       h := 3; hidden_size := 1; out_size := 2 |}
    {| flows := map (fun i => ResidualStack_init
                        {| kernel_size := 3; cycle_size := 10; n_layer := 1; n_flow := 5;
                           h := 3; hidden_size := 1; out_size := 2 |} zero_weights)
                    (seq 0 5);
       receptive_field := 3 |}
    [sconst 1; sconst 2; sconst 3] [szero; szero; szero] = None.
Proof.
  apply (forward_rejects_odd_height
           {| kernel_size := 3; cycle_size := 10; n_layer := 1; n_flow := 5;
              h := 3; hidden_size := 1; out_size := 2 |} (fun _ => zero_weights)).
  - unfold valid_hp. simpl. repeat split; try lia; discriminate.
  - reflexivity.
  - simpl. lia.
  - exists 1. reflexivity.
  - reflexivity.
Defined.

(** ** The length of the synthesized signal *)

Lemma foldM_invariant {S X : Type} (P : S -> Prop) (f : S -> X -> option S) (l : list X) :
  (forall s x s', P s -> f s x = Some s' -> P s') ->
  forall s s', P s -> foldM f l s = Some s' -> P s'.
Proof.
  intros Hf. induction l as [|x l IH]; intros s s' Hs H.
  - cbn in H. congruence.
  - cbn [foldM] in H. apply bind_Some in H. destruct H as [s1 [H1 H]].
    apply (IH s1); auto. apply (Hf s x); auto.
Qed.

Lemma synthesize_step_length (hp : HParams) (flow : ResidualStack) (c z z' : tensor)
  (step : nat) :
  synthesize_step hp flow c z step = Some z' -> length z' = length z.
Proof.
  intros H. unfold synthesize_step in H. bind_inv H.
  now apply set_row_length in H.
Qed.

Lemma synthesize_flow_length (hp : HParams) (z c z' c' : tensor)
  (iflow : nat * ResidualStack) :
  synthesize_flow hp (z, c) iflow = Some (z', c') -> length z' = length z.
Proof.
  intros H. destruct iflow as [i flow]. unfold synthesize_flow in H.
  apply bind_Some in H. destruct H as [z1 [H1 H]].
  apply bind_Some in H. destruct H as [c1 [H2 H]].
  apply bind_Some in H. destruct H as [z2 [H3 H]].
  assert (Ez : z' = z2) by congruence. subst z'.
  apply synthesize_flip_length in H1. rewrite <- H1.
  apply (foldM_invariant (fun t : tensor => length t = length z1)
           (synthesize_step hp flow c1) (seq 0 (h hp))) with (s := z1); auto.
  intros s x s' Hs Hstep. apply synthesize_step_length in Hstep. lia.
Qed.

Lemma fast_flows_length (hp : HParams) (ifl : list (nat * ResidualStack)) :
  forall (z c : tensor) fl z',
    fast_flows hp ifl z c = Some (fl, z') ->
    length z' = length z /\ length fl = length ifl.
Proof.
  induction ifl as [|[i flow] ifl IH]; intros z c fl z' H.
  - cbn in H. assert (E : fl = [] /\ z' = z) by (split; congruence).
    destruct E as [-> ->]. auto.
  - cbn [fast_flows] in H.
    apply bind_Some in H. destruct H as [z1 [H1 H]].
    apply bind_Some in H. destruct H as [c1 [H2 H]].
    apply bind_Some in H. destruct H as [[flow' z2] [H3 H]].
    apply bind_Some in H. destruct H as [[fl' z3] [H4 H]].
    assert (E : fl = flow' :: fl' /\ z' = z3) by (split; congruence).
    destruct E as [-> ->].
    apply synthesize_flip_length in H1.
    destruct (arTransform_inv hp flow flow' z1 c1 z2 H3) as [zp [Hloop ->]].
    destruct (arTransform_loop_state _ _ _ _ _ _ _ _ Hloop)
      as [(_ & _ & ->)|(_ & _ & _ & _ & L)];
      destruct (IH _ _ _ _ H4) as [L4 L5]; cbn [length]; split; try lia.
    + rewrite L4. cbn [repeat app skipn]. lia.
    + rewrite L4, length_skipn, L, length_app. simpl. lia.
Qed.

Lemma column_length {A : Type} (j : nat) (rows : list (list A)) :
  Forall (fun row => j < length row) rows -> length (column j rows) = length rows.
Proof.
  unfold column. induction 1 as [|row rows Hrow _ IH]; [reflexivity|].
  cbn [flat_map]. rewrite length_app, IH.
  destruct (nth_error row j) eqn:E; [reflexivity|].
  apply nth_error_None in E. lia.
Qed.

Lemma unsqueeze_length {A : Type} (w : nat) (g : list (list A)) :
  Forall (fun row => length row = w) g -> length (unsqueeze w g) = w * length g.
Proof.
  intros Hg. unfold unsqueeze, transpose.
  assert (H : forall j, In j (seq 0 w) -> length (column j g) = length g).
  { intros j Hj. apply in_seq in Hj. apply column_length.
    eapply Forall_impl; [|exact Hg]. cbn. intros row Hr. lia. }
  rewrite <- (length_seq w 0) at 2.
  induction (seq 0 w) as [|j l IH]; [reflexivity|].
  cbn [map concat length]. rewrite length_app, IH, H.
  - lia.
  - now left.
  - intros j' Hj'. apply H. now right.
Qed.

Lemma output_length (cg : list (list sample)) (c : list sample) (hp : HParams) (z : tensor) :
  squeeze hp c = Some cg -> length z = length cg ->
  length (unsqueeze (grid_width cg) (grid_of_tensor (grid_width cg) z)) = length c.
Proof.
  intros Hcg Hz.
  destruct (squeeze_dims _ hp c cg Hcg) as (Lg & Hw).
  destruct c as [|d c'].
  { exfalso. unfold squeeze, reshape_rows in Hcg. cbn [length] in Hcg.
    rewrite Nat.Div0.div_0_l in Hcg. destruct (h hp =? 0); discriminate. }
  destruct (squeeze_grid hp (d :: c') d cg Hcg) as (_ & HL & _).
  rewrite unsqueeze_length.
  - unfold grid_of_tensor. rewrite length_map, Hz, Lg, Hw. symmetry. exact HL.
  - unfold grid_of_tensor. apply Forall_forall. intros row Hrow.
    apply in_map_iff in Hrow. destruct Hrow as [sl [<- _]].
    unfold row_of_slice. now rewrite length_map, length_seq.
Qed.

(** X18.  Whenever an inverse pass returns, the synthesized signal has
    exactly the length of the conditioning signal, and [synthesize_fast]
    returns a model with as many flows as before. *)
Theorem synthesized_length (hp : HParams) (m : WaveFlow) (noise : nat -> slice)
  (c : list sample) (temp : R) :
  (forall out, synthesize hp m noise c temp = Some out -> length out = length c)
  /\ (forall m' out, synthesize_fast hp m noise c temp = Some (m', out) ->
        length out = length c /\ length (flows m') = length (flows m)).
Proof.
  split.
  - intros out H. unfold synthesize in H.
    apply bind_Some in H. destruct H as [cg [Hcg H]].
    apply bind_Some in H. destruct H as [[z c'] [Hloop H]].
    assert (E : out = unsqueeze (grid_width cg) (grid_of_tensor (grid_width cg) z))
      by congruence.
    rewrite E. apply (output_length cg c hp z Hcg).
    assert (P : length (fst (z, c')) = length cg).
    { apply (foldM_invariant (fun s : tensor * tensor => length (fst s) = length cg)
               (synthesize_flow hp) (enumerate (rev (flows m))))
        with (s := (base_noise noise temp (length (tensor_of_grid cg)), tensor_of_grid cg)).
      - intros [z1 c1] p [z2 c2] Hs Hstep. cbn [fst] in *.
        apply synthesize_flow_length in Hstep. lia.
      - cbn [fst]. unfold base_noise, tmap, tensor_of_grid.
        now rewrite !length_map, length_seq.
      - exact Hloop. }
    exact P.
  - intros m' out H. unfold synthesize_fast in H.
    apply bind_Some in H. destruct H as [cg [Hcg H]].
    apply bind_Some in H. destruct H as [[fl z] [Hloop H]].
    assert (E : m' = {| flows := rev fl; receptive_field := receptive_field m |}
                /\ out = unsqueeze (grid_width cg) (grid_of_tensor (grid_width cg) z))
      by (split; congruence).
    destruct E as [-> ->].
    apply fast_flows_length in Hloop. destruct Hloop as [Lz Lf]. split.
    + apply (output_length cg c hp z Hcg). rewrite Lz.
      unfold base_noise, tmap, tensor_of_grid. now rewrite !length_map, length_seq.
    + cbn [flows]. now rewrite length_rev, Lf, enumerate_length, length_rev.
Qed.

(** ** Signals with fewer rows than steps *)

Lemma loop_out_of_range {S : Type} (f : S -> nat -> option S) (len : S -> nat) :
  (forall s t s', f s t = Some s' -> len s' = len s) ->
  (forall s t, len s <= t -> f s t = None) ->
  forall n t s, t <= len s -> len s < t + n -> foldM f (seq t n) s = None.
Proof.
  intros Hlen Hout. induction n as [|n IH]; intros t s H1 H2; [lia|].
  cbn [seq foldM]. destruct (f s t) as [s'|] eqn:E; [|reflexivity].
  cbn [bind]. apply Hlen in E as L.
  destruct (Nat.eq_dec (len s) t) as [Heq|Hne].
  - rewrite Hout in E by lia. discriminate.
  - apply IH; lia.
Qed.

Lemma synthesize_step_out_of_range (hp : HParams) (flow : ResidualStack) (c z : tensor)
  (t : nat) :
  length z <= t -> synthesize_step hp flow c z t = None.
Proof.
  intros Ht. destruct (synthesize_step hp flow c z t) as [z'|] eqn:H; [|reflexivity].
  exfalso. unfold synthesize_step in H. bind_inv H.
  match goal with
  | Hn : nth_error z t = Some _ |- _ =>
      apply nth_error_None in Ht; rewrite Ht in Hn; discriminate
  end.
Qed.

Lemma arTransform_step_out_of_range (hp : HParams) (c : tensor) (st : ResidualStack)
  (z : tensor) (t : nat) :
  length z <= t + 2 -> arTransform_step hp c (st, z) t = None.
Proof.
  intros Ht. destruct (arTransform_step hp c (st, z) t) as [[st' z']|] eqn:H; [|reflexivity].
  exfalso. unfold arTransform_step in H. bind_inv H.
  match goal with
  | Hn : nth_error z (t + 2) = Some _ |- _ =>
      apply nth_error_None in Ht; rewrite Ht in Hn; discriminate
  end.
Qed.

(** X19.  The inner loops of the inverse passes run [h] steps and index
    row [step] of the signal: on a signal with fewer than [h] rows both
    the loop of [synthesize] and [arTransform] raise. *)
Theorem inverse_loops_need_h_rows (hp : HParams) (flow : ResidualStack) (z c : tensor) :
  length z < h hp ->
  foldM (synthesize_step hp flow c) (seq 0 (h hp)) z = None
  /\ arTransform hp flow z c = None.
Proof.
  intros Hz. split.
  - apply (loop_out_of_range (synthesize_step hp flow c) (@length slice)); try lia.
    + intros s t s'. apply synthesize_step_length.
    + intros s t. apply synthesize_step_out_of_range.
  - unfold arTransform.
    rewrite (loop_out_of_range (arTransform_step hp c)
               (fun s : ResidualStack * tensor => length (snd s) - 2)).
    + reflexivity.
    + intros [st1 z1] t [st2 z2] H. apply arTransform_step_state in H. cbn [snd]. lia.
    + intros [st1 z1] t H. cbn [snd] in H. apply arTransform_step_out_of_range. lia.
    + lia.
    + cbn [snd]. rewrite length_app. simpl. lia.
Qed.

Lemma inverse_loops_need_h_rows_witness :
  foldM (synthesize_step tiny_hp (ResidualStack_init tiny_hp zero_weights) [szero])
        (seq 0 (h tiny_hp)) [sconst 1] = None
  /\ arTransform tiny_hp (ResidualStack_init tiny_hp zero_weights) [sconst 1] [szero] = None.
Proof.
  apply (inverse_loops_need_h_rows tiny_hp (ResidualStack_init tiny_hp zero_weights)
           [sconst 1] [szero]).
  simpl. lia.
Defined.

(** ** The running log-variance is bounded *)

Lemma broadcast_entries (f : slice -> slice -> slice) (x y z : tensor) :
  broadcast f x y = Some z ->
  Forall (fun s => exists a b, In a x /\ In b y /\ s = f a b) z.
Proof.
  unfold broadcast. intros H.
  assert (Hm : forall (l : tensor) (g : slice -> slice) (P : slice -> Prop),
             (forall a, In a l -> P (g a)) -> Forall P (map g l)).
  { intros l g P Hg. apply Forall_forall. intros s Hs. apply in_map_iff in Hs.
    destruct Hs as [a [<- Ha]]. auto. }
  destruct (length x =? length y).
  - assert (Ez : z = map (fun p => f (fst p) (snd p)) (combine x y)) by congruence.
    rewrite Ez. apply Forall_forall. intros s Hs. apply in_map_iff in Hs.
    destruct Hs as [[a b] [<- Hab]]. exists a, b. cbn [fst snd].
    split; [eapply in_combine_l; eauto|]. split; [eapply in_combine_r; eauto | reflexivity].
  - destruct y as [|t [|t' y]]; destruct x as [|s [|s' x]]; try discriminate;
      match type of H with
      | Some ?v = Some z => assert (Ez : z = v) by congruence; rewrite Ez
      end; apply Hm; intros a Ha; eexists; eexists;
      (split; [|split; [|reflexivity]]); auto; now left.
Qed.

Lemma bounded_sum (k : nat) (glv lv z : tensor) :
  Forall (fun sl : slice => forall b ch w, (sl b ch w <= 10 * INR k)%R) glv ->
  Forall (fun sl : slice => forall b ch w, (sl b ch w <= 10)%R) lv ->
  tadd glv lv = Some z ->
  Forall (fun sl : slice => forall b ch w, (sl b ch w <= 10 * INR (S k))%R) z.
Proof.
  intros Hg Hl H. apply broadcast_entries in H.
  eapply Forall_impl; [|exact H]. cbv beta. intros s (a & b & Ha & Hb & ->) b0 ch w.
  rewrite Forall_forall in Hg, Hl. specialize (Hg a Ha b0 ch w). specialize (Hl b Hb b0 ch w).
  rewrite S_INR. unfold sadd, smap2. lra.
Qed.

Lemma clamped_le (t : tensor) :
  Forall (fun sl : slice => forall b ch w, (sl b ch w <= 10)%R) (tmap (smap clamp_max) t).
Proof.
  eapply Forall_impl; [|apply (clamped_bounded t)]. cbn. intros sl H b ch w. apply H.
Qed.

Lemma forward_steps_bounded (hp : HParams) (ifl : list (nat * ResidualStack)) :
  forall (k : nat) (s s' : ForwardState),
    match global_logvar s with
    | Some glv => Forall (fun sl : slice => forall b ch w, (sl b ch w <= 10 * INR k)%R) glv
    | None => True
    end ->
    foldM (forward_step hp) ifl s = Some s' ->
    match global_logvar s' with
    | Some glv =>
        Forall (fun sl : slice => forall b ch w, (sl b ch w <= 10 * INR (k + length ifl))%R) glv
    | None => True
    end.
Proof.
  induction ifl as [|[i flow] ifl IH]; intros k s s' Hs H.
  - cbn in H. assert (E : s' = s) by congruence. subst s'.
    cbn [length]. now rewrite Nat.add_0_r.
  - cbn [foldM] in H. apply bind_Some in H. destruct H as [s2 [H2 H]].
    cbn [length]. replace (k + S (length ifl)) with (S k + length ifl) by lia.
    apply (IH (S k) s2 s'); [|exact H].
    unfold forward_step in H2.
    apply bind_Some in H2. destruct H2 as [s1 [H1 H2]].
    apply bind_Some in H2. destruct H2 as [x2 [_ H2]].
    apply bind_Some in H2. destruct H2 as [c2 [_ H2]].
    assert (E : global_logvar s2 = global_logvar s1).
    { assert (E2 : s2 = {| fs_x := x2; fs_c := c2; global_mean := global_mean s1;
                          global_logvar := global_logvar s1 |}) by congruence.
      now rewrite E2. }
    rewrite E.
    destruct (forward_affine_parts hp s s1 flow H1) as (out & mean & raw & _ & _ & _ & _ & Hg).
    pose proof (clamped_le raw) as Hc.
    assert (H10 : Forall (fun sl : slice => forall b ch w, (sl b ch w <= 10 * INR (S k))%R)
                    (tmap (smap clamp_max) raw)).
    { eapply Forall_impl; [|exact Hc]. cbv beta. intros sl Hsl b ch w.
      specialize (Hsl b ch w). rewrite S_INR. pose proof (pos_INR k). lra. }
    destruct (global_mean s) as [gm|]; [destruct (global_logvar s) as [glv|]|].
    + destruct Hg as (gm' & glv' & _ & Hadd & _ & ->).
      apply (bounded_sum k glv (tmap (smap clamp_max) raw)); auto.
    + destruct Hg as [_ ->]. exact H10.
    + destruct Hg as [_ ->]. exact H10.
Qed.

(** X20.  The accumulated log-variance that [forward] returns is bounded:
    each flow adds a log-variance clamped at 10, so every entry of
    [global_logvar] is at most 10 times the number of flows. *)
Theorem global_logvar_bounded (hp : HParams) (m : WaveFlow) (x c x' : tensor)
  (gm : option tensor) (glv : tensor) :
  forward_squeezed hp m x c = Some (x', gm, Some glv) ->
  Forall (fun sl : slice => forall b ch w,
            (sl b ch w <= 10 * INR (length (flows m)))%R) glv.
Proof.
  intros H. unfold forward_squeezed in H.
  apply bind_Some in H. destruct H as [s' [Hloop H]].
  assert (E : global_logvar s' = Some glv) by congruence.
  pose proof (forward_steps_bounded hp (enumerate (flows m)) 0
                {| fs_x := x; fs_c := c; global_mean := None; global_logvar := None |}
                s' I Hloop) as Hb.
  rewrite E, enumerate_length in Hb. exact Hb.
Qed.

Lemma global_logvar_bounded_witness :
  exists x' gm glv,
    forward_squeezed tiny_hp (tiny_model sum_weights) [sconst 1; sconst 2] [szero; szero]
    = Some (x', gm, Some glv)
    /\ Forall (fun sl : slice => forall b ch w,
                 (sl b ch w <= 10 * INR (length (flows (tiny_model sum_weights))))%R) glv.
Proof.
  do 3 eexists. split; [reflexivity|].
  eapply (global_logvar_bounded tiny_hp (tiny_model sum_weights)
            [sconst 1; sconst 2] [szero; szero]).
  reflexivity.
Defined.

(** ** The permutations chosen by the two directions *)

(** X21.  [forward] follows flow [j] by [full_flip] when [j < 4], and the
    inverse passes precede the inversion of flow [j], which they meet at
    index [n - 1 - j] of the reversed list, by [full_flip] when
    [n - 1 - j > 4].  The two choices agree for every flow of a model with
    [n] flows exactly when [n] is 0 or 9. *)
Theorem flip_choices_agree_iff (n : nat) :
  (forall (j : nat) (A : Type) (x : list A),
     j < n -> forward_flip j x = synthesize_flip (n - 1 - j) x)
  <-> n = 0 \/ n = 9.
Proof.
  rewrite <- flip_selection_agrees_iff. split.
  - intros H j Hj. specialize (H j nat [1; 2; 3; 4] Hj).
    unfold forward_flip, synthesize_flip in H.
    destruct (j <? 4), (4 <? n - 1 - j); try reflexivity; discriminate H.
  - intros H j A x Hj. unfold forward_flip, synthesize_flip. now rewrite (H j Hj).
Qed.

(** ** The forward pass after a fast synthesis *)

Lemma fast_flows_results (hp : HParams) (ifl : list (nat * ResidualStack)) :
  forall (z c : tensor) fl z',
    fast_flows hp ifl z c = Some (fl, z') ->
    Forall (fun flow' => exists p z1 c1 z2,
              In p ifl /\ arTransform hp (snd p) z1 c1 = Some (flow', z2)) fl.
Proof.
  induction ifl as [|[i flow] ifl IH]; intros z c fl z' H.
  - cbn in H. assert (E : fl = []) by congruence. subst fl. constructor.
  - cbn [fast_flows] in H.
    apply bind_Some in H. destruct H as [z1 [H1 H]].
    apply bind_Some in H. destruct H as [c1 [H2 H]].
    apply bind_Some in H. destruct H as [[flow' z2] [H3 H]].
    apply bind_Some in H. destruct H as [[fl' z3] [H4 H]].
    assert (E : fl = flow' :: fl') by congruence. subst fl.
    constructor.
    + exists (i, flow), z1, c1, z2. split; [now left | exact H3].
    + eapply Forall_impl; [|apply (IH _ _ _ _ H4)]. cbv beta.
      intros f (p & a & b & d & Hin & Har). exists p, a, b, d. split; [now right | exact Har].
Qed.

(** X22.  [synthesize_fast] breaks the forward pass of the model it
    returns: after a successful fast synthesis on a model as [__init__]
    builds it (with at least one flow), [forward] raises on every signal
    and conditioning of equal heights, so the model cannot be trained
    further. *)
Theorem forward_fails_after_synthesize_fast (hp : HParams) (w : nat -> StackWeights)
  (m m' : WaveFlow) (noise : nat -> slice) (c out : list sample) (temp : R)
  (x cx : tensor) :
  valid_hp hp -> WaveFlow_init hp w = Some m -> 0 < n_flow hp ->
  synthesize_fast hp m noise c temp = Some (m', out) ->
  length cx = length x ->
  forward_squeezed hp m' x cx = None.
Proof.
  intros Hv Hm Hn Hs Hlen.
  pose proof (WaveFlow_init_flows hp w m Hm) as Efl.
  unfold synthesize_fast in Hs.
  apply bind_Some in Hs. destruct Hs as [cg [Hcg Hs]].
  apply bind_Some in Hs. destruct Hs as [[fl z] [Hloop Hs]].
  assert (Em : m' = {| flows := rev fl; receptive_field := receptive_field m |})
    by congruence.
  assert (Hh : 0 < h hp).
  { unfold squeeze in Hcg. destruct (Nat.eqb_spec (h hp) 0); [discriminate | lia]. }
  pose proof (fast_flows_length hp _ _ _ _ _ Hloop) as [_ Lf].
  rewrite enumerate_length, length_rev, Efl, length_map, length_seq in Lf.
  pose proof (fast_flows_results hp _ _ _ _ _ Hloop) as Hres.
  subst m'. unfold forward_squeezed. cbn [flows].
  destruct (rev fl) as [|f0 rest] eqn:Er.
  { apply (f_equal (@length _)) in Er. rewrite length_rev in Er. simpl in Er. lia. }
  destruct (enumerate_cons f0 rest) as [rest' ->].
  cbn [foldM]. unfold forward_step at 1, forward_affine at 1. cbn [fs_x fs_c].
  assert (Hin : In f0 fl) by (apply in_rev; rewrite Er; now left).
  rewrite Forall_forall in Hres.
  destruct (Hres f0 Hin) as ([i f] & z1 & c1 & z2 & Hp & Har).
  apply enumerate_in in Hp. destruct Hp as [_ Hf]. apply in_rev in Hf.
  rewrite Efl in Hf. apply in_map_iff in Hf. destruct Hf as [k [<- _]].
  destruct (ResidualStack_init_training hp (w k) Hv) as [Hst Hcache].
  cbn [snd] in Har.
  destruct (arTransform_paddings hp _ f0 z1 c1 z2 Har Hh) as (Hs0 & Hf0).
  rewrite Hcache in Hf0.
  destruct Hst as (He & _ & Hblocks & Hne & _).
  destruct (stack (ResidualStack_init hp (w k))) as [|blk0 blocks] eqn:Est;
    [contradiction|].
  inversion Hblocks as [|? ? Hb0 _]; subst.
  rewrite (incremental_stack_rejects hp f0 (first_conv (ResidualStack_init hp (w k))) blk0
             (map to_incremental blocks) x cx He Hf0 Hs0 Hb0 Hlen).
  reflexivity.
Qed.

Lemma forward_fails_after_synthesize_fast_witness :
  exists m' out,
    synthesize_fast tiny_hp (tiny_model zero_weights) ramp_noise
      [const_sample 1; const_sample 2] 1 = Some (m', out)
    /\ forward_squeezed tiny_hp m' [sconst 1; sconst 2] [szero; szero] = None.
Proof.
  do 2 eexists. split; [reflexivity|].
  eapply (forward_fails_after_synthesize_fast tiny_hp (fun _ => zero_weights)
            (tiny_model zero_weights) _ ramp_noise [const_sample 1; const_sample 2] _ 1).
  - exact tiny_valid.
  - reflexivity.
  - simpl. lia.
  - reflexivity.
  - reflexivity.
Defined.
